(** * codescan: the scan orchestration and the rule engine

    A shallow embedding of the core of [codescan] (a Python code scanner):
    - [vulndb.py]: the rule repository and [_merge_rules];
    - [semgrep_converter.py]: the translation of Semgrep rule documents;
    - [scanner.py]: findings, scan results, path filtering, file collection,
      per-file analysis and the directory scan;
    - [gui.py]: [ScanThread.run], the thread that drives a scan and owns the
      interruption flag;
    - [utils.py]: the language of a file and the extension statistics;
    - [config.py]: the configuration document, its defaults and the model
      configurations;
    - [rule_manager.py]: editing and deleting a rule of the store.

    Python dictionaries are finite maps ([gmap]) where only lookups matter
    and association lists where the iteration order is observable.  Code that
    can raise returns an [outcome].  Part I holds the definitions, Part II the
    theorems. *)

From Stdlib Require Import ZArith Ascii String List Sorted.
From stdpp Require Import gmap strings list fin_maps pretty.

#[local] Open Scope string_scope.
#[local] Open Scope list_scope.
#[local] Open Scope nat_scope.
#[local] Set Warnings "-register-all".

(** * Part I: definitions *)

(** ** Python values and exceptions *)

Module Py.

(** The result of running code that may raise.  [Raise msg] is a Python
    exception whose [str(e)] is [msg].  [Unmodelled] marks inputs on which the
    code runs but whose values leave the typed fragment embedded here (for
    instance a rule id that is a YAML mapping). *)
Inductive outcome (A : Type) : Type :=
| Ok (a : A)
| Raise (msg : string)
| Unmodelled.
Arguments Ok {A} a.
Arguments Raise {A} msg.
Arguments Unmodelled {A}.

#[global] Instance outcome_ret : MRet outcome := λ A a, Ok a.
#[global] Instance outcome_bind : MBind outcome := λ A B f m,
  match m with
  | Ok a => f a
  | Raise msg => Raise msg
  | Unmodelled => Unmodelled
  end.

(** [l[i]] on a list: [IndexError] when out of range. *)
Definition list_get {A} (l : list A) (i : nat) : outcome A :=
  match l !! i with
  | Some x => Ok x
  | None => Raise "list index out of range"
  end.

(** Truthiness of an optional string ([None] and [''] are falsy). *)
Definition truthy (o : option string) : bool :=
  match o with
  | Some s => negb (String.eqb s "")
  | None => false
  end.

(** [s.zfill(w)] for a string of digits: left padding with zeros. *)
Definition zfill (w : nat) (s : string) : string :=
  string_of_list_ascii (replicate (w - String.length s) "0"%char) +:+ s.

(** [f"{n:04d}"] for a natural number. *)
Definition fmt_04d (n : nat) : string := zfill 4 (pretty n).

(** *** Strings.  A [string] is the UTF-8 encoding of the Python [str];
    case mapping and character classes act on ASCII, slices count bytes. *)

Definition in_range (lo hi c : ascii) : bool :=
  (N_of_ascii lo <=? N_of_ascii c)%N && (N_of_ascii c <=? N_of_ascii hi)%N.

Definition is_upper (c : ascii) : bool := in_range "A" "Z" c.
Definition is_alnum (c : ascii) : bool :=
  in_range "a" "z" c || in_range "A" "Z" c || in_range "0" "9" c.

Definition lower_char (c : ascii) : ascii :=
  if is_upper c then ascii_of_N (N_of_ascii c + 32) else c.

(** [s.lower()] on ASCII text: the letters [A] to [Z] are mapped and every
    other byte is kept. *)
Fixpoint lower (s : string) : string :=
  match s with
  | EmptyString => EmptyString
  | String c s' => String (lower_char c) (lower s')
  end.

(** [s.startswith(p)] *)
Fixpoint is_prefix (p s : string) : bool :=
  match p with
  | EmptyString => true
  | String a p' =>
      match s with
      | String b s' => Ascii.eqb b a && is_prefix p' s'
      | EmptyString => false
      end
  end.

Definition startswith (s p : string) : bool := is_prefix p s.

(** [s.endswith(p)]: [p] is [s] or a suffix of the tail of [s]. *)
Fixpoint endswith (s p : string) : bool :=
  String.eqb s p ||
  match s with
  | EmptyString => false
  | String _ s' => endswith s' p
  end.

(** [p in s] for strings *)
Fixpoint contains (s p : string) : bool :=
  is_prefix p s ||
  match s with
  | EmptyString => false
  | String _ s' => contains s' p
  end.

(** [s.replace(a, b)] for single characters *)
Fixpoint replace_char (a b : ascii) (s : string) : string :=
  match s with
  | EmptyString => EmptyString
  | String c s' => String (if Ascii.eqb c a then b else c) (replace_char a b s')
  end.

(** [s[:n]] *)
Fixpoint take_str (n : nat) (s : string) : string :=
  match n, s with
  | S n', String c s' => String c (take_str n' s')
  | _, _ => EmptyString
  end.

(** [sep.join(l)] *)
Definition join (sep : string) (l : list string) : string := String.concat sep l.

(** [s.split(sep)] for a single character: never empty. *)
Fixpoint split_char (sep : ascii) (s : string) : list string :=
  match s with
  | EmptyString => [EmptyString]
  | String c s' =>
      if Ascii.eqb c sep then EmptyString :: split_char sep s'
      else match split_char sep s' with
           | h :: t => String c h :: t
           | [] => [String c EmptyString]
           end
  end.

(** [s.strip()], on ASCII white space. *)
Definition is_space (c : ascii) : bool :=
  in_range "009" "013" c || in_range "028" "032" c.

Fixpoint lstrip (s : string) : string :=
  match s with
  | String c s' => if is_space c then lstrip s' else s
  | EmptyString => EmptyString
  end.

Fixpoint rstrip (s : string) : string :=
  match s with
  | String c s' =>
      let r := rstrip s' in
      if String.eqb r "" && is_space c then EmptyString else String c r
  | EmptyString => EmptyString
  end.

Definition strip (s : string) : string := rstrip (lstrip s).

(** [s.find(c)] and [s.rfind(c)] for a character; [None] is [-1]. *)
Fixpoint find_char (c : ascii) (s : string) : option nat :=
  match s with
  | String x s' => if Ascii.eqb x c then Some 0 else S <$> find_char c s'
  | EmptyString => None
  end.

Fixpoint rfind_char (c : ascii) (s : string) : option nat :=
  match s with
  | String x s' =>
      match rfind_char c s' with
      | Some i => Some (S i)
      | None => if Ascii.eqb x c then Some 0 else None
      end
  | EmptyString => None
  end.

(** [s[i:j]] *)
Definition slice (i j : nat) (s : string) : string := String.substring i (j - i) s.

(** The double quote, as a string. *)
Definition dq : string := String (ascii_of_N 34) EmptyString.

(** [d.get(k)] on a mapping kept as an association list. *)
Fixpoint dict_get {A} (d : list (string * A)) (k : string) : option A :=
  match d with
  | [] => None
  | (k', v) :: d' => if String.eqb k' k then Some v else dict_get d' k
  end.

(** [k in d] *)
Definition dict_has {A} (d : list (string * A)) (k : string) : bool :=
  match dict_get d k with Some _ => true | None => false end.

End Py.
Import Py.

(** ** YAML and JSON documents *)

(** The values [yaml.safe_load] and [json.loads] produce.  Mappings keep
    their insertion order; numbers are integers or binary floats
    [m * 2^e]. *)
Inductive value : Type :=
| VNull
| VBool (b : bool)
| VInt (z : Z)
| VFloat (m e : Z)
| VStr (s : string)
| VList (l : list value)
| VDict (d : list (string * value)).

(** A text codec for documents: every value is written with a one-letter tag,
    numbers in decimal up to a semicolon, strings with their length.  It
    stands in for the [json] module where an executable codec is needed. *)
Module Codec.

Definition dump_str (s : string) : string :=
  "s" +:+ pretty (String.length s) +:+ ":" +:+ s.

Fixpoint dumps (v : value) : string :=
  match v with
  | VNull => "n"
  | VBool b => if b then "t" else "f"
  | VInt z => "i" +:+ pretty z +:+ ";"
  | VFloat m e => "d" +:+ pretty m +:+ ";" +:+ pretty e +:+ ";"
  | VStr s => dump_str s
  | VList l => "[" +:+ String.concat "" (dumps <$> l) +:+ "]"
  | VDict d =>
      "{" +:+ String.concat "" ((λ kv, let '(k, x) := kv in dump_str k +:+ dumps x) <$> d)
      +:+ "}"
  end.

Definition is_digit (c : ascii) : bool := in_range "0" "9" c.

(** The decimal number up to the character [stop]. *)
Fixpoint read_num (stop : ascii) (acc : N) (seen : bool) (s : string)
  : option (N * string) :=
  match s with
  | EmptyString => None
  | String c s' =>
      if Ascii.eqb c stop then (if seen then Some (acc, s') else None)
      else if is_digit c
      then read_num stop (10 * acc + (N_of_ascii c - 48))%N true s'
      else None
  end.

Definition read_int (stop : ascii) (s : string) : option (Z * string) :=
  match s with
  | String "-" s' => '(n, rest) ← read_num stop 0%N false s'; Some (- Z.of_N n, rest)%Z
  | _ => '(n, rest) ← read_num stop 0%N false s; Some (Z.of_N n, rest)
  end.

Fixpoint drop_str (n : nat) (s : string) : string :=
  match n, s with
  | S n', String _ s' => drop_str n' s'
  | _, _ => s
  end.

Definition read_str (s : string) : option (string * string) :=
  '(n, rest) ← read_num ":" 0%N false s;
  if (n <=? N.of_nat (String.length rest))%N
  then Some (take_str (N.to_nat n) rest, drop_str (N.to_nat n) rest)
  else None.

Fixpoint loads_value (fuel : nat) (s : string) : option (value * string) :=
  match fuel, s with
  | S fuel, String c s' =>
      if Ascii.eqb c "n" then Some (VNull, s')
      else if Ascii.eqb c "t" then Some (VBool true, s')
      else if Ascii.eqb c "f" then Some (VBool false, s')
      else if Ascii.eqb c "i" then '(z, rest) ← read_int ";" s'; Some (VInt z, rest)
      else if Ascii.eqb c "d" then
        '(m, rest) ← read_int ";" s'; '(e, rest) ← read_int ";" rest;
        Some (VFloat m e, rest)
      else if Ascii.eqb c "s" then '(x, rest) ← read_str s'; Some (VStr x, rest)
      else if Ascii.eqb c "[" then
        '(l, rest) ← loads_items fuel s'; Some (VList l, rest)
      else if Ascii.eqb c "{" then
        '(d, rest) ← loads_pairs fuel s'; Some (VDict d, rest)
      else None
  | _, _ => None
  end
with loads_items (fuel : nat) (s : string) : option (list value * string) :=
  match fuel, s with
  | S fuel, String c s' =>
      if Ascii.eqb c "]" then Some ([], s')
      else '(v, rest) ← loads_value fuel s;
           '(l, rest) ← loads_items fuel rest;
           Some (v :: l, rest)
  | _, _ => None
  end
with loads_pairs (fuel : nat) (s : string)
  : option (list (string * value) * string) :=
  match fuel, s with
  | S fuel, String c s' =>
      if Ascii.eqb c "}" then Some ([], s')
      else if Ascii.eqb c "s" then
        '(k, rest) ← read_str s';
        '(v, rest) ← loads_value fuel rest;
        '(d, rest) ← loads_pairs fuel rest;
        Some ((k, v) :: d, rest)
      else None
  | _, _ => None
  end.

Definition loads (s : string) : outcome value :=
  match loads_value (S (String.length s)) s with
  | Some (v, EmptyString) => Ok v
  | _ => Raise "malformed document"
  end.

End Codec.

(** ** vulndb.py: the rule repository *)

Module VulnDB.

(** A rule dictionary, with the keys the code reads.  A rule without the key
    [id] is read through [rule.get('id', '')] and is represented by
    [rule_id = ""]; an absent [pattern] (and the other optional keys) is
    [None]. *)
Record rule : Type := Rule {
  rule_id : string;
  rule_name : string;
  rule_pattern : option string;
  rule_description : option string;
  rule_severity : option string;
  rule_recommendation : option string;
  rule_languages : list string;
  rule_source : option string;
  rule_metadata : option (list (string * value))
}.

(** [rule['id'] = i] *)
Definition set_id (r : rule) (i : string) : rule :=
  {| rule_id := i;
     rule_name := rule_name r;
     rule_pattern := rule_pattern r;
     rule_description := rule_description r;
     rule_severity := rule_severity r;
     rule_recommendation := rule_recommendation r;
     rule_languages := rule_languages r;
     rule_source := rule_source r;
     rule_metadata := rule_metadata r |}.

(** [self.patterns]: language bucket -> ordered sequence of rules. *)
Abbreviation patterns := (gmap string (list rule)).

(** [{rule.get('id', ''): i for i, rule in enumerate(bucket)}]: a later rule
    with the same id overrides the index of an earlier one. *)
Fixpoint index_rules (i : nat) (bucket : list rule) (ids : gmap string nat)
  : gmap string nat :=
  match bucket with
  | [] => ids
  | r :: rest => index_rules (S i) rest (<[rule_id r := i]> ids)
  end.

Definition existing_ids (bucket : list rule) : gmap string nat :=
  index_rules 0 bucket ∅.

(** [f"{lang}-{n:04d}"] *)
Definition synth_id (lang : string) (n : nat) : string :=
  lang +:+ "-" +:+ fmt_04d n.

(** The id under which an incoming rule is processed: its own, or the
    synthesized one when it is empty. *)
Definition effective (lang : string) (st : list rule * nat) (r : rule) : rule :=
  if decide (rule_id r = "")
  then set_id r (synth_id lang (length st.1 + st.2 + 1))
  else r.

(** The body of [for rule in rules]: the state is the bucket
    [self.patterns[lang]] and the counter [total_added]; [existing] is the
    index built before the loop and never refreshed.  The incoming rule dict
    is read as the value it holds when the loop reaches it. *)
Definition merge_rule (lang : string) (existing : gmap string nat)
    (st : list rule * nat) (r : rule) : outcome (list rule * nat) :=
  let r := effective lang st r in
  match existing !! rule_id r with
  | Some index =>
      if truthy (rule_pattern r) then
        old ← list_get st.1 index;
        if bool_decide (rule_pattern r ≠ rule_pattern old)
        then Ok (<[index := r]> st.1, st.2)
        else Ok st
      else Ok st
  | None => Ok (st.1 ++ [r], st.2 + 1)
  end.

Fixpoint merge_bucket (lang : string) (existing : gmap string nat)
    (st : list rule * nat) (rules : list rule) : outcome (list rule * nat) :=
  match rules with
  | [] => Ok st
  | r :: rest =>
      st' ← merge_rule lang existing st r;
      merge_bucket lang existing st' rest
  end.

(** The body of [for lang, rules in new_rules.items()]. *)
Definition merge_lang (st : patterns * nat) (entry : string * list rule)
  : outcome (patterns * nat) :=
  let '(lang, rules) := entry in
  let pats := match st.1 !! lang with
              | None => <[lang := []]> st.1
              | Some _ => st.1
              end in
  let bucket0 := default [] (pats !! lang) in
  '(bucket, total_added) ← merge_bucket lang (existing_ids bucket0) (bucket0, st.2) rules;
  let pats := <[lang := bucket]> pats in
  match bucket with
  | [] => Ok (delete lang pats, total_added)
  | _ :: _ => Ok (pats, total_added)
  end.

Fixpoint merge_langs (st : patterns * nat) (new_rules : list (string * list rule))
  : outcome (patterns * nat) :=
  match new_rules with
  | [] => Ok st
  | entry :: rest =>
      st' ← merge_lang st entry;
      merge_langs st' rest
  end.

(** [VulnerabilityDB._merge_rules]: the new [self.patterns] and the returned
    count.  [new_rules] lists the items of the incoming dictionary in
    iteration order.  [Raise] stands for the [except] branch (which returns
    0); writing the store to disk does not change [self.patterns] and is
    left out. *)
Definition _merge_rules (pats : patterns) (new_rules : list (string * list rule))
  : outcome (patterns * nat) :=
  merge_langs (pats, 0) new_rules.

(** [self.patterns.get(lang, [])] *)
Definition bucket_of (pats : patterns) (lang : string) : list rule :=
  default [] (pats !! lang).

(** [get_patterns_for_language]: the common bucket followed by the bucket of
    the lower-cased language. *)
Definition get_patterns_for_language (pats : patterns) (language : string)
  : list rule :=
  bucket_of pats "common" ++ bucket_of pats (lower language).

(** The invariant of the rule-store state: ids are unique within a bucket and
    no bucket is empty. *)
Definition unique_ids (bucket : list rule) : Prop := NoDup (rule_id <$> bucket).

Definition store_ok (pats : patterns) : Prop :=
  ∀ lang bucket, pats !! lang = Some bucket → bucket ≠ [] ∧ unique_ids bucket.

(** A batch is contained in a store when every rule of the batch has, in the
    bucket it is destined for, a stored rule with the same id and the same
    pattern string. *)
Definition rule_in_bucket (bucket : list rule) (r : rule) : Prop :=
  ∃ old, old ∈ bucket ∧ rule_id old = rule_id r ∧ rule_pattern old = rule_pattern r.

Definition batch_contained (pats : patterns) (new_rules : list (string * list rule)) : Prop :=
  ∀ lang rules r, (lang, rules) ∈ new_rules → r ∈ rules →
    rule_in_bucket (bucket_of pats lang) r.

(** The index maps an id to a position that holds a rule with this id: what
    the bucket loop keeps true. *)
Definition ids_ok (ids : gmap string nat) (bucket : list rule) : Prop :=
  ∀ k i, ids !! k = Some i → ∃ old, bucket !! i = Some old ∧ rule_id old = k.

(** Rules and stores used as concrete inputs. *)
Definition mk_rule (i : string) (p : option string) : rule :=
  {| rule_id := i; rule_name := ""; rule_pattern := p;
     rule_description := None; rule_severity := None;
     rule_recommendation := None; rule_languages := [];
     rule_source := None; rule_metadata := None |}.

Definition py_store (bucket : list rule) : patterns := {[ "python" := bucket ]}.

Definition rule_a_x : rule := mk_rule "a" (Some "x").
Definition rule_a_y : rule := mk_rule "a" (Some "y").
Definition rule_b : rule := mk_rule "b" None.
Definition rule_dup_a : rule := mk_rule "dup" (Some "a").
Definition rule_dup_b : rule := mk_rule "dup" (Some "b").
Definition rule_noid : rule := mk_rule "" (Some "x").
Definition rule_0003 : rule := mk_rule "python-0003" (Some "a").

Definition known_batch : list (string * list rule) :=
  [("python", [rule_b; rule_a_x]); ("go", [])].

End VulnDB.

(** ** The functions of Python's [re] used by the importer and the engine *)

Module Re.

(** [re.escape] (Python 3.7 and later): the characters
    [()[]{}?*+-|^$\.&~#], space, tab, newline, carriage return, vertical tab
    and form feed get a backslash. *)
Definition special_chars : list ascii :=
  ["("; ")"; "["; "]"; "{"; "}"; "?"; "*"; "+"; "-"; "|"; "^"; "$"; "\"; ".";
   "&"; "~"; "#"; " "; "009"; "010"; "013"; "011"; "012"]%char.

Definition is_special (c : ascii) : bool := existsb (Ascii.eqb c) special_chars.

Fixpoint escape (s : string) : string :=
  match s with
  | EmptyString => EmptyString
  | String c s' =>
      if is_special c then String "\" (String c (escape s'))
      else String c (escape s')
  end.

Definition is_metavar_char (c : ascii) : bool := is_upper c || Ascii.eqb c "_".

Definition starts_metavar (s : string) : bool :=
  match s with
  | String d _ => is_metavar_char d
  | EmptyString => false
  end.

(** [re.sub(r'[$][A-Z_]+', '', s)]: every [$] followed by at least one
    capital or underscore goes, with all the capitals and underscores after
    it.  [inside] tells that the scan is within such a match. *)
Fixpoint sub_metavars_from (inside : bool) (s : string) : string :=
  match s with
  | EmptyString => EmptyString
  | String c s' =>
      if inside && is_metavar_char c then sub_metavars_from true s'
      else if Ascii.eqb c "$" && starts_metavar s' then sub_metavars_from true s'
      else String c (sub_metavars_from false s')
  end.

Definition sub_metavars (s : string) : string := sub_metavars_from false s.

(** [s.replace('...', '.*?')] *)
Fixpoint replace_ellipsis (s : string) : string :=
  match s with
  | EmptyString => EmptyString
  | String c s1 =>
      match s1 with
      | String c2 (String c3 rest) =>
          if Ascii.eqb c "." && Ascii.eqb c2 "." && Ascii.eqb c3 "."
          then ".*?" +:+ replace_ellipsis rest
          else String c (replace_ellipsis s1)
      | _ => String c (replace_ellipsis s1)
      end
  end.

(** The regular expressions made of literal characters, backslash-escaped
    punctuation and top-level [|]: the list of their alternatives, each the
    text it matches.  [None] for any other pattern (a metacharacter, a class
    escape such as [\d], a dangling backslash). *)
Definition is_meta (c : ascii) : bool :=
  existsb (Ascii.eqb c) ["."; "^"; "$"; "*"; "+"; "?"; "{"; "}"; "["; "]"; "("; ")"]%char.

Definition push_char (c : ascii) (alts : list string) : list string :=
  match alts with
  | h :: t => String c h :: t
  | [] => [String c EmptyString]
  end.

Fixpoint alternatives (p : string) : option (list string) :=
  match p with
  | EmptyString => Some [EmptyString]
  | String c p1 =>
      if Ascii.eqb c "\" then
        match p1 with
        | String d p2 =>
            if is_alnum d then None else push_char d <$> alternatives p2
        | EmptyString => None
        end
      else if Ascii.eqb c "|" then cons EmptyString <$> alternatives p1
      else if is_meta c then None
      else push_char c <$> alternatives p1
  end.

(** [re.compile(p, re.IGNORECASE).search(content) is not None], on the
    patterns above and ASCII text. *)
Definition search_ignorecase (p content : string) : option bool :=
  alts ← alternatives p;
  Some (existsb (λ a, contains (lower content) (lower a)) alts).

End Re.

(** ** semgrep_converter.py: the translation of Semgrep rules *)

Module Semgrep.
Import VulnDB.

Abbreviation dict := (list (string * value)).

(** Truthiness of a value. *)
Definition truthy_value (v : value) : bool :=
  match v with
  | VNull => false
  | VBool b => b
  | VInt z => negb (z =? 0)%Z
  | VFloat m _ => negb (m =? 0)%Z
  | VStr s => negb (String.eqb s "")
  | VList l => match l with [] => false | _ => true end
  | VDict d => match d with [] => false | _ => true end
  end.

(** [str(v)] on strings and integers, the values whose text is modelled. *)
Definition str_of (v : value) : outcome string :=
  match v with
  | VStr s => Ok s
  | VInt z => Ok (pretty z)
  | _ => Unmodelled
  end.

(** A key read as a string, with the default of [.get]. *)
Definition get_str (d : dict) (k dflt : string) : outcome string :=
  match dict_get d k with
  | None => Ok dflt
  | Some (VStr s) => Ok s
  | Some _ => Unmodelled
  end.

(** The string under [k], when there is one: ['k' in d and
    isinstance(d['k'], str)]. *)
Definition str_at (d : dict) (k : string) : option string :=
  match dict_get d k with
  | Some (VStr s) => Some s
  | _ => None
  end.

(** The alternatives collected from [pattern-either]: strings, and the string
    [pattern] of mappings. *)
Definition either_strings (items : list value) : list string :=
  omap (λ p, match p with
             | VStr s => Some s
             | VDict d => str_at d "pattern"
             | _ => None
             end) items.

(** The first branch: [pattern], [pattern-either], [pattern-regex],
    [pattern-inside], [pattern-not], in this order; only the first key that is
    present is looked at. *)
Definition primary_pattern (rule : dict) : outcome (option string) :=
  match dict_get rule "pattern" with
  | Some (VStr s) => Ok (Some s)
  | Some (VDict d) =>
      match dict_get d "pattern" with
      | Some (VStr s) => Ok (Some s)
      | Some _ => Unmodelled
      | None => Ok None
      end
  | Some _ => Ok None
  | None =>
  match dict_get rule "pattern-either" with
  | Some v =>
      if truthy_value v then
        match v with
        | VList items =>
            match either_strings items with
            | [] => Ok None
            | strs => Ok (Some (join "|" (replace_char "010" " " <$> strs)))
            end
        | VDict d =>
            match d with
            | [] => Ok None
            | _ => Ok (Some (join "|" (replace_char "010" " " <$> (fst <$> d))))
            end
        | VStr _ => Unmodelled
        | _ => Raise "object is not iterable"
        end
      else Ok None
  | None =>
  match dict_get rule "pattern-regex" with
  | Some (VStr s) => Ok (Some s)
  | Some _ => Ok None
  | None =>
  match dict_get rule "pattern-inside" with
  | Some (VStr s) => Ok (Some s)
  | Some _ => Ok None
  | None =>
  match dict_get rule "pattern-not" with
  | Some (VStr s) => Ok (Some ("(?!" +:+ s +:+ ")"))
  | _ => Ok None
  end end end end end.

(** [for nested_pattern in pattern_entry['patterns']]: the first mapping with
    a string [pattern] sets the variable and ends the loop. *)
Fixpoint nested_patterns_loop (pattern : option string) (nested : list value)
  : option string :=
  match nested with
  | [] => pattern
  | VDict d :: rest =>
      match str_at d "pattern" with
      | Some s => Some s
      | None => nested_patterns_loop pattern rest
      end
  | _ :: rest => nested_patterns_loop pattern rest
  end.

(** [for pattern_entry in rule['patterns']] *)
Fixpoint patterns_loop (pattern : option string) (entries : list value)
  : option string :=
  match entries with
  | [] => pattern
  | VDict d :: rest =>
      match str_at d "pattern" with
      | Some s => Some s
      | None =>
          match dict_get d "patterns" with
          | Some (VList nested) =>
              let pattern := nested_patterns_loop pattern nested in
              if truthy pattern then pattern else patterns_loop pattern rest
          | _ => patterns_loop pattern rest
          end
      end
  | _ :: rest => patterns_loop pattern rest
  end.

(** [for subrule in rule['rules']] *)
Fixpoint subrules_loop (pattern : option string) (subrules : list value)
  : option string :=
  match subrules with
  | [] => pattern
  | VDict d :: rest =>
      match str_at d "pattern" with
      | Some s => Some s
      | None => subrules_loop pattern rest
      end
  | _ :: rest => subrules_loop pattern rest
  end.

(** The placeholder used when no pattern was found. *)
Definition placeholder (rule : dict) (rule_id : string) : outcome string :=
  match dict_get rule "metadata" with
  | Some (VDict md) =>
      match dict_get md "cwe" with
      | Some v => s ← str_of v; Ok ("# CWE-" +:+ s)
      | None =>
          match dict_get md "owasp" with
          | Some v => s ← str_of v; Ok ("# OWASP-" +:+ s)
          | None => Ok ("# " +:+ rule_id)
          end
      end
  | _ => Ok ("# " +:+ rule_id)
  end.

(** [convert_semgrep_rule].  [Raise] is the exception that the function
    catches to return [None]. *)
Definition convert_semgrep_rule (rule : dict) : outcome VulnDB.rule :=
  rule_id ← get_str rule "id" "";
  languages ← match dict_get rule "languages" with
              | None => Ok []
              | Some (VList l) =>
                  match mapM (λ v, match v with VStr s => Some s | _ => None end) l with
                  | Some langs => Ok langs
                  | None => Unmodelled
                  end
              | Some _ => Unmodelled
              end;
  severity ← match dict_get rule "severity" with
             | None => Ok "medium"
             | Some (VStr s) => Ok (lower s)
             | Some _ => Raise "object has no attribute 'lower'"
             end;
  message ← get_str rule "message" "";
  name ← get_str rule "name" "";
  let rule_name := if String.eqb name "" then take_str 50 message else name in
  pattern ← primary_pattern rule;
  let pattern :=
    if truthy pattern then pattern else
    match dict_get rule "patterns" with
    | Some (VList entries) => patterns_loop pattern entries
    | _ => pattern
    end in
  let pattern :=
    if truthy pattern then pattern else
    match dict_get rule "rules" with
    | Some (VList subrules) => subrules_loop pattern subrules
    | _ => pattern
    end in
  pattern ← match pattern with
            | Some s => if String.eqb s "" then placeholder rule rule_id else Ok s
            | None => placeholder rule rule_id
            end;
  let pattern := Re.replace_ellipsis (Re.sub_metavars pattern) in
  let pattern := Re.escape pattern in
  Ok {| rule_id := rule_id;
        rule_name := rule_name;
        rule_pattern := Some pattern;
        rule_description := Some message;
        rule_severity := Some severity;
        rule_recommendation := None;
        rule_languages := languages;
        rule_source := Some "semgrep";
        rule_metadata := match dict_get rule "metadata" with
                         | Some (VDict md) => Some md
                         | _ => None
                         end |}.

(** A result dictionary [language -> rules], in insertion order. *)
Abbreviation buckets := (list (string * list VulnDB.rule)).

(** [if k not in result: result[k] = []] followed by
    [result[k].extend(rules)] *)
Fixpoint extend_bucket (result : buckets) (k : string) (rules : list VulnDB.rule)
  : buckets :=
  match result with
  | [] => [(k, rules)]
  | (k', b) :: rest =>
      if String.eqb k' k then (k', b ++ rules) :: rest
      else (k', b) :: extend_bucket rest k rules
  end.

(** The rules of a document, by its shape. *)
Definition document_rules (content : value) : list value :=
  match content with
  | VDict d =>
      match dict_get d "rules" with
      | Some (VList rules) => rules
      | _ =>
          if dict_has d "id" && dict_has d "pattern" then [content]
          else
            flat_map (λ kv, match kv.2 with
                            | VDict d' =>
                                match dict_get d' "rules" with
                                | Some (VList rules) => rules
                                | _ => if dict_has d' "pattern" then [kv.2] else []
                                end
                            | _ => []
                            end) d
      end
  | VList rules => rules
  | _ => []
  end.

(** The bucket names of a converted rule. *)
Definition rule_buckets (r : VulnDB.rule) : list string :=
  match rule_languages r with
  | [] => ["common"]
  | langs => (λ l, lower (if String.eqb l "" then "common" else lower l)) <$> langs
  end.

(** [for rule in rules] of [convert_semgrep_rules_file] *)
Fixpoint convert_rules (result : buckets) (rules : list value) : outcome buckets :=
  match rules with
  | [] => Ok result
  | VDict rule :: rest =>
      match convert_semgrep_rule rule with
      | Ok converted =>
          convert_rules
            (foldl (λ res lang, extend_bucket res lang [converted]) result
                   (rule_buckets converted))
            rest
      | Raise _ => convert_rules result rest
      | Unmodelled => Unmodelled
      end
  | _ :: rest => convert_rules result rest
  end.

(** [convert_semgrep_rules_file], on what [yaml.safe_load] made of the file
    ([Raise] when the file cannot be read or parsed: the function then
    returns the empty result). *)
Definition convert_semgrep_rules_file (content : outcome value) : outcome buckets :=
  match content with
  | Ok content => convert_rules [] (document_rules content)
  | Raise _ => Ok []
  | Unmodelled => Unmodelled
  end.

(** The result [convert_semgrep_rules_dir] starts from. *)
Definition initial_buckets : buckets :=
  [("common", []); ("python", []); ("javascript", []); ("java", []); ("go", []);
   ("ruby", []); ("php", []); ("c", []); ("cpp", [])].

Fixpoint convert_files (result : buckets) (files : list (outcome value))
  : outcome buckets :=
  match files with
  | [] => Ok result
  | f :: rest =>
      file_rules ← convert_semgrep_rules_file f;
      convert_files
        (foldl (λ res kv, extend_bucket res kv.1 kv.2) result file_rules) rest
  end.

(** [convert_semgrep_rules_dir]: the directory is the list of its files
    (path below the directory, parsed content); the two globs pick the
    [.yaml] files and then the [.yml] files. *)
Definition convert_semgrep_rules_dir (directory : list (string * outcome value))
  : outcome buckets :=
  let yaml_files :=
    filter (λ f, endswith f.1 ".yaml" = true) directory ++
    filter (λ f, endswith f.1 ".yml" = true) directory in
  convert_files initial_buckets (snd <$> yaml_files).

(** A document with one rule that carries [pattern-either: ["foo", "bar"]]
    and no other pattern key. *)
Definition either_rule (languages : list value) : dict :=
  [("id", VStr "either-rule");
   ("languages", VList languages);
   ("severity", VStr "ERROR");
   ("message", VStr "foo or bar");
   ("pattern-either", VList [VStr "foo"; VStr "bar"])].

Definition either_directory (languages : list value)
  : list (string * outcome value) :=
  [("rules/either.yaml", Ok (VDict [("rules", VList [VDict (either_rule languages)])]))].

(** Two files that define a rule under the same id. *)
Definition shared_id_directory : list (string * outcome value) :=
  [("a/either.yaml", Ok (VDict [("rules", VList [VDict (either_rule [VStr "python"])])]));
   ("b/either.yml", Ok (VList [VDict (either_rule [VStr "python"])]))].

Definition either_converted (languages : list string) : VulnDB.rule :=
  {| rule_id := "either-rule";
     rule_name := "foo or bar";
     rule_pattern := Some "foo\|bar";
     rule_description := Some "foo or bar";
     rule_severity := Some "error";
     rule_recommendation := None;
     rule_languages := languages;
     rule_source := Some "semgrep";
     rule_metadata := None |}.

End Semgrep.

(** ** scanner.py: findings and scan results *)

Module Scanner.

Abbreviation dict := (list (string * value)).

(** The dataclass [VulnerabilityIssue], with the declared field types. *)
Record VulnerabilityIssue : Type := Issue {
  severity : string;
  file_path : string;
  line_number : option Z;
  code_snippet : option string;
  description : string;
  recommendation : string;
  cwe_id : option string;
  confidence : string
}.

(** The dataclass [ScanResult].  The float [timestamp] is [m * 2^e], kept as
    the pair [(m, e)]. *)
Record ScanResult : Type := Result {
  scan_id : string;
  scan_path : string;
  scan_type : string;
  timestamp : Z * Z;
  issues : list VulnerabilityIssue;
  stats : dict;
  project_info : dict
}.

(** The property [total_issues]. *)
Definition total_issues (r : ScanResult) : nat := length (issues r).

(** The property [issues_by_severity]: the five named levels start at 0 and
    [result[issue.severity] = result.get(issue.severity, 0) + 1] runs for
    every issue. *)
Definition no_issues : gmap string nat :=
  {[ "critical" := 0; "high" := 0; "medium" := 0; "low" := 0; "info" := 0 ]}.

Definition count_issue (result : gmap string nat) (issue : VulnerabilityIssue)
  : gmap string nat :=
  <[severity issue := default 0 (result !! severity issue) + 1]> result.

Definition issues_by_severity (r : ScanResult) : gmap string nat :=
  foldl count_issue no_issues (issues r).

(** The sum of the counts of a severity map. *)
Definition sum_counts (m : gmap string nat) : nat :=
  map_fold (λ _ n acc, n + acc) 0 m.

(** The number of issues of a severity. *)
Definition count_severity (sev : string) (l : list VulnerabilityIssue) : nat :=
  length (filter (λ i, severity i = sev) l).

(** *** Serialization *)

Definition opt_str (o : option string) : value :=
  match o with Some s => VStr s | None => VNull end.

Definition opt_int (o : option Z) : value :=
  match o with Some z => VInt z | None => VNull end.

(** [vars(issue)] *)
Definition vars (i : VulnerabilityIssue) : value :=
  VDict [("severity", VStr (severity i));
         ("file_path", VStr (file_path i));
         ("line_number", opt_int (line_number i));
         ("code_snippet", opt_str (code_snippet i));
         ("description", VStr (description i));
         ("recommendation", VStr (recommendation i));
         ("cwe_id", opt_str (cwe_id i));
         ("confidence", VStr (confidence i))].

(** [ScanResult.to_dict] *)
Definition to_dict (r : ScanResult) : value :=
  VDict [("scan_id", VStr (scan_id r));
         ("scan_path", VStr (scan_path r));
         ("scan_type", VStr (scan_type r));
         ("timestamp", VFloat (timestamp r).1 (timestamp r).2);
         ("issues", VList (vars <$> issues r));
         ("stats", VDict (stats r));
         ("project_info", VDict (project_info r))].

(** Reading a keyword argument at its declared type; a value of another type
    is accepted by Python and leaves the typed model. *)
Definition as_str (v : value) : outcome string :=
  match v with VStr s => Ok s | _ => Unmodelled end.

Definition as_opt_str (v : value) : outcome (option string) :=
  match v with VStr s => Ok (Some s) | VNull => Ok None | _ => Unmodelled end.

Definition as_opt_int (v : value) : outcome (option Z) :=
  match v with VInt z => Ok (Some z) | VNull => Ok None | _ => Unmodelled end.

Definition as_float (v : value) : outcome (Z * Z) :=
  match v with VFloat m e => Ok (m, e) | _ => Unmodelled end.

Definition as_dict (v : value) : outcome dict :=
  match v with VDict d => Ok d | _ => Unmodelled end.

(** A required keyword argument: [TypeError] when it is missing. *)
Definition required {A} (d : dict) (k : string) (read : value → outcome A)
  : outcome A :=
  match dict_get d k with
  | Some v => read v
  | None => Raise ("missing required argument: " +:+ k)
  end.

(** A keyword argument with a default. *)
Definition optional {A} (d : dict) (k : string) (read : value → outcome A)
    (dflt : A) : outcome A :=
  match dict_get d k with
  | Some v => read v
  | None => Ok dflt
  end.

(** [TypeError] for a keyword that the dataclass does not declare. *)
Definition check_keywords (d : dict) (fields : list string) : outcome unit :=
  match List.find (λ kv, negb (bool_decide (kv.1 ∈ fields))) d with
  | Some kv => Raise ("unexpected keyword argument: " +:+ kv.1)
  | None => Ok ()
  end.

(** [VulnerabilityIssue] called with the keyword arguments [issue_data]. *)
Definition issue_of (issue_data : value) : outcome VulnerabilityIssue :=
  match issue_data with
  | VDict d =>
      _ ← check_keywords d ["severity"; "file_path"; "line_number"; "code_snippet";
                            "description"; "recommendation"; "cwe_id"; "confidence"];
      sev ← required d "severity" as_str;
      path ← required d "file_path" as_str;
      line ← optional d "line_number" as_opt_int None;
      snippet ← optional d "code_snippet" as_opt_str None;
      desc ← optional d "description" as_str "";
      rec ← optional d "recommendation" as_str "";
      cwe ← optional d "cwe_id" as_opt_str None;
      conf ← optional d "confidence" as_str "medium";
      Ok {| severity := sev; file_path := path; line_number := line;
            code_snippet := snippet; description := desc;
            recommendation := rec; cwe_id := cwe; confidence := conf |}
  | _ => Raise "argument after ** must be a mapping"
  end.

Fixpoint issues_of (items : list value) : outcome (list VulnerabilityIssue) :=
  match items with
  | [] => Ok []
  | v :: rest =>
      i ← issue_of v;
      l ← issues_of rest;
      Ok (i :: l)
  end.

(** [ScanResult.from_dict] *)
Definition from_dict (data : value) : outcome ScanResult :=
  match data with
  | VDict d =>
      found ← match dict_get d "issues" with
              | None => Ok []
              | Some (VList items) => issues_of items
              | Some _ => Unmodelled
              end;
      let rest := filter (λ kv, kv.1 ≠ "issues") d in
      _ ← check_keywords rest ["scan_id"; "scan_path"; "scan_type"; "timestamp";
                               "issues"; "stats"; "project_info"];
      id ← required rest "scan_id" as_str;
      path ← required rest "scan_path" as_str;
      type ← required rest "scan_type" as_str;
      time ← required rest "timestamp" as_float;
      st ← optional rest "stats" as_dict [];
      info ← optional rest "project_info" as_dict [];
      Ok {| scan_id := id; scan_path := path; scan_type := type;
            timestamp := time; issues := found; stats := st;
            project_info := info |}
  | _ => Raise "object has no attribute 'pop'"
  end.

Section Json.
(** [json.dumps(v, ensure_ascii=False, indent=2)] and [json.loads(s)]. *)
Variable json_dumps : value → string.
Variable json_loads : string → outcome value.

(** [ScanResult.to_json] *)
Definition to_json (r : ScanResult) : string := json_dumps (to_dict r).

(** [ScanResult.from_json] *)
Definition from_json (s : string) : outcome ScanResult :=
  data ← json_loads s; from_dict data.
End Json.

(** *** Paths: [os.path.join] and [pathlib.Path(p).parts] on POSIX *)

Definition os_path_join (a b : string) : string :=
  if startswith b "/" then b
  else if String.eqb a "" || endswith a "/" then a +:+ b
  else a +:+ "/" +:+ b.

Fixpoint leading_slashes (p : string) : nat :=
  match p with
  | String c p' => if Ascii.eqb c "/" then S (leading_slashes p') else 0
  | EmptyString => 0
  end.

(** The root of a path: [//] for exactly two leading slashes, [/] for one or
    for three and more. *)
Definition anchor (p : string) : list string :=
  match leading_slashes p with
  | 0 => []
  | 2 => ["//"]
  | _ => ["/"]
  end.

Definition path_parts (p : string) : list string :=
  anchor p ++ filter (λ x, x ≠ "" ∧ x ≠ ".") (split_char "/" p).

(** *** The path filter and the file collector *)

(** The [scan] section of the configuration, as the constructor reads it. *)
Record config : Type := Config {
  excluded_dirs : gset string;
  excluded_files : gset string;
  max_file_size_mb : N
}.

(** What the operating system answers about a path. *)
Record filesystem : Type := Filesystem {
  isfile : string → bool;
  getsize : string → N;
  is_binary_file : string → bool
}.

(** [CodeScanner._should_exclude_path].  The size test
    [getsize / (1024 * 1024) > max_file_size_mb] is taken on integers. *)
Definition _should_exclude_path (cfg : config) (fs : filesystem) (path : string)
  : bool :=
  let path_parts := path_parts path in
  existsb (λ excluded_dir, bool_decide (excluded_dir ∈ path_parts))
          (elements (excluded_dirs cfg))
  || existsb (λ excluded_ext, endswith path excluded_ext)
             (elements (excluded_files cfg))
  || (isfile fs path && (max_file_size_mb cfg * 1048576 <? getsize fs path)%N)
  || (isfile fs path && is_binary_file fs path).

(** A directory tree as [os.walk] lists it: the names of the entries of each
    directory, directories with their own entries. *)
Inductive entry : Type :=
| File (name : string)
| Dir (name : string) (children : list entry).

Definition file_names (children : list entry) : list string :=
  omap (λ c, match c with File name => Some name | Dir _ _ => None end) children.

(** [for root, dirs, files in os.walk(path)] with the pruning
    [dirs[:] = [d for d in dirs if d not in self.excluded_dirs]]: the files
    of a directory come first, then the kept sub-directories in turn.  [top]
    is the path of the directory [e]. *)
Fixpoint walk (cfg : config) (fs : filesystem) (top : string) (e : entry)
  : list string :=
  match e with
  | File _ => []
  | Dir _ children =>
      filter (λ file_path, _should_exclude_path cfg fs file_path = false)
             (os_path_join top <$> file_names children)
      ++ flat_map (λ c, match c with
                        | Dir d _ =>
                            if bool_decide (d ∈ excluded_dirs cfg) then []
                            else walk cfg fs (os_path_join top d) c
                        | File _ => []
                        end) children
  end.

(** [CodeScanner._collect_files]: [root] is the directory at [path]. *)
Definition _collect_files (cfg : config) (fs : filesystem) (path : string)
    (root : entry) : list string :=
  walk cfg fs path root.

(** Every file below the directory [e] at [top], with the names of the
    directories on the way down to it, whatever the configuration. *)
Fixpoint files_below (top : string) (e : entry) : list (list string * string) :=
  match e with
  | File _ => []
  | Dir _ children =>
      flat_map (λ c, match c with
                     | File name => [([], os_path_join top name)]
                     | Dir d _ =>
                         (λ dp, (d :: dp.1, dp.2)) <$> files_below (os_path_join top d) c
                     end) children
  end.

(** The names a directory listing can hold: not empty, not [.], without a
    slash. *)
Definition valid_name (name : string) : bool :=
  negb (String.eqb name "") && negb (String.eqb name ".")
  && negb (contains name "/").

Fixpoint valid_names (e : entry) : bool :=
  match e with
  | File name => valid_name name
  | Dir _ children =>
      forallb (λ c, match c with
                    | File name => valid_name name
                    | Dir d _ => valid_name d && valid_names c
                    end) children
  end.

(** *** The analysis of one file *)

(** What [_analyze_file_content] calls outside this repository's data:
    the model handler, the language table, and the [re] and [json] modules. *)
Record analysis_env : Type := AnalysisEnv {
  model_name : string;
  (** [self.model.analyze_code(prompt)] *)
  analyze_code : string → outcome string;
  (** [get_file_language(file_path)] *)
  get_file_language : string → string;
  (** [re.findall(json_pattern, analysis_result)] *)
  findall_json : string → list string;
  (** [json.loads(s)]; [None] is [JSONDecodeError] *)
  json_loads_text : string → option value;
  (** [re.compile(p, re.IGNORECASE)]; the compiled pattern is the test
      [search(s) is not None]; [Raise] is [re.error] *)
  re_compile : string → outcome (string → bool)
}.

(** The prompt of [_analyze_file_content]. *)
Definition json_line (k v : string) (comma : bool) : string :=
  "    " +:+ dq +:+ k +:+ dq +:+ ": " +:+ dq +:+ v +:+ dq
  +:+ (if comma then "," else "") +:+ "
".

Definition analysis_prompt (language file_path content : string) : string :=
  "
分析下面的" +:+ language +:+ "代码，查找安全漏洞、潜在bug和不良实践。
文件路径：" +:+ file_path +:+ "

特别注意以下几点：
1. SQL注入、XSS等常见安全漏洞
2. 不安全的依赖和API使用
3. 硬编码的秘钥和凭证
4. 未处理的错误和异常
5. 内存/资源泄漏
6. 逻辑错误
7. 代码质量问题

```
" +:+ content +:+ "
```

请按以下JSON格式返回结果：
```json
[
  {
" +:+ json_line "severity" "critical|high|medium|low|info" true
  +:+ json_line "description" "问题描述" true
  +:+ "    " +:+ dq +:+ "line_number" +:+ dq +:+ ": 42,
" +:+ json_line "code_snippet" "有问题的代码片段" true
  +:+ json_line "recommendation" "修复建议" true
  +:+ json_line "cwe_id" "CWE编号" true
  +:+ json_line "confidence" "high|medium|low" false
  +:+ "  }
]
```
如果没有发现问题，则返回空数组 []。
".

(** The first match that is not blank, else the empty string. *)
Fixpoint first_json_match (matches : list string) : string :=
  match matches with
  | [] => ""
  | m :: rest => if String.eqb (strip m) "" then first_json_match rest else m
  end.

(** The text handed to [json.loads]. *)
Definition json_text (json_str : string) : string :=
  let json_str := strip json_str in
  if startswith json_str "[" then json_str
  else match find_char "[" json_str, rfind_char "]" json_str with
       | Some start_idx, Some end_idx => slice start_idx (end_idx + 1) json_str
       | _, _ => json_str
       end.

(** One finding reported by the model. *)
Definition model_issue (file_path : string) (issue_data : value)
  : outcome VulnerabilityIssue :=
  match issue_data with
  | VDict d =>
      sev ← optional d "severity" as_str "medium";
      line ← optional d "line_number" as_opt_int None;
      snippet ← optional d "code_snippet" as_opt_str None;
      desc ← optional d "description" as_str "未提供描述";
      rec ← optional d "recommendation" as_str "";
      cwe ← optional d "cwe_id" as_opt_str None;
      conf ← optional d "confidence" as_str "medium";
      Ok {| severity := sev; file_path := file_path; line_number := line;
            code_snippet := snippet; description := desc;
            recommendation := rec; cwe_id := cwe; confidence := conf |}
  | _ => Raise "object has no attribute 'get'"
  end.

Fixpoint model_issues (file_path : string) (items : list value)
  : outcome (list VulnerabilityIssue) :=
  match items with
  | [] => Ok []
  | v :: rest =>
      i ← model_issue file_path v;
      l ← model_issues file_path rest;
      Ok (i :: l)
  end.

(** [for issue_data in issues_data] *)
Definition issues_of_data (file_path : string) (issues_data : value)
  : outcome (list VulnerabilityIssue) :=
  match issues_data with
  | VList items => model_issues file_path items
  | VDict d =>
      match d with
      | [] => Ok []
      | _ :: _ => Raise "object has no attribute 'get'"
      end
  | VStr s =>
      if String.eqb s "" then Ok [] else Raise "object has no attribute 'get'"
  | _ => Raise "object is not iterable"
  end.

(** The finding that stands for an answer that is not JSON. *)
Definition unparsed_issue (file_path : string) : VulnerabilityIssue :=
  {| severity := "info"; file_path := file_path; line_number := None;
     code_snippet := None;
     description := "模型未返回标准JSON格式，无法完成深度分析";
     recommendation := "请检查API设置并重试";
     cwe_id := None; confidence := "low" |}.

(** The index of the first line that the pattern matches. *)
Fixpoint first_line (matches : string → bool) (lines : list string) : option nat :=
  match lines with
  | [] => None
  | line :: rest =>
      if matches line then Some 0 else S <$> first_line matches rest
  end.

(** The finding of a rule that matches the content, with the line number and
    the window of two lines around the first matching line when there is
    one. *)
Definition rule_issue (file_path content : string) (matches : string → bool)
    (pattern : VulnDB.rule) : VulnerabilityIssue :=
  let lines := split_char "010" content in
  let found := first_line matches lines in
  {| severity := default "medium" (VulnDB.rule_severity pattern);
     file_path := file_path;
     line_number := (λ i, Z.of_nat (i + 1)) <$> found;
     code_snippet :=
       (λ i, join (String "010" "")
                  (take (Nat.min (length lines) (i + 3) - (i - 2))
                        (drop (i - 2) lines))) <$> found;
     description := default "发现潜在漏洞" (VulnDB.rule_description pattern);
     recommendation := default "请检查此处代码" (VulnDB.rule_recommendation pattern);
     cwe_id := None;
     confidence := "medium" |}.

(** [for pattern in relevant_patterns] *)
Fixpoint rule_issues (env : analysis_env) (file_path content : string)
    (relevant_patterns : list VulnDB.rule) : outcome (list VulnerabilityIssue) :=
  match relevant_patterns with
  | [] => Ok []
  | pattern :: rest =>
      pattern_re ← re_compile env (default "" (VulnDB.rule_pattern pattern));
      l ← rule_issues env file_path content rest;
      Ok (if (pattern_re : string → bool) content
          then rule_issue file_path content pattern_re pattern :: l
          else l)
  end.

(** The body of the [try] of [_analyze_file_content]. *)
Definition analyze_try (env : analysis_env) (file_path content prompt : string)
    (relevant_patterns : list VulnDB.rule) : outcome (list VulnerabilityIssue) :=
  analysis_result ← analyze_code env prompt;
  let json_str := first_json_match (findall_json env analysis_result) in
  let json_str := if String.eqb json_str "" then analysis_result else json_str in
  issues ← match json_loads_text env (json_text json_str) with
           | Some issues_data => issues_of_data file_path issues_data
           | None => Ok [unparsed_issue file_path]
           end;
  more ← rule_issues env file_path content relevant_patterns;
  Ok (issues ++ more).

(** The finding returned by the [except] branch. *)
Definition api_error_issue (file_path e : string) : VulnerabilityIssue :=
  {| severity := "info"; file_path := file_path; line_number := None;
     code_snippet := None;
     description := "API连接错误: " +:+ e;
     recommendation := "请在设置中检查您的API配置，确保API密钥正确且网络连接正常。";
     cwe_id := None; confidence := "high" |}.

(** [CodeScanner._analyze_file_content] *)
Definition _analyze_file_content (env : analysis_env) (vulndb : VulnDB.patterns)
    (file_path content : string) : outcome (list VulnerabilityIssue) :=
  let language := get_file_language env file_path in
  let relevant_patterns := VulnDB.get_patterns_for_language vulndb language in
  let prompt := analysis_prompt language file_path content in
  match analyze_try env file_path content prompt relevant_patterns with
  | Ok issues => Ok issues
  | Raise e => Ok [api_error_issue file_path e]
  | Unmodelled => Unmodelled
  end.

(** *** The directory scan *)

(** [os.path.basename(p)] *)
Definition basename (p : string) : string :=
  default "" (last (split_char "/" p)).

Fixpoint lstrip_dots (s : string) : string :=
  match s with
  | String c s' => if Ascii.eqb c "." then lstrip_dots s' else s
  | EmptyString => EmptyString
  end.

(** [os.path.splitext(p)[1]]: from the last dot of the base name, leading
    dots apart. *)
Definition splitext_ext (p : string) : string :=
  match reverse (split_char "." (lstrip_dots (basename p))) with
  | ext :: _ :: _ => "." +:+ ext
  | _ => ""
  end.

(** [d[k] = d.get(k, 0) + 1] on a dictionary in insertion order. *)
Fixpoint count_key (d : list (string * Z)) (k : string) : list (string * Z) :=
  match d with
  | [] => [(k, 1%Z)]
  | (k', n) :: rest =>
      if String.eqb k' k then (k', (n + 1)%Z) :: rest
      else (k', n) :: count_key rest k
  end.

Definition counts_value (d : list (string * Z)) : value :=
  VDict ((λ kn, (kn.1, VInt kn.2)) <$> d).

(** What [scan_directory] gets from outside: the file system, the clock, the
    collector, the workers and the project analysis. *)
Record scan_env : Type := ScanEnv {
  (** [os.path.isdir(dir_path)] *)
  isdir : bool;
  (** [int(time.time())] and [time.time()] *)
  clock : Z;
  now : Z * Z;
  (** [self._collect_files(dir_path)] *)
  collected : outcome (list string);
  (** [future.result()] of the worker that ran [self.scan_file(file_path)] *)
  scan_file : string → outcome ScanResult;
  (** the order in which [as_completed] yields the futures: at each step the
      index, modulo the number of pending futures, of the next one *)
  schedule : list nat;
  (** [self._generate_project_info(dir_path, stats)] *)
  generate_project_info : dict → outcome dict
}.

(** [as_completed(future_to_file)]: every pending future is yielded once, in
    the order the schedule picks. *)
Fixpoint as_completed (fuel : nat) (schedule : list nat) (pending : list string)
  : list string :=
  match fuel with
  | 0 => []
  | S fuel =>
      match pending !! (hd 0 schedule `mod` length pending) with
      | Some file_path =>
          file_path
          :: as_completed fuel (tl schedule)
               (delete (hd 0 schedule `mod` length pending) pending)
      | None => []
      end
  end.

(** The variables the loop over the completed futures updates.  [typed]
    turns false when a worker's statistics leave the typed model. *)
Record tally : Type := Tally {
  found : list VulnerabilityIssue;
  total_lines : Z;
  languages : list (string * Z);
  file_counts : list (string * Z);
  typed : bool
}.

Definition add_lines (n : Z) (t : tally) : tally :=
  {| found := found t; total_lines := total_lines t + n;
     languages := languages t; file_counts := file_counts t; typed := typed t |}.

Definition add_language (lang : string) (t : tally) : tally :=
  {| found := found t; total_lines := total_lines t;
     languages := count_key (languages t) lang;
     file_counts := file_counts t; typed := typed t |}.

Definition add_extension (ext : string) (t : tally) : tally :=
  {| found := found t; total_lines := total_lines t;
     languages := languages t;
     file_counts := count_key (file_counts t) ext; typed := typed t |}.

Definition add_issues (l : list VulnerabilityIssue) (t : tally) : tally :=
  {| found := found t ++ l; total_lines := total_lines t;
     languages := languages t; file_counts := file_counts t; typed := typed t |}.

Definition untyped (t : tally) : tally :=
  {| found := found t; total_lines := total_lines t;
     languages := languages t; file_counts := file_counts t; typed := false |}.

(** The [try] in the loop body: the findings are merged first; a
    [TypeError] on the statistics ends the update of this file. *)
Definition merge_result (file_path : string) (res : outcome ScanResult) (t : tally)
  : tally :=
  match res with
  | Raise _ => t
  | Unmodelled => untyped t
  | Ok result =>
      let t := add_issues (issues result) t in
      let after_lines :=
        match dict_get (stats result) "lines_of_code" with
        | None => Some t
        | Some (VInt n) => Some (add_lines n t)
        | Some (VBool b) => Some (add_lines (if b then 1 else 0) t)
        | Some (VFloat _ _) => Some (untyped t)
        | Some _ => None
        end in
      match after_lines with
      | None => t
      | Some t =>
          let after_language :=
            match dict_get (stats result) "language" with
            | None => Some t
            | Some (VStr lang) => Some (add_language lang t)
            | Some (VList _) | Some (VDict _) => None
            | Some _ => Some (untyped t)
            end in
          match after_language with
          | None => t
          | Some t => add_extension (lower (splitext_ext file_path)) t
          end
      end
  end.

Definition error_stats (e : string) : dict := [("error", VStr e)].

Section ScanDirectory.
(** The world the scan acts on: what the progress callback and the thread
    pool do is threaded through the scan as a state [W]. *)
Context {W : Type}.
Variable progress_callback : option (string → Z → W → W).
(** [executor.submit(self.scan_file, file_path)] *)
Variable executor_submit : string → W → W.
Variable env : scan_env.

(** [if progress_callback: progress_callback(message, percent)] *)
Definition notify (message : string) (percent : Z) (w : W) : W :=
  match progress_callback with
  | Some callback => callback message percent w
  | None => w
  end.

(** [for future in as_completed(future_to_file)].  The percentage
    [10 + int(70.0 * completed_files / total_files)] is taken on integers. *)
Fixpoint scan_loop (total_files : nat) (completed_files : nat)
    (done : list string) (t : tally) (w : W) : tally * W :=
  match done with
  | [] => (t, w)
  | file_path :: rest =>
      let t := merge_result file_path (scan_file env file_path) t in
      let completed_files := completed_files + 1 in
      let w :=
        if 0 <? total_files then
          notify ("正在扫描(" +:+ pretty completed_files +:+ "/"
                  +:+ pretty total_files +:+ "): " +:+ basename file_path)
                 (10 + (70 * Z.of_nat completed_files) `div` Z.of_nat total_files)%Z
                 w
        else w in
      scan_loop total_files completed_files rest t w
  end.

(** The [except] branch of [scan_directory]. *)
Definition scan_failed (scan_result : ScanResult) (e : string) (w : W)
  : outcome ScanResult * W :=
  (Ok {| scan_id := scan_id scan_result; scan_path := scan_path scan_result;
         scan_type := scan_type scan_result; timestamp := timestamp scan_result;
         issues := issues scan_result; stats := error_stats e;
         project_info := project_info scan_result |},
   notify ("扫描出错: " +:+ e) 100 w).

(** [CodeScanner.scan_directory]: the returned result (or the
    [ValueError] raised for a path that is no directory) and the world
    after the scan. *)
Definition scan_directory (dir_path : string) (w : W) : outcome ScanResult * W :=
  if negb (isdir env) then (Raise ("目录不存在: " +:+ dir_path), w) else
  let scan_result :=
    {| scan_id := "dir_" +:+ pretty (clock env); scan_path := dir_path;
       scan_type := "directory"; timestamp := now env;
       issues := []; stats := []; project_info := [] |} in
  let w := notify "正在收集文件..." 5 w in
  match collected env with
  | Raise e => scan_failed scan_result e w
  | Unmodelled => (Unmodelled, w)
  | Ok files_to_scan =>
      let w := notify ("找到 " +:+ pretty (length files_to_scan)
                       +:+ " 个文件需要扫描") 10 w in
      match files_to_scan with
      | [] =>
          (Ok {| scan_id := scan_id scan_result; scan_path := dir_path;
                 scan_type := "directory"; timestamp := now env;
                 issues := []; stats := error_stats "没有找到可扫描的文件";
                 project_info := [] |},
           notify "没有找到可扫描的文件" 100 w)
      | _ :: _ =>
          let total_files := length files_to_scan in
          let w := foldl (λ w file_path, executor_submit file_path w) w files_to_scan in
          let '(t, w) :=
            scan_loop total_files 0
              (as_completed total_files (schedule env) files_to_scan)
              {| found := []; total_lines := 0; languages := [];
                 file_counts := []; typed := true |} w in
          let w := notify "正在生成项目统计信息..." 85 w in
          let stats :=
            [("total_files", VInt (Z.of_nat total_files));
             ("total_lines_of_code", VInt (total_lines t));
             ("languages", counts_value (languages t));
             ("file_extensions", counts_value (file_counts t))] in
          let scan_result :=
            {| scan_id := scan_id scan_result; scan_path := dir_path;
               scan_type := "directory"; timestamp := now env;
               issues := found t; stats := stats; project_info := [] |} in
          let w := notify "正在进行项目分析..." 90 w in
          match generate_project_info env stats with
          | Raise e =>
              let '(r, w) := scan_failed scan_result e w in
              (if typed t then r else Unmodelled, w)
          | Unmodelled => (Unmodelled, w)
          | Ok info =>
              (if typed t then
                 Ok {| scan_id := scan_id scan_result; scan_path := dir_path;
                       scan_type := "directory"; timestamp := now env;
                       issues := found t; stats := stats; project_info := info |}
               else Unmodelled,
               notify "扫描完成，正在生成报告..." 95 w)
          end
      end
  end.
End ScanDirectory.

(** The progress callback that records its calls, latest first. *)
Definition record_progress (message : string) (percent : Z)
    (log : list (string * Z)) : list (string * Z) :=
  (message, percent) :: log.

(** A log, latest call first, whose percents never decrease over time and
    stay at or below [hi]. *)
Fixpoint log_ok (hi : Z) (log : list (string * Z)) : Prop :=
  match log with
  | [] => True
  | (_, percent) :: earlier => (percent ≤ hi)%Z ∧ log_ok percent earlier
  end.

(** The percent values passed to the progress callback during one scan, in
    the order of the calls. *)
Definition progress_percents (env : scan_env) (dir_path : string) : list Z :=
  reverse (snd <$> (scan_directory (Some record_progress) (λ _ log, log)
                                   env dir_path []).2).

(** A model handler whose call times out, with a working [json] and [re]
    stand-in that is never reached. *)
Definition timeout_env : analysis_env :=
  {| model_name := "default";
     analyze_code := λ _, Raise "Request timed out.";
     get_file_language := λ _, "python";
     findall_json := λ _, [];
     json_loads_text := λ _, None;
     re_compile := λ p, Ok (λ s, contains (lower s) (lower p)) |}.

(** A scan result with one finding of a severity outside the five named
    levels. *)
Definition sample_result : ScanResult :=
  {| scan_id := "dir_1700000000"; scan_path := "/proj";
     scan_type := "directory"; timestamp := (7301444403, -2)%Z;
     issues := [ {| severity := "blocker"; file_path := "/proj/a.py";
                    line_number := Some 3%Z; code_snippet := Some "os.system(cmd)";
                    description := "command injection"; recommendation := "";
                    cwe_id := None; confidence := "medium" |} ];
     stats := [("total_files", VInt 1); ("total_lines_of_code", VInt 5);
               ("languages", VDict [("python", VInt 1)]);
               ("file_extensions", VDict [(".py", VInt 1)])];
     project_info := [] |}.

(** A project tree with a dependency directory, and a configuration that
    excludes it. *)
Definition project_tree : entry :=
  Dir "proj"
    [File "a.py";
     Dir "node_modules" [File "x.js"; Dir "lib" [File "y.js"]];
     Dir "src" [File "b.py"; File "logo.png"]].

Definition project_config : config :=
  {| excluded_dirs := {[ "node_modules"; ".git" ]};
     excluded_files := {[ ".png" ]};
     max_file_size_mb := 10 |}.

Definition plain_files : filesystem :=
  {| isfile := λ _, true; getsize := λ _, 1000%N; is_binary_file := λ _, false |}.

End Scanner.

(** ** gui.py: the scan thread *)

Module Gui.
Import Scanner.

(** The signals of [ScanThread]. *)
Inductive signal : Type :=
| scan_progress (message : string) (percentage : Z)
| scan_complete (result : outcome ScanResult)
| scan_error (message : string).

(** What the thread does, as seen from outside: it reads the interruption
    flag, emits a signal, hands a file to the thread pool, or is busy in a
    call that can take long (the scanner at work, a clone, a clean-up). *)
Inductive action : Type :=
| Check (interrupted : bool)
| Emit (s : signal)
| Submit (file_path : string)
| Work (call : string).

(** The thread: its actions so far, latest first, and [self.result]
    ([Some Unmodelled] is a result outside the typed model). *)
Record thread : Type := Thread {
  trace : list action;
  result : option (outcome ScanResult)
}.

(** What [run] gets from outside. *)
Record run_env : Type := RunEnv {
  (** [CodeScanner(model_name=self.model_name)] *)
  scanner_init : outcome unit;
  (** [scanner.scan_file(self.path)] *)
  file_scan : outcome ScanResult;
  (** the environment of [scanner.scan_directory] *)
  dir_scan : scan_env;
  (** [git.Repo.clone_from(self.path, temp_dir)] *)
  clone : outcome unit;
  (** [30 + int(percentage * 0.65)], computed on floats *)
  adjust_percentage : Z → Z
}.

Section Run.
(** [flag n] is what [isInterruptionRequested()] answers when the thread
    has done [n] actions. *)
Variable flag : nat → bool.
Variable env : run_env.

Definition act (a : action) (st : thread) : thread :=
  {| trace := a :: trace st; result := result st |}.

Definition set_result (r : outcome ScanResult) (st : thread) : thread :=
  {| trace := trace st; result := Some r |}.

(** [self.isInterruptionRequested()] *)
Definition isInterruptionRequested (st : thread) : bool * thread :=
  let interrupted := flag (length (trace st)) in
  (interrupted, act (Check interrupted) st).

Definition emit (s : signal) (st : thread) : thread := act (Emit s) st.

(** The callback [progress_update] of the directory branch. *)
Definition progress_update (message : string) (percentage : Z) (st : thread)
  : thread :=
  let '(interrupted, st) := isInterruptionRequested st in
  if interrupted then st else emit (scan_progress message percentage) st.

(** The callback [progress_update] of the repository branch. *)
Definition progress_update_adjusted (message : string) (percentage : Z)
    (st : thread) : thread :=
  let '(interrupted, st) := isInterruptionRequested st in
  if interrupted then st
  else emit (scan_progress message (adjust_percentage env percentage)) st.

(** [scanner.scan_directory(path, progress_callback=callback)], run inside
    the thread: between two calls of the callback the thread is busy in the
    scanner. *)
Definition run_scan_directory (callback : string → Z → thread → thread)
    (path : string) (st : thread) : outcome ScanResult * thread :=
  scan_directory
    (Some (λ message percent st, callback message percent (act (Work "scan_directory") st)))
    (λ file_path st, act (Submit file_path) st)
    (dir_scan env) path st.

(** The handler [except Exception as e]. *)
Definition on_error (e : string) (st : thread) : thread :=
  let '(interrupted, st) := isInterruptionRequested st in
  if interrupted then st else emit (scan_error e) st.

(** The end of the [try] block, after the branches. *)
Definition finish (st : thread) : thread :=
  let '(interrupted, st) := isInterruptionRequested st in
  if interrupted then st else
  match result st with
  | None => on_error "扫描没有返回有效结果" st
  | Some r =>
      emit (scan_complete r)
           (emit (scan_progress "扫描完成，正在生成最终报告..." 98) st)
  end.

Definition file_branch (path : string) (st : thread) : thread :=
  let st := emit (scan_progress ("正在扫描文件: " +:+ path) 0) st in
  let st := act (Work "scan_file") st in
  match file_scan env with
  | Raise e => on_error e st
  | r =>
      let st := set_result r st in
      finish (emit (scan_progress "文件扫描完成" 90) st)
  end.

Definition dir_branch (path : string) (st : thread) : thread :=
  let st := emit (scan_progress ("正在准备扫描目录: " +:+ path) 0) st in
  let '(r, st) := run_scan_directory progress_update path st in
  match r with
  | Raise e => on_error e st
  | r =>
      let st := set_result r st in
      let '(interrupted, st) := isInterruptionRequested st in
      if interrupted then st else finish st
  end.

Definition github_branch (path : string) (st : thread) : thread :=
  let st := emit (scan_progress ("正在克隆仓库: " +:+ path) 10) st in
  let st := act (Work "clone_from") st in
  match clone env with
  | Raise e => on_error e (act (Work "rmtree") st)
  | _ =>
      let '(interrupted, st) := isInterruptionRequested st in
      if interrupted then act (Work "rmtree") st else
      let st := emit (scan_progress "正在扫描仓库内容" 30) st in
      let '(r, st) := run_scan_directory progress_update_adjusted "temp_dir" st in
      let st := act (Work "rmtree") st in
      match r with
      | Raise e => on_error e st
      | r => finish (set_result r st)
      end
  end.

Definition is_file_scan (scan_type_lower : string) : bool :=
  contains scan_type_lower "file" || contains scan_type_lower "文件".

Definition is_dir_scan (scan_type_lower : string) : bool :=
  contains scan_type_lower "dir" || contains scan_type_lower "目录".

(** [ScanThread.run] *)
Definition run (scan_type path : string) : thread :=
  let st := {| trace := [Work "CodeScanner"]; result := None |} in
  match scanner_init env with
  | Raise e => on_error e st
  | _ =>
      let scan_type_lower := lower scan_type in
      let '(interrupted, st) := isInterruptionRequested st in
      if interrupted then st
      else if is_file_scan scan_type_lower then file_branch path st
      else if is_dir_scan scan_type_lower then dir_branch path st
      else if contains scan_type_lower "github" then github_branch path st
      else on_error ("不支持的扫描类型: " +:+ scan_type) st
  end.
End Run.

(** The actions of a run in the order they happened. *)
Definition history (st : thread) : list action := reverse (trace st).

Definition is_emit (a : action) : bool :=
  match a with Emit _ => true | _ => false end.

Definition is_submit (a : action) : bool :=
  match a with Submit _ => true | _ => false end.

(** Every signal is emitted right after a reading of the flag that found it
    unset, with nothing but other emissions in between.  [armed] tells that
    the last reading found the flag unset and that the thread has not been
    busy since. *)
Fixpoint guarded (armed : bool) (h : list action) : bool :=
  match h with
  | [] => true
  | Check interrupted :: h => guarded (negb interrupted) h
  | Emit _ :: h => armed && guarded armed h
  | Submit _ :: h => guarded false h
  | Work _ :: h => guarded false h
  end.

(** Once a reading found the flag set, no signal is emitted. *)
Definition quiet_after_flag (h : list action) : Prop :=
  ∀ before after a, h = before ++ Check true :: after → a ∈ after → is_emit a = false.

(** Once a reading found the flag set, no signal is emitted and no file is
    handed to the thread pool. *)
Definition idle_after_flag (h : list action) : Prop :=
  ∀ before after a, h = before ++ Check true :: after → a ∈ after →
    is_emit a = false ∧ is_submit a = false.

(** The files handed to the thread pool, in order. *)
Definition submitted (h : list action) : list string :=
  omap (λ a, match a with Submit f => Some f | _ => None end) h.

(** The state of the guard after a history: [guarded] passes it along. *)
Fixpoint armed_after (a : bool) (h : list action) : bool :=
  match h with
  | [] => a
  | Check interrupted :: h => armed_after (negb interrupted) h
  | Emit _ :: h => armed_after a h
  | _ :: h => armed_after false h
  end.

(** The same on a trace, latest action first: the last reading of the flag
    found it unset and only emissions followed. *)
Fixpoint armed (tr : list action) : bool :=
  match tr with
  | Check interrupted :: _ => negb interrupted
  | Emit _ :: earlier => armed earlier
  | _ => false
  end.

(** A trace in which every reading reports the flag as it is at that time
    and every emission happens while armed. *)
Fixpoint wf (flag : nat → bool) (tr : list action) : Prop :=
  match tr with
  | [] => True
  | Check interrupted :: earlier =>
      interrupted = flag (length earlier) ∧ wf flag earlier
  | Emit _ :: earlier => armed earlier = true ∧ wf flag earlier
  | _ :: earlier => wf flag earlier
  end.

(** What a run leaves behind besides its signals: [self.result] and the files
    handed to the thread pool. *)
Definition observed (st : thread) : option (outcome ScanResult) * list string :=
  (result st, submitted (history st)).

(** What [scan_directory] returns, and the files it hands to the thread
    pool: neither depends on the callback. *)
Definition scan_outcome (env : scan_env) (dir_path : string) : outcome ScanResult :=
  (scan_directory None (λ _ (w : unit), w) env dir_path ()).1.

Definition files_submitted (env : scan_env) : list string :=
  if isdir env then
    match collected env with
    | Ok files_to_scan => files_to_scan
    | _ => []
    end
  else [].

(** The flag stays set once it is set. *)
Definition sticky (flag : nat → bool) : Prop :=
  ∀ n m, n ≤ m → flag n = true → flag m = true.

(** A directory with two files whose workers both answer, and a flag that is
    set while the files are collected. *)
Definition clean_result (file_path : string) : ScanResult :=
  {| scan_id := "file_0"; scan_path := file_path; scan_type := "file";
     timestamp := (0, 0)%Z; issues := [];
     stats := [("lines_of_code", VInt 10); ("language", VStr "python")];
     project_info := [] |}.

Definition two_files : scan_env :=
  {| isdir := true; clock := 0; now := (0, 0)%Z;
     collected := Ok ["/proj/a.py"; "/proj/b.py"];
     scan_file := λ f, Ok (clean_result f);
     schedule := [1; 0];
     generate_project_info := λ _, Ok [] |}.

Definition two_files_run : run_env :=
  {| scanner_init := Ok (); file_scan := Raise "文件不存在";
     dir_scan := two_files; clone := Ok ();
     adjust_percentage := λ p, (30 + (p * 65) `div` 100)%Z |}.

Definition set_from (t : nat) : nat → bool := λ n, t <=? n.

End Gui.

(** ** The texts on which the byte-wise string functions are exact *)

Module Text.

(** [s.isascii()]: every character of the [str] is an ASCII character, so
    that its encoding has one byte per character.  On such a text
    [Py.lower] is [str.lower()], a slice by bytes is the slice by
    characters, and the case-insensitive search of [Re] is that of [re]. *)
Fixpoint isascii (s : string) : bool :=
  match s with
  | EmptyString => true
  | String c s' => (N_of_ascii c <? 128)%N && isascii s'
  end.

End Text.

(** ** cli.py: what the commands report *)

Module Cli.

(** [sum(len(rules) for rules in vulndb.patterns.values())]: the number of
    stored rules that [import_rule] and [import_github_rules] log. *)
Definition total_rules (pats : VulnDB.patterns) : nat :=
  map_fold (λ _ rules acc, length rules + acc) 0 pats.

(** A batch with distinct, non-empty ids in each language: one rule updates a
    stored rule, two are new. *)
Definition fresh_batch : list (string * list VulnDB.rule) :=
  [("python", [VulnDB.rule_a_y; VulnDB.rule_dup_a]); ("go", [VulnDB.rule_0003])].

End Cli.

(** ** utils.py: languages and extensions *)

Module Utils.

(** [FILE_EXTENSIONS] *)
Definition FILE_EXTENSIONS : list (string * string) :=
  [(".py", "python"); (".js", "javascript"); (".ts", "typescript");
   (".jsx", "javascript"); (".tsx", "typescript"); (".java", "java");
   (".c", "c"); (".cpp", "c++"); (".cs", "c#"); (".go", "golang");
   (".rs", "rust"); (".php", "php"); (".rb", "ruby"); (".swift", "swift");
   (".kt", "kotlin"); (".scala", "scala"); (".m", "objective-c"); (".h", "c");
   (".sh", "bash"); (".bat", "batch"); (".ps1", "powershell"); (".sql", "sql");
   (".html", "html"); (".css", "css"); (".scss", "scss"); (".less", "less");
   (".xml", "xml"); (".json", "json"); (".yaml", "yaml"); (".yml", "yaml");
   (".md", "markdown"); (".tex", "latex"); (".r", "r"); (".dart", "dart");
   (".lua", "lua"); (".pl", "perl"); (".groovy", "groovy");
   (".vb", "visual basic")].

(** [get_file_language]: [file_path.lower()] is [Py.lower], which is
    [str.lower()] on a path of ASCII characters ([Text.isascii]). *)
Definition get_file_language (file_path : string) : string :=
  let ext := Scanner.splitext_ext (lower file_path) in
  default "unknown" (dict_get FILE_EXTENSIONS ext).

(** The body of the loop of [get_file_extension_stats]. *)
Definition count_extension (extension_counts : gmap string nat) (file_path : string)
  : gmap string nat :=
  let ext := Scanner.splitext_ext (lower file_path) in
  if String.eqb ext "" then extension_counts
  else <[ext := default 0 (extension_counts !! ext) + 1]> extension_counts.

(** [get_file_extension_stats] *)
Definition get_file_extension_stats (file_list : list string) : gmap string nat :=
  foldl count_extension ∅ file_list.

(** The files of a list whose lower-cased path has the extension [ext]. *)
Definition with_extension (ext : string) (file_list : list string) : list string :=
  filter (λ file_path, Scanner.splitext_ext (lower file_path) = ext) file_list.

End Utils.

(** ** config.py: the configuration *)

Module Config.

Abbreviation dict := (list (string * value)).

(** [d[k] = v] on a dictionary in insertion order: a present key keeps its
    place. *)
Fixpoint dict_set (d : dict) (k : string) (v : value) : dict :=
  match d with
  | [] => [(k, v)]
  | (k', x) :: rest =>
      if String.eqb k' k then (k', v) :: rest else (k', x) :: dict_set rest k v
  end.

(** [k in v] for a string [k]: a key of a mapping, an element of a sequence,
    a substring of a string; [TypeError] on the other values. *)
Definition value_has (v : value) (k : string) : outcome bool :=
  match v with
  | VDict d => Ok (dict_has d k)
  | VList l => Ok (existsb (λ x, match x with VStr s => String.eqb s k | _ => false end) l)
  | VStr s => Ok (contains s k)
  | _ => Raise "argument is not iterable"
  end.

(** [v[k]] for a string [k]: [None] is [KeyError]. *)
Definition value_item (v : value) (k : string) : outcome (option value) :=
  match v with
  | VDict d => Ok (dict_get d k)
  | VList _ => Raise "list indices must be integers or slices, not str"
  | VStr _ => Raise "string indices must be integers"
  | _ => Raise "object is not subscriptable"
  end.

(** [v[k] = x] for a string [k]. *)
Definition value_set_item (v : value) (k : string) (x : value) : outcome value :=
  match v with
  | VDict d => Ok (VDict (dict_set d k x))
  | VList _ => Raise "list indices must be integers or slices, not str"
  | _ => Raise "object does not support item assignment"
  end.

(** [DEFAULT_CONFIG] *)
Definition DEFAULT_CONFIG : dict :=
  [("models", VDict
      [("default", VDict [("provider", VStr "deepseek"); ("model", VStr "deepseek-chat");
                          ("api_key", VStr ""); ("base_url", VStr "https://api.deepseek.com");
                          ("max_tokens", VInt 8192)]);
       ("deepseek", VDict [("provider", VStr "deepseek"); ("model", VStr "deepseek-chat");
                           ("api_key", VStr ""); ("base_url", VStr "https://api.deepseek.com");
                           ("max_tokens", VInt 8192)]);
       ("openai", VDict [("provider", VStr "openai"); ("model", VStr "gpt-3.5-turbo");
                         ("api_key", VStr ""); ("max_tokens", VInt 8192)]);
       ("anthropic", VDict [("provider", VStr "anthropic");
                            ("model", VStr "claude-3-opus-20240229");
                            ("api_key", VStr ""); ("max_tokens", VInt 8192)])]);
   ("scan", VDict
      [("excluded_dirs", VList [VStr "node_modules"; VStr "venv"; VStr "__pycache__";
                                VStr ".git"]);
       ("excluded_files", VList [VStr ".jpg"; VStr ".png"; VStr ".gif"; VStr ".mp4";
                                 VStr ".zip"; VStr ".tar.gz"]);
       ("max_file_size_mb", VInt 10);
       ("timeout_seconds", VInt 60)]);
   ("vulndb", VDict
      [("update_url", VStr "https://example.com/vulndb/latest.json");
       ("auto_update", VBool true);
       ("update_interval_days", VInt 7)]);
   ("output", VDict
      [("format", VStr "html");
       ("detail_level", VStr "medium");
       ("default_output_dir", VStr "~/codescan_reports")])].

(** [Config.get]: only [KeyError] is caught. *)
Definition get (config : dict) (section key : string) (default : value)
  : outcome value :=
  match dict_get config section with
  | None => Ok default
  | Some sec =>
      item ← value_item sec key;
      Ok (from_option id default item)
  end.

(** [Config.set]: the new [self.config].  Writing the file does not change
    it and is left out. *)
Definition set (config : dict) (section key : string) (v : value) : outcome dict :=
  let config :=
    if dict_has config section then config else dict_set config section (VDict []) in
  match dict_get config section with
  | Some sec =>
      sec ← value_set_item sec key v;
      Ok (dict_set config section sec)
  | None => Raise section
  end.

(** [d.get(k, dflt)] where [d] is expected to be a mapping:
    [AttributeError] on the other values. *)
Definition value_get (v : value) (k : string) (dflt : value) : outcome value :=
  match v with
  | VDict d => Ok (from_option id dflt (dict_get d k))
  | _ => Raise "object has no attribute 'get'"
  end.

(** [Config.get_model_config]: the default argument
    [models.get('default', {})] is evaluated before the outer [get]. *)
Definition get_model_config (config : dict) (model_name : string) : outcome value :=
  let models := from_option id (VDict []) (dict_get config "models") in
  fallback ← value_get models "default" (VDict []);
  value_get models model_name fallback.

(** [Config.add_model_config] *)
Definition add_model_config (config : dict) (name provider model api_key : string)
    (max_tokens : Z) : outcome dict :=
  let config :=
    if dict_has config "models" then config else dict_set config "models" (VDict []) in
  match dict_get config "models" with
  | Some models =>
      models ← value_set_item models name
                 (VDict [("provider", VStr provider); ("model", VStr model);
                         ("api_key", VStr api_key); ("max_tokens", VInt max_tokens)]);
      Ok (dict_set config "models" models)
  | None => Raise "models"
  end.

(** The inner loop of [_load_config]: the keys of one default section. *)
Fixpoint fill_keys (sec : value) (values : dict) : outcome value :=
  match values with
  | [] => Ok sec
  | (key, v) :: rest =>
      present ← value_has sec key;
      sec ← (if (present : bool) then Ok sec else value_set_item sec key v);
      fill_keys sec rest
  end.

(** The outer loop of [_load_config]: the default sections in turn.  The
    values of [DEFAULT_CONFIG] are mappings, [values.items()] lists them. *)
Fixpoint fill_sections (config : dict) (defaults : dict) : outcome dict :=
  match defaults with
  | [] => Ok config
  | (section, values) :: rest =>
      let config :=
        if dict_has config section then config else dict_set config section (VDict []) in
      match dict_get config section, values with
      | Some sec, VDict values =>
          sec ← fill_keys sec values;
          fill_sections (dict_set config section sec) rest
      | _, _ => Raise section
      end
  end.

(** [Config._load_config]: [loaded] is what reading and parsing the
    configuration file gave, after the default file was written when there
    was none.  Every exception ends in [self.config = DEFAULT_CONFIG.copy()]. *)
Definition _load_config (loaded : outcome value) : dict :=
  match loaded with
  | Ok (VDict config) =>
      match fill_sections config DEFAULT_CONFIG with
      | Ok config => config
      | _ => DEFAULT_CONFIG
      end
  | _ => DEFAULT_CONFIG
  end.

(** The value a configuration holds for a key of a section that is a
    mapping. *)
Definition doc_value (config : dict) (section key : string) : option value :=
  match dict_get config section with
  | Some (VDict d) => dict_get d key
  | _ => None
  end.

(** Every section of the document is a mapping. *)
Definition sections_are_mappings (config : dict) : Prop :=
  ∀ section sec, dict_get config section = Some sec → ∃ d, sec = VDict d.

(** A configuration file that sets one model and one scan option and leaves
    the rest out. *)
Definition partial_config : dict :=
  [("scan", VDict [("max_file_size_mb", VInt 2)]);
   ("models", VDict [("local", VDict [("provider", VStr "custom")])])].

End Config.

(** ** scanner.py: the scan of one file and the project information *)

Module FileScan.
Import Scanner.

(** What the model's answer is read as, in [_generate_file_info] and in
    [_generate_project_info]: a document, a text that is not JSON
    ([JSONDecodeError]), or nothing at all: the variable that should hold
    the document was never bound ([UnboundLocalError]). *)
Inductive answer : Type :=
| Parsed (document : value)
| NotJson
| Unbound.

(** The calls that leave this repository: the model handler, [json.loads]
    ([None] is [JSONDecodeError]), [re.search(json_pattern, text)] with the
    two groups of the match, and the text of the prompts. *)
Record info_env : Type := InfoEnv {
  analyze : string → outcome string;
  loads : string → option value;
  search_json : string → option (list (option string));
  file_prompt : string → string → dict → string;
  project_prompt : string → dict → string → dict → string;
  (** the searches of the text fallback of [_generate_project_info]: the
      project type, the main functionality, the components and the
      architecture, each stripped *)
  search_type : string → option string;
  search_functionality : string → option string;
  search_components : string → option (list string);
  search_architecture : string → option string
}.

(** [for group in matches.groups(): if group: ... break] *)
Fixpoint first_group (groups : list (option string)) : option string :=
  match groups with
  | [] => None
  | group :: rest => if truthy group then group else first_group rest
  end.

(** The document of an answer: the answer itself, else the first non-empty
    group of the pattern, stripped. *)
Definition parse_answer (env : info_env) (analysis_result : string) : answer :=
  match loads env analysis_result with
  | Some document => Parsed document
  | None =>
      match search_json env analysis_result with
      | None => NotJson
      | Some groups =>
          match first_group groups with
          | Some group =>
              match loads env (strip group) with
              | Some document => Parsed document
              | None => NotJson
              end
          | None => Unbound
          end
      end
  end.

(** [document[k]]: [KeyError] as an exception. *)
Definition item (document : value) (k : string) : outcome value :=
  found ← Config.value_item document k;
  match found with
  | Some v => Ok v
  | None => Raise k
  end.

(** [stats.get("language", "Unknown")] as it is formatted into a string. *)
Definition language_of (stats : dict) : outcome string :=
  match dict_get stats "language" with
  | None => Ok "Unknown"
  | Some (VStr s) => Ok s
  | Some _ => Unmodelled
  end.

(** The three dictionaries [_generate_file_info] can return. *)
Definition file_info_unavailable (language file_name : string) (stats : dict) : dict :=
  [("project_type", VStr (language +:+ "文件"));
   ("main_functionality", VStr file_name);
   ("components", VList []);
   ("architecture", VStr "未能分析");
   ("use_cases", VList []);
   ("stats", VDict stats)].

Definition file_info_text (language file_name : string) (stats : dict)
    (analysis_result : string) : dict :=
  [("project_type", VStr (language +:+ "文件"));
   ("main_functionality", VStr (file_name +:+ " - 未能自动分析"));
   ("components", VList []);
   ("architecture", VStr "单文件分析");
   ("use_cases", VList []);
   ("stats", VDict stats);
   ("analysis_text", VStr analysis_result)].

Definition file_info_fields : dict :=
  [("file_purpose", VStr "未分析"); ("main_components", VList []);
   ("possible_role", VStr "未分析"); ("code_quality", VStr "未分析");
   ("suggested_improvements", VList [])].

Definition file_info_result (language : string) (stats : dict) (file_info : value)
  : outcome dict :=
  file_info ← Config.fill_keys file_info file_info_fields;
  purpose ← item file_info "file_purpose";
  components ← item file_info "main_components";
  role ← item file_info "possible_role";
  quality ← item file_info "code_quality";
  improvements ← item file_info "suggested_improvements";
  Ok [("project_type", VStr (language +:+ "文件"));
      ("main_functionality", purpose);
      ("components", components);
      ("architecture", role);
      ("use_cases", VList []);
      ("file_analysis", VDict [("code_quality", quality);
                               ("suggested_improvements", improvements)]);
      ("stats", VDict stats)].

(** [CodeScanner._generate_file_info] *)
Definition _generate_file_info (env : info_env) (file_path content : string)
    (stats : dict) : outcome dict :=
  language ← language_of stats;
  let file_name := basename file_path in
  match analyze env (file_prompt env file_path content stats) with
  | Ok analysis_result =>
      match parse_answer env analysis_result with
      | Parsed file_info =>
          match file_info_result language stats file_info with
          | Ok result => Ok result
          | Raise _ => Ok (file_info_unavailable language file_name stats)
          | Unmodelled => Unmodelled
          end
      | NotJson => Ok (file_info_text language file_name stats analysis_result)
      | Unbound => Ok (file_info_unavailable language file_name stats)
      end
  | Raise _ => Ok (file_info_unavailable language file_name stats)
  | Unmodelled => Unmodelled
  end.

(** What [scan_file] needs besides: the path filter, the clock, the file
    system and the rule engine.  [count_lines] is the function of [utils],
    which returns 0 when it cannot read; [extract_file_info] is the function
    of [utils], made of regular-expression searches. *)
Record file_env : Type := FileEnv {
  cfg : config;
  fs : filesystem;
  clock : Z;
  now : Z * Z;
  read_text : string → outcome string;
  analysis : analysis_env;
  vulndb : VulnDB.patterns;
  count_lines : string → Z;
  extract_file_info : string → string → dict;
  info : info_env
}.

(** The analysis environment of the scanner: its language function is
    [utils.get_file_language]. *)
Definition analysis_of (env : file_env) : analysis_env :=
  {| model_name := model_name (analysis env);
     analyze_code := analyze_code (analysis env);
     get_file_language := Utils.get_file_language;
     findall_json := findall_json (analysis env);
     json_loads_text := json_loads_text (analysis env);
     re_compile := re_compile (analysis env) |}.

(** The body of the [try] of [scan_file]. *)
Definition scan_file_try (env : file_env) (file_path : string) : outcome ScanResult :=
  content ← read_text env file_path;
  issues ← _analyze_file_content (analysis_of env) (vulndb env) file_path content;
  let stats :=
    [("lines_of_code", VInt (count_lines env file_path));
     ("language", VStr (Utils.get_file_language file_path));
     ("file_size_bytes", VInt (Z.of_N (getsize (fs env) file_path)))] in
  let file_info := extract_file_info env file_path content in
  project_info ← _generate_file_info (info env) file_path content stats;
  Ok {| scan_id := "file_" +:+ pretty (clock env); scan_path := file_path;
        scan_type := "file"; timestamp := now env;
        issues := issues; stats := stats;
        project_info := Config.dict_set project_info "file_info" (VDict file_info) |}.

(** [CodeScanner.scan_file] *)
Definition scan_file (env : file_env) (file_path : string) : outcome ScanResult :=
  if negb (isfile (fs env) file_path) then Raise ("文件不存在: " +:+ file_path) else
  if _should_exclude_path (cfg env) (fs env) file_path then
    Ok {| scan_id := "file_" +:+ pretty (clock env); scan_path := file_path;
          scan_type := "file"; timestamp := now env;
          issues := []; stats := []; project_info := [] |}
  else
    match scan_file_try env file_path with
    | Ok result => Ok result
    | Raise e =>
        Ok {| scan_id := "file_" +:+ pretty (clock env) +:+ "_error";
              scan_path := file_path; scan_type := "file"; timestamp := now env;
              issues := []; stats := error_stats e; project_info := [] |}
    | Unmodelled => Unmodelled
    end.

(** The statistics loop of [create_merge_scan_result]: the lines, the
    languages and the extensions of the files of the difference that
    exist. *)
Definition merge_stats (env : file_env) (base_path : string)
    (t : tally) (file_path : string) : tally :=
  let full_path := os_path_join base_path file_path in
  if isfile (fs env) full_path then
    add_extension (lower (splitext_ext file_path))
      (add_language (Utils.get_file_language full_path)
         (add_lines (count_lines env full_path) t))
  else t.

(** [CodeScanner.create_merge_scan_result] *)
Definition create_merge_scan_result (env : file_env) (base_path scan_id : string)
    (issues : list VulnerabilityIssue) (diff_files : list string) : ScanResult :=
  let t := foldl (merge_stats env base_path)
                 {| found := []; total_lines := 0; languages := [];
                    file_counts := []; typed := true |} diff_files in
  {| scan_id := scan_id; scan_path := base_path; scan_type := "git-merge";
     timestamp := now env; issues := issues;
     stats := [("total_files", VInt (Z.of_nat (length diff_files)));
               ("total_lines_of_code", VInt (total_lines t));
               ("languages", counts_value (languages t));
               ("file_extensions", counts_value (file_counts t))];
     project_info :=
       [("merge_info", VDict [("diff_files", VList (VStr <$> diff_files))])] |}.

(** The name of an entry of a directory listing. *)
Definition entry_name (e : entry) : string :=
  match e with File name => name | Dir name _ => name end.

(** [CodeScanner._get_directory_structure]: [children] is what
    [os.listdir(dir_path)] lists, [max_depth] the depth still allowed (a
    depth below zero is zero).  The listing and the sizes are read without
    error. *)
Fixpoint _get_directory_structure (cfg : config) (fs : filesystem)
    (max_depth : nat) (dir_path : string) (children : list entry) : dict :=
  match max_depth with
  | 0 => [("...", VStr "...")]
  | S depth =>
      foldl (λ result item,
               let item_path := os_path_join dir_path (entry_name item) in
               if _should_exclude_path cfg fs item_path then result
               else match item with
                    | Dir name sub =>
                        Config.dict_set result name
                          (VDict (_get_directory_structure cfg fs depth item_path sub))
                    | File name =>
                        Config.dict_set result name
                          (VDict [("type", VStr "file");
                                  ("size", VInt (Z.of_N (getsize fs item_path)))])
                    end)
            [] children
  end.

(** [s.replace(old, new)] for a non-empty [old]: [skip] counts the
    characters of a replaced occurrence that are still to be passed over. *)
Fixpoint replace_from (skip : nat) (old new s : string) : string :=
  match s with
  | EmptyString => EmptyString
  | String c s' =>
      match skip with
      | S k => replace_from k old new s'
      | 0 =>
          if is_prefix old s
          then new +:+ replace_from (String.length old - 1) old new s'
          else String c (replace_from 0 old new s')
      end
  end.

Definition replace (old new s : string) : string := replace_from 0 old new s.

(** The counts of [stats.get("languages", {})], as [scan_directory] makes
    them. *)
Definition counts_of (stats : dict) : outcome (list (string * Z)) :=
  match dict_get stats "languages" with
  | None => Ok []
  | Some (VDict d) =>
      match mapM (λ kv, match kv.2 with VInt n => Some (kv.1, n) | _ => None end) d with
      | Some counts => Ok counts
      | None => Unmodelled
      end
  | Some _ => Raise "object has no attribute 'items'"
  end.

(** [max(items, key=lambda x: x[1], default=("Unknown", 0))[0]]: the first
    item with the greatest count. *)
Fixpoint max_from (best : string * Z) (items : list (string * Z)) : string * Z :=
  match items with
  | [] => best
  | item :: rest => max_from (if (best.2 <? item.2)%Z then item else best) rest
  end.

Definition main_language (languages : list (string * Z)) : string :=
  match languages with
  | [] => "Unknown"
  | item :: rest => (max_from item rest).1
  end.

Definition project_info_fields : dict :=
  [("project_type", VStr "未提供"); ("main_functionality", VStr "未提供");
   ("components", VList []); ("architecture", VStr "未提供");
   ("use_cases", VList [])].

(** The dictionary built from an answer that is not JSON. *)
Definition project_info_text (env : info_env) (stats : dict)
    (analysis_result : string) : dict :=
  let fence := "```" in
  let analysis_text := replace fence "" (replace (fence +:+ "json") "" analysis_result) in
  let project_info :=
    [("project_type", VStr "未能自动分析");
     ("main_functionality", VStr "未能自动分析");
     ("components", VList []);
     ("architecture", VStr "未能自动分析");
     ("use_cases", VList []);
     ("stats", VDict stats);
     ("analysis_text", VStr analysis_text)] in
  let project_info :=
    match search_type env analysis_text with
    | Some s => Config.dict_set project_info "project_type" (VStr s)
    | None => project_info
    end in
  let project_info :=
    match search_functionality env analysis_text with
    | Some s => Config.dict_set project_info "main_functionality" (VStr s)
    | None => project_info
    end in
  let project_info :=
    match search_components env analysis_text with
    | Some l => Config.dict_set project_info "components" (VList (VStr <$> l))
    | None => project_info
    end in
  match search_architecture env analysis_text with
  | Some s => Config.dict_set project_info "architecture" (VStr s)
  | None => project_info
  end.

(** The document of a parsed answer, completed: a missing field gets its
    default and [stats] is set. *)
Definition project_info_result (stats : dict) (project_info : value) : outcome dict :=
  project_info ← Config.fill_keys project_info project_info_fields;
  project_info ← Config.value_set_item project_info "stats" (VDict stats);
  match project_info with
  | VDict d => Ok d
  | _ => Unmodelled
  end.

(** [CodeScanner._generate_project_info]: [children] is the listing of
    [dir_path]. *)
Definition _generate_project_info (env : info_env) (cfg : config) (fs : filesystem)
    (children : list entry) (dir_path : string) (stats : dict) : outcome dict :=
  languages ← counts_of stats;
  let main_language := main_language languages in
  let structure := _get_directory_structure cfg fs 3 dir_path children in
  match analyze env (project_prompt env dir_path stats main_language structure) with
  | Ok analysis_result =>
      match parse_answer env analysis_result with
      | Parsed project_info =>
          match project_info_result stats project_info with
          | Ok result => Ok result
          | Raise _ => Ok [("stats", VDict stats)]
          | Unmodelled => Unmodelled
          end
      | NotJson => Ok (project_info_text env stats analysis_result)
      | Unbound => Ok [("stats", VDict stats)]
      end
  | Raise _ => Ok [("stats", VDict stats)]
  | Unmodelled => Unmodelled
  end.

(** The keys that the reports read from a project information. *)
Definition project_keys : list string :=
  ["project_type"; "main_functionality"; "components"; "architecture"; "use_cases"].

(** The sum of the counts of a dictionary of counts. *)
Definition total_count (counts : list (string * Z)) : Z :=
  foldr (λ kn acc, kn.2 + acc)%Z 0%Z counts.


(** How deep mappings are nested in a value. *)
Fixpoint nesting (v : value) : nat :=
  match v with
  | VDict d => S (foldr (λ kv acc, Nat.max (nesting kv.2) acc) 0 d)
  | _ => 0
  end.

(** The keys of the mappings of a value, at every level. *)
Fixpoint keys_within (v : value) : list string :=
  match v with
  | VDict d => flat_map (λ kv, kv.1 :: keys_within kv.2) d
  | _ => []
  end.

End FileScan.

(** ** Inputs for the analysis of one file *)

Module Samples.
Import Scanner.

(** A model that finds nothing, with a regular-expression engine for plain
    words: compiling a pattern that opens a group and never closes it is an
    error. *)
Definition quiet_env : analysis_env :=
  {| model_name := "default";
     analyze_code := λ _, Ok "[]";
     get_file_language := Utils.get_file_language;
     findall_json := λ _, [];
     json_loads_text := λ s, if String.eqb s "[]" then Some (VList []) else None;
     re_compile := λ p, if contains p "(" then Raise "missing ), unterminated subpattern"
                        else Ok (λ s, contains (lower s) (lower p)) |}.

Definition pickle_rule : VulnDB.rule :=
  {| VulnDB.rule_id := "python-1"; VulnDB.rule_name := "pickle";
     VulnDB.rule_pattern := Some "pickle";
     VulnDB.rule_description := Some "unsafe pickle";
     VulnDB.rule_severity := Some "high";
     VulnDB.rule_recommendation := None;
     VulnDB.rule_languages := ["python"];
     VulnDB.rule_source := None; VulnDB.rule_metadata := None |}.

Definition pickle_store : VulnDB.patterns := {[ "python" := [pickle_rule] ]}.

Definition broken_store : VulnDB.patterns :=
  {[ "python" := [pickle_rule; VulnDB.mk_rule "user-1" (Some "eval(")] ]}.

Definition pickle_source : string :=
  "import os
import pickle
data = pickle.loads(blob)
".

(** A model whose answers are prose, for the project information. *)
Definition prose_info : FileScan.info_env :=
  {| FileScan.analyze := λ _, Ok "项目类型: 命令行工具";
     FileScan.loads := λ _, None;
     FileScan.search_json := λ _, None;
     FileScan.file_prompt := λ _ _ _, "";
     FileScan.project_prompt := λ _ _ _ _, "";
     FileScan.search_type := λ _, Some "命令行工具";
     FileScan.search_functionality := λ _, None;
     FileScan.search_components := λ _, None;
     FileScan.search_architecture := λ _, None |}.



End Samples.

(** ** The signals a scan thread ends with *)

Module Signals.
Import Scanner Gui.

(** The two signals that end a scan for the window: completion and error. *)
Definition is_terminal (a : action) : bool :=
  match a with
  | Emit (scan_complete _) | Emit (scan_error _) => true
  | _ => false
  end.

Definition no_terminal (tr : list action) : bool :=
  forallb (λ a, negb (is_terminal a)) tr.

(** The last action of the thread was to emit a terminal signal, the only one
    of the run; a completion signal carries [self.result]. *)
Definition ended (st : thread) : Prop :=
  ∃ s earlier,
    trace st = Emit s :: earlier ∧ is_terminal (Emit s) = true ∧
    no_terminal earlier = true ∧
    ∀ r, s = scan_complete r → result st = Some r.

(** The thread emitted no signal and handed no file to the thread pool. *)
Definition silent (st : thread) : Prop :=
  Forall (λ a, is_emit a = false ∧ is_submit a = false) (trace st).

(** A run in which every call succeeds, for a path that is a file and for a
    repository. *)
Definition sound_run : run_env :=
  {| scanner_init := Ok (); file_scan := Ok (clean_result "/proj/a.py");
     dir_scan := two_files; clone := Ok ();
     adjust_percentage := λ p, (30 + (p * 65) `div` 100)%Z |}.

Definition never : nat → bool := λ _, false.
Definition always : nat → bool := λ _, true.

End Signals.

(** ** semgrep_converter.py: what a result dictionary keeps true *)

Module Importer.
Import VulnDB Semgrep.

(** Every rule of a result sits in a bucket named after one of its own
    languages. *)
Definition own_buckets (result : buckets) : Prop :=
  ∀ k rules r, (k, rules) ∈ result → r ∈ rules → k ∈ rule_buckets r.

(** What the importer keeps true of its result while it files rules: the
    keys are distinct, the keys it started from stay in front, and every rule
    is filed under one of its languages. *)
Definition filed (keys : list string) (result : buckets) : Prop :=
  NoDup result.*1 ∧ keys `prefix_of` result.*1 ∧ own_buckets result.

End Importer.

(** ** semgrep_converter.py and vulndb.py: the import from a repository *)

Module Github.
Import VulnDB Semgrep.

(** What [import_from_github] does to the outside, in the order it does it:
    [subprocess.run(clone_cmd, ...)] of an attempt, [sleep(wait_seconds)] and
    the [shutil.rmtree(temp_dir)] of the [finally] block. *)
Inductive event : Type :=
| Clone (current_try : nat)
| Sleep (wait_seconds : nat)
| Rmtree.

(** The outside world of one import: the temporary directory, whether the
    clone of an attempt returns (a time-out, a non-zero exit status and any
    other exception all end the attempt), and the cloned tree:
    [os.listdir(temp_dir)], [os.path.isdir], and the files that the globs of
    [convert_semgrep_rules_dir] find below a directory together with what
    [yaml.safe_load] makes of them. *)
Record repository : Type := Repository {
  temp_dir : string;
  clone_ok : nat → bool;
  listdir : list string;
  isdir : string → bool;
  rules_below : string → list (string * outcome value)
}.

Definition retry_times : nat := 3.

Definition excluded_dirs : list string :=
  [".git"; ".github"; "tests"; "docs"; "__pycache__"].

Section Clone.
Variable repo : repository.

(** [while current_try <= retry_times and not success]: the log of events
    and the final [success].  [None] when the fuel does not cover the loop. *)
Fixpoint clone_loop (fuel current_try : nat) (log : list event)
  : option (bool * list event) :=
  if retry_times <? current_try then Some (false, log)
  else
    match fuel with
    | 0 => None
    | S fuel =>
        let log := log ++ [Clone current_try] in
        if clone_ok repo current_try then Some (true, log)
        else
          let log := if current_try <? retry_times
                     then log ++ [Sleep (current_try * 2)]
                     else log in
          clone_loop fuel (current_try + 1) log
    end.

(** [for key, rules in dir_rules.items(): ... result[key].extend(rules)] *)
Definition merge_into (result dir_rules : buckets) : buckets :=
  foldl (λ res kv, extend_bucket res kv.1 kv.2) result dir_rules.

(** [for lang in languages] *)
Fixpoint languages_loop (result : buckets) (languages : list string)
  : outcome buckets :=
  match languages with
  | [] => Ok result
  | lang :: rest =>
      let lang_dir := Scanner.os_path_join (temp_dir repo) (lower lang) in
      if isdir repo lang_dir then
        lang_rules ← convert_semgrep_rules_dir (rules_below repo lang_dir);
        languages_loop (merge_into result lang_rules) rest
      else languages_loop result rest
  end.

(** [for item in os.listdir(temp_dir)] *)
Fixpoint items_loop (result : buckets) (items : list string) : outcome buckets :=
  match items with
  | [] => Ok result
  | item :: rest =>
      let item_path := Scanner.os_path_join (temp_dir repo) item in
      if isdir repo item_path && negb (bool_decide (item ∈ excluded_dirs)) then
        dir_rules ← convert_semgrep_rules_dir (rules_below repo item_path);
        items_loop (merge_into result dir_rules) rest
      else items_loop result rest
  end.

(** [for rules in result.values(): total_rules += len(rules)] *)
Definition count_rules (result : buckets) : nat :=
  foldl (λ total_rules kv, total_rules + length kv.2) 0 result.

(** [import_from_github]: the returned pair and the log of events.
    [languages] is the list that is passed, [[]] also standing for [None]
    (both are falsy).  An exception after the clone takes the [except]
    branch, which returns [({}, 0)]. *)
Definition import_from_github (languages : list string)
  : outcome (buckets * nat) * list event :=
  match clone_loop retry_times 1 [] with
  | None => (Unmodelled, [])
  | Some (success, log) =>
      let answer :=
        if success then
          match (match languages with
                 | [] => items_loop [] (listdir repo)
                 | _ :: _ => languages_loop [] languages
                 end) with
          | Ok result => Ok (result, count_rules result)
          | Raise _ => Ok ([], 0)
          | Unmodelled => Unmodelled
          end
        else Ok ([], 0) in
      (answer, log ++ [Rmtree])
  end.

(** [VulnerabilityDB.import_github_rules]: the returned pair, the store it
    leaves and the log of events.  [_merge_rules] returns through its own
    [except] branch with a store that is not modelled. *)
Definition import_github_rules (pats : patterns) (languages : list string)
  : outcome (bool * nat * patterns) * list event :=
  let '(answer, log) := import_from_github languages in
  (match answer with
   | Ok (new_rules, rule_count) =>
       if 0 <? rule_count then
         match _merge_rules pats new_rules with
         | Ok (pats', merged_count) => Ok (true, merged_count, pats')
         | _ => Unmodelled
         end
       else Ok (false, 0, pats)
   | Raise _ => Ok (false, 0, pats)
   | Unmodelled => Unmodelled
   end, log).

End Clone.

(** A repository with one directory that holds the rule of
    [either_directory], cloned at the second attempt. *)
Definition python_repo : repository :=
  {| temp_dir := "/tmp/github_semgrep_rules_x";
     clone_ok := λ n, 1 <? n;
     listdir := ["python"; "README.md"];
     isdir := λ p, String.eqb p "/tmp/github_semgrep_rules_x/python";
     rules_below := λ p, either_directory [VStr "python"] |}.

End Github.

(** ** rule_manager.py: editing the rule store *)

Module RuleManager.
Import VulnDB.

(** The fields of a [RuleDialog] when it is closed. *)
Record form : Type := Form {
  id_edit : string;
  name_edit : string;
  desc_edit : string;
  lang_combo : string;
  severity_combo : string;
  pattern_edit : string
}.

(** [RuleDialog.get_rule_data] of the dialog that was opened on [rule]: a
    new dictionary with seven keys. *)
Definition get_rule_data (rule : rule) (f : form) : VulnDB.rule :=
  {| rule_id := id_edit f;
     rule_name := name_edit f;
     rule_pattern := Some (pattern_edit f);
     rule_description := Some (desc_edit f);
     rule_severity := Some (severity_combo f);
     rule_recommendation := None;
     rule_languages := [lang_combo f];
     rule_source := Some (default "user" (rule_source rule));
     rule_metadata := None |}.

(** [for i, r in enumerate(rules): if r.get('id') == rule_id: ... break].
    A record with the id [""] stands both for a rule with this id and for a
    rule without the key, which [r.get('id')] tells apart: the search for
    [""] is not modelled once it meets such a rule. *)
Fixpoint find_rule (i : nat) (rules : list rule) (rule_id : string)
  : outcome (option (nat * rule)) :=
  match rules with
  | [] => Ok None
  | r :: rest =>
      if String.eqb (VulnDB.rule_id r) rule_id then
        if String.eqb rule_id "" then Unmodelled else Ok (Some (i, r))
      else find_rule (S i) rest rule_id
  end.

(** [rule.get('languages', ['common'])[0]].  A record with no language
    stands both for a rule without the key (the answer is [common]) and for
    a rule with an empty list (an [IndexError]). *)
Definition first_language (r : rule) : outcome string :=
  match rule_languages r with
  | [] => Unmodelled
  | lang :: _ => Ok lang
  end.

(** [patterns[lang]]: a [KeyError] when there is no such bucket (its text is
    the key between quotes, for a key that needs no escape). *)
Definition bucket_at (pats : patterns) (lang : string) : outcome (list rule) :=
  match pats !! lang with
  | Some bucket => Ok bucket
  | None => Raise ("'" +:+ lang +:+ "'")
  end.

(** [bucket.pop(i)], for the list that is left *)
Definition list_pop (bucket : list rule) (i : nat) : outcome (list rule) :=
  if i <? length bucket then Ok (delete i bucket)
  else Raise "pop index out of range".

(** [RuleManagerWidget.edit_rule], on [self.vulndb.patterns]: [selected] is
    the id shown in the selected row, if a row is selected; [dialog] holds
    the fields of the dialog when it is accepted.  An exception leaves the
    handler before anything was stored. *)
Definition edit_rule (pats : patterns) (current_language : string)
    (selected : option string) (dialog : option form) : outcome patterns :=
  match selected with
  | None => Ok pats
  | Some rule_id =>
      found ← find_rule 0 (bucket_of pats current_language) rule_id;
      match found with
      | None => Ok pats
      | Some (rule_index, rule) =>
          match dialog with
          | None => Ok pats
          | Some f =>
              let new_rule_data := get_rule_data rule f in
              old_lang ← first_language rule;
              let new_lang := lang_combo f in
              if bool_decide (old_lang ≠ new_lang) then
                bucket ← bucket_at pats old_lang;
                bucket ← list_pop bucket rule_index;
                let pats := <[old_lang := bucket]> pats in
                let pats := match pats !! new_lang with
                            | None => <[new_lang := []]> pats
                            | Some _ => pats
                            end in
                Ok (<[new_lang := bucket_of pats new_lang ++ [new_rule_data]]> pats)
              else
                bucket ← bucket_at pats old_lang;
                if rule_index <? length bucket
                then Ok (<[old_lang := <[rule_index := new_rule_data]> bucket]> pats)
                else Raise "list assignment index out of range"
          end
      end
  end.

(** [RuleManagerWidget.delete_rule]: [reply_yes] is the answer to the
    confirmation. *)
Definition delete_rule (pats : patterns) (current_language : string)
    (selected : option string) (reply_yes : bool) : outcome patterns :=
  match selected with
  | None => Ok pats
  | Some rule_id =>
      if reply_yes then
        found ← find_rule 0 (bucket_of pats current_language) rule_id;
        match found with
        | Some (rule_index, _) =>
            bucket ← bucket_at pats current_language;
            bucket ← list_pop bucket rule_index;
            Ok (<[current_language := bucket]> pats)
        | None => Ok pats
        end
      else Ok pats
  end.

(** The form that keeps what the dialog shows for a rule and picks a
    language. *)
Definition retitle (r : rule) (lang : string) : form :=
  {| id_edit := rule_id r; name_edit := rule_name r;
     desc_edit := default "" (rule_description r); lang_combo := lang;
     severity_combo := "high"; pattern_edit := default "" (rule_pattern r) |}.

(** A rule of the [common] bucket whose languages are [["*"]], as the
    [common] rules of the default store of [_create_default_db] have them. *)
Definition hardcoded_secret : rule :=
  {| rule_id := "common-1"; rule_name := "hardcoded secret";
     rule_pattern := Some "password|secret|token|api_key|apikey";
     rule_description := Some "hardcoded secret";
     rule_severity := Some "high"; rule_recommendation := None;
     rule_languages := ["*"]; rule_source := None; rule_metadata := None |}.

Definition common_store : patterns := {[ "common" := [hardcoded_secret] ]}.

End RuleManager.

(** * Part II: theorems *)

Lemma bind_Ok {A B} (f : A → outcome B) (a : A) : Ok a ≫= f = f a.
Proof. reflexivity. Qed.

(** ** The rule repository *)

Section VulnDB_facts.
Import VulnDB.

Implicit Types (bucket : list rule) (ids : gmap string nat) (r : rule).

Lemma index_rules_lookup i bucket ids k j :
  index_rules i bucket ids !! k = Some j →
  (∃ r, i ≤ j ∧ bucket !! (j - i) = Some r ∧ rule_id r = k) ∨ ids !! k = Some j.
Proof.
  revert i ids. induction bucket as [|r0 rest IH]; intros i ids H; simpl in H.
  - by right.
  - apply IH in H as [(r & Hle & Hl & Hid)|H].
    + left. exists r. split; [lia|]. split; [|done].
      replace (j - i) with (S (j - S i)) by lia. done.
    + destruct (decide (rule_id r0 = k)) as [<-|Hne].
      * rewrite lookup_insert_eq in H. injection H as <-.
        left. exists r0. rewrite Nat.sub_diag. done.
      * rewrite lookup_insert_ne in H by done. by right.
Qed.

Lemma index_rules_is_Some i bucket ids k :
  is_Some (index_rules i bucket ids !! k) ↔
  k ∈ rule_id <$> bucket ∨ is_Some (ids !! k).
Proof.
  revert i ids. induction bucket as [|r0 rest IH]; intros i ids; simpl.
  - rewrite elem_of_nil. tauto.
  - rewrite IH, elem_of_cons.
    destruct (decide (rule_id r0 = k)) as [<-|Hne].
    + rewrite lookup_insert_eq. split; [intros _|intros _; right; eauto].
      by left; left.
    + rewrite lookup_insert_ne by done. split; [tauto|].
      intros [[?|?]|?]; [congruence|tauto|tauto].
Qed.

Lemma existing_ids_ok bucket : ids_ok (existing_ids bucket) bucket.
Proof.
  intros k i H. apply index_rules_lookup in H as [(r & _ & Hl & Hid)|H].
  - exists r. by rewrite Nat.sub_0_r in Hl.
  - by rewrite lookup_empty in H.
Qed.

Lemma existing_ids_is_Some bucket k :
  is_Some (existing_ids bucket !! k) ↔ k ∈ rule_id <$> bucket.
Proof.
  unfold existing_ids. rewrite index_rules_is_Some, lookup_empty.
  split; [intros [?|[? ?]]; [done|congruence]|by left].
Qed.

Lemma existing_ids_None bucket k :
  existing_ids bucket !! k = None ↔ k ∉ rule_id <$> bucket.
Proof. rewrite <- existing_ids_is_Some, eq_None_not_Some. done. Qed.

(** With unique ids the index finds every stored rule at its position. *)
Lemma existing_ids_unique bucket old :
  unique_ids bucket → old ∈ bucket →
  ∃ i, existing_ids bucket !! rule_id old = Some i ∧ bucket !! i = Some old.
Proof.
  intros Hnd Hin.
  destruct (proj2 (existing_ids_is_Some bucket (rule_id old))) as [i Hi].
  { apply list_elem_of_fmap. eauto. }
  exists i. split; [done|].
  destruct (existing_ids_ok _ _ _ Hi) as (old' & Hl & Hid).
  apply list_elem_of_lookup in Hin as [j Hj].
  assert (i = j) as ->; [|done].
  eapply (NoDup_lookup _ _ _ (rule_id old) Hnd);
    rewrite list_lookup_fmap; [rewrite Hl|rewrite Hj]; simpl; congruence.
Qed.

Lemma effective_id_nonempty lang st r :
  rule_id r ≠ "" → effective lang st r = r.
Proof. intros H. unfold effective. by rewrite decide_False. Qed.

(** One step of the bucket loop, as a case split on the index. *)
Lemma merge_rule_cases lang ids st r :
  ids_ok ids st.1 →
  let r' := effective lang st r in
  match ids !! rule_id r' with
  | Some index =>
      ∃ old, st.1 !! index = Some old ∧ rule_id old = rule_id r' ∧
        merge_rule lang ids st r =
          Ok (if truthy (rule_pattern r') && bool_decide (rule_pattern r' ≠ rule_pattern old)
              then <[index := r']> st.1 else st.1, st.2)
  | None => merge_rule lang ids st r = Ok (st.1 ++ [r'], st.2 + 1)
  end.
Proof.
  intros Hok r'. unfold merge_rule. fold r'.
  destruct (ids !! rule_id r') as [index|] eqn:Hidx; [|done].
  destruct (Hok _ _ Hidx) as (old & Hl & Hid).
  exists old. split; [done|]. split; [done|].
  destruct (truthy (rule_pattern r')); simpl; [|by destruct st].
  unfold list_get. rewrite Hl. simpl.
  case_bool_decide; [done|by destruct st].
Qed.

Lemma ids_ok_insert ids bucket index old r :
  ids_ok ids bucket → bucket !! index = Some old → rule_id old = rule_id r →
  ids_ok ids (<[index := r]> bucket).
Proof.
  intros Hok Hl Hid k i Hk. destruct (Hok _ _ Hk) as (o & Ho & Hoid).
  destruct (decide (i = index)) as [->|Hne].
  - exists r. rewrite list_lookup_insert_eq by (by eapply lookup_lt_Some).
    split; [done|]. congruence.
  - exists o. by rewrite list_lookup_insert_ne.
Qed.

Lemma ids_ok_app ids bucket r : ids_ok ids bucket → ids_ok ids (bucket ++ [r]).
Proof.
  intros Hok k i Hk. destruct (Hok _ _ Hk) as (o & Ho & Hoid).
  exists o. split; [|done]. by apply lookup_app_l_Some.
Qed.

Lemma merge_rule_ok lang ids st r :
  ids_ok ids st.1 → ∃ st', merge_rule lang ids st r = Ok st' ∧ ids_ok ids st'.1.
Proof.
  intros Hok. pose proof (merge_rule_cases lang ids st r Hok) as H. simpl in H.
  destruct (ids !! rule_id (effective lang st r)) as [index|].
  - destruct H as (old & Hl & Hid & ->). eexists. split; [done|]. simpl.
    destruct (_ && _); [by eapply ids_ok_insert|done].
  - rewrite H. eexists. split; [done|]. by apply ids_ok_app.
Qed.

Lemma merge_bucket_ok lang ids st rules :
  ids_ok ids st.1 → ∃ st', merge_bucket lang ids st rules = Ok st' ∧ ids_ok ids st'.1.
Proof.
  revert st. induction rules as [|r rest IH]; intros st Hok; simpl.
  - eauto.
  - destruct (merge_rule_ok lang ids st r Hok) as (st1 & -> & Hok1). simpl.
    by apply IH.
Qed.

Lemma merge_bucket_app lang ids st rules1 rules2 :
  merge_bucket lang ids st (rules1 ++ rules2) =
  st' ← merge_bucket lang ids st rules1; merge_bucket lang ids st' rules2.
Proof.
  revert st. induction rules1 as [|r rest IH]; intros st; simpl; [done|].
  destruct (merge_rule lang ids st r); simpl; [apply IH|done|done].
Qed.

Lemma merge_langs_app st batch1 batch2 :
  merge_langs st (batch1 ++ batch2) =
  st' ← merge_langs st batch1; merge_langs st' batch2.
Proof.
  revert st. induction batch1 as [|e rest IH]; intros st; simpl; [done|].
  destruct (merge_lang st e); simpl; [apply IH|done|done].
Qed.

Lemma merge_langs_single st entry : merge_langs st [entry] = merge_lang st entry.
Proof. simpl. by destruct (merge_lang st entry). Qed.

#[local] Arguments merge_lang : simpl never.

(** The bucket a language loop starts from. *)
Lemma merge_lang_unfold pats t lang rules :
  merge_lang (pats, t) (lang, rules) =
  '(bucket, total_added) ← merge_bucket lang (existing_ids (bucket_of pats lang))
                             (bucket_of pats lang, t) rules;
  Ok (match bucket with
      | [] => delete lang pats
      | _ :: _ => <[lang := bucket]> pats
      end, total_added).
Proof.
  unfold merge_lang, bucket_of. simpl.
  destruct (pats !! lang) as [b|] eqn:Hl; simpl.
  - rewrite Hl. simpl.
    destruct (merge_bucket _ _ _ _) as [[bucket n]| |]; simpl; [|done..].
    destruct bucket; [|done]. by rewrite delete_insert_eq.
  - rewrite lookup_insert_eq. simpl.
    destruct (merge_bucket _ _ _ _) as [[bucket n]| |]; simpl; [|done..].
    destruct bucket; by rewrite ?delete_insert_eq, ?insert_insert_eq.
Qed.

Lemma merge_lang_ok st entry : ∃ st', merge_lang st entry = Ok st'.
Proof.
  destruct st as [pats t], entry as [lang rules]. rewrite merge_lang_unfold.
  destruct (merge_bucket_ok lang (existing_ids (bucket_of pats lang))
              (bucket_of pats lang, t) rules) as ([b n] & -> & _).
  { apply existing_ids_ok. }
  simpl. eauto.
Qed.

(** [_merge_rules] never takes its [except] branch: it returns a count. *)
Lemma merge_rules_returns pats new_rules :
  ∃ pats' added, _merge_rules pats new_rules = Ok (pats', added).
Proof.
  unfold _merge_rules. generalize (pats, 0). clear pats.
  induction new_rules as [|e rest IH]; intros st; simpl.
  - destruct st. eauto.
  - destruct (merge_lang_ok st e) as (st' & ->). simpl. apply IH.
Qed.

Lemma bucket_of_merged pats lang bucket :
  bucket_of (match bucket with
             | [] => delete lang pats
             | _ :: _ => <[lang := bucket]> pats
             end) lang = bucket.
Proof.
  unfold bucket_of. destruct bucket; by rewrite ?lookup_delete_eq, ?lookup_insert_eq.
Qed.

(** Running the loop of one bucket, read off the result of [merge_lang]. *)
Lemma merge_lang_inv pats t lang rules pats1 n :
  merge_lang (pats, t) (lang, rules) = Ok (pats1, n) →
  merge_bucket lang (existing_ids (bucket_of pats lang)) (bucket_of pats lang, t) rules
    = Ok (bucket_of pats1 lang, n).
Proof.
  rewrite merge_lang_unfold.
  destruct (merge_bucket _ _ _ _) as [[b m]| |]; simpl; [|done..].
  intros [= <- <-]. by rewrite bucket_of_merged.
Qed.

(** Appending one rule [r] to the rules destined for a bucket changes the
    outcome of the merge as follows.  When the id under which [r] is processed
    is an id of the bucket as stored when the merge reached it, the returned
    count is unchanged and the bucket is either unchanged or has the stored
    rule with that id replaced by [r], the latter exactly when the pattern of
    [r] is non-empty and differs from the stored pattern.  When the id is not
    among the stored ids, [r] is appended to the bucket and the returned count
    grows by exactly one. *)
Lemma merge_rules_one_more_rule pats earlier lang pre r pats0 t0 pats1 n :
  _merge_rules pats earlier = Ok (pats0, t0) →
  _merge_rules pats (earlier ++ [(lang, pre)]) = Ok (pats1, n) →
  let stored := bucket_of pats0 lang in
  let bucket := bucket_of pats1 lang in
  let r' := effective lang (bucket, n) r in
  ∃ pats2 n',
    _merge_rules pats (earlier ++ [(lang, pre ++ [r])]) = Ok (pats2, n') ∧
    (rule_id r' ∈ rule_id <$> stored →
       n' = n ∧
       ∃ index old, bucket !! index = Some old ∧ rule_id old = rule_id r' ∧
         bucket_of pats2 lang =
           if truthy (rule_pattern r') && bool_decide (rule_pattern r' ≠ rule_pattern old)
           then <[index := r']> bucket else bucket) ∧
    (rule_id r' ∉ rule_id <$> stored →
       n' = n + 1 ∧ bucket_of pats2 lang = bucket ++ [r']).
Proof.
  intros H0 H1 stored bucket r'. unfold _merge_rules in *.
  rewrite merge_langs_app, H0, bind_Ok, merge_langs_single in H1. apply merge_lang_inv in H1 as Hl.
  destruct (merge_bucket_ok lang (existing_ids stored) (stored, t0) pre)
    as (st1 & Hst1 & Hok); [apply existing_ids_ok|].
  fold stored in Hl. rewrite Hl in Hst1. injection Hst1 as <-.
  pose proof (merge_rule_cases lang _ _ r Hok) as Hstep. simpl in Hstep.
  fold bucket r' in Hstep.
  rewrite merge_langs_app, H0, bind_Ok.
  rewrite merge_langs_single, merge_lang_unfold, merge_bucket_app.
  fold stored. rewrite Hl. simpl. fold bucket.
  destruct (existing_ids stored !! rule_id r') as [index|] eqn:Hidx.
  - destruct Hstep as (old & Hold & Hid & ->). simpl.
    eexists _, _. split; [done|]. split.
    + intros _. split; [done|]. exists index, old.
      by rewrite bucket_of_merged.
    + intros Hnot. apply existing_ids_None in Hnot. congruence.
  - rewrite Hstep. simpl. eexists _, _. split; [done|]. split.
    + intros Hin. apply existing_ids_is_Some in Hin as [? ?]. congruence.
    + intros _. by rewrite bucket_of_merged.
Qed.

Lemma merge_rules_one_more_rule_witness :
  _merge_rules (py_store [rule_a_x]) [] = Ok (py_store [rule_a_x], 0) ∧
  _merge_rules (py_store [rule_a_x]) ([] ++ [("python", [])])
    = Ok (py_store [rule_a_x], 0) ∧
  ∃ pats2, _merge_rules (py_store [rule_a_x]) ([] ++ [("python", [] ++ [rule_a_y])])
             = Ok (pats2, 0) ∧
           bucket_of pats2 "python" = [rule_a_y].
Proof.
  set (pats := py_store [rule_a_x]). set (r := rule_a_y).
  assert (_merge_rules pats [] = Ok (pats, 0)) as H0 by reflexivity.
  assert (_merge_rules pats ([] ++ [("python", [])]) = Ok (pats, 0)) as H1
    by reflexivity.
  split; [exact H0|]. split; [exact H1|].
  destruct (merge_rules_one_more_rule pats [] "python" [] r pats 0 pats 0 H0 H1)
    as (pats2 & n' & Hm & Hin & _).
  destruct Hin as (-> & index & old & Hold & _ & Hb).
  { change (rule_id r ∈ ["a"]). apply list_elem_of_here. }
  exists pats2. split; [exact Hm|].
  rewrite Hb. destruct index as [|index]; [|discriminate Hold].
  injection Hold as <-. reflexivity.
Defined.

(** A changed pattern updates the stored rule in place and is not counted; an
    unchanged or empty pattern changes nothing; a new id is appended and
    counted once. *)
Lemma merge_rules_examples :
  _merge_rules (py_store [rule_a_x; rule_b]) [("python", [rule_a_y])]
    = Ok (py_store [rule_a_y; rule_b], 0) ∧
  _merge_rules (py_store [rule_a_y; rule_b]) [("python", [mk_rule "a" None])]
    = Ok (py_store [rule_a_y; rule_b], 0) ∧
  _merge_rules (py_store [rule_a_x]) [("python", [rule_b]); ("go", [rule_noid])]
    = Ok (<["go" := [set_id rule_noid "go-0002"]]> (py_store [rule_a_x; rule_b]), 2).
Proof. repeat split; vm_compute; reflexivity. Qed.

(** C1. A rule whose id was appended to the bucket earlier in the same batch
    meets a bucket that holds its id, and is appended all the same.  The
    store holds the rule [b] in its [python] bucket and the batch brings two
    rules with the id [dup] and the patterns [a] and [b].  After the first of
    them the bucket is [[b; dup/a]] and the count is 1.  The second one finds
    its id in the bucket, with another, non-empty pattern: by the merge
    algorithm it replaces [dup/a] and the count stays 1.  The index of ids
    was built before the loop and does not know [dup]: the rule is appended,
    the count becomes 2, and [_merge_rules] returns a bucket of three rules
    and 2. *)
Theorem merge_rules_known_id_is_appended :
  merge_bucket "python" (existing_ids [rule_b]) ([rule_b], 0) [rule_dup_a]
    = Ok ([rule_b; rule_dup_a], 1) ∧
  rule_id rule_dup_b ∈ rule_id <$> [rule_b; rule_dup_a] ∧
  truthy (rule_pattern rule_dup_b) = true ∧
  rule_pattern rule_dup_b ≠ rule_pattern rule_dup_a ∧
  merge_rule "python" (existing_ids [rule_b]) ([rule_b; rule_dup_a], 1) rule_dup_b
    = Ok ([rule_b; rule_dup_a; rule_dup_b], 2) ∧
  _merge_rules (py_store [rule_b]) [("python", [rule_dup_a; rule_dup_b])]
    = Ok (py_store [rule_b; rule_dup_a; rule_dup_b], 2) ∧
  _merge_rules (py_store [rule_b]) [("python", [rule_dup_a; rule_dup_b])]
    ≠ Ok (py_store [rule_b; rule_dup_b], 1).
Proof.
  assert (_merge_rules (py_store [rule_b]) [("python", [rule_dup_a; rule_dup_b])]
          = Ok (py_store [rule_b; rule_dup_a; rule_dup_b], 2)) as Hrun by reflexivity.
  split; [reflexivity|]. split; [apply list_elem_of_further, list_elem_of_here|].
  split; [reflexivity|]. split; [discriminate|]. split; [reflexivity|].
  split; [exact Hrun|]. rewrite Hrun. intros [= _].
Qed.

(** C3. Two incoming rules with the same new id, destined for one bucket of
    an empty store, are both appended: the index of existing ids is built
    before the loop and is not refreshed on append, so the merged bucket holds
    two rules with the id [dup] and the returned count is 2. *)
Theorem merge_rules_duplicate_ids_in_batch :
  store_ok ∅ ∧
  _merge_rules ∅ [("python", [rule_dup_a; rule_dup_b])]
    = Ok (py_store [rule_dup_a; rule_dup_b], 2) ∧
  ¬ unique_ids [rule_dup_a; rule_dup_b].
Proof.
  split; [|split].
  - intros lang bucket H. by rewrite lookup_empty in H.
  - reflexivity.
  - unfold unique_ids. simpl. intros [Hnot _]%NoDup_cons.
    apply Hnot, list_elem_of_here.
Qed.

(** The same defect through a synthesized id: the id made up for the second
    rule is the id the first rule brought along. *)
Lemma merge_rules_synthesized_id_collides :
  _merge_rules ∅ [("python", [rule_0003; rule_noid])] =
    Ok (py_store [rule_0003; set_id rule_noid "python-0003"], 2).
Proof. reflexivity. Qed.

(** A store holding a rule with an empty id and a batch holding that very
    rule: the batch is contained in the store, yet the merge synthesizes the
    id [python-0002] for the incoming rule, appends it and returns 1. *)
Lemma merge_contained_batch_counterexample :
  store_ok (py_store [rule_noid]) ∧
  batch_contained (py_store [rule_noid]) [("python", [rule_noid])] ∧
  _merge_rules (py_store [rule_noid]) [("python", [rule_noid])]
    = Ok (py_store [rule_noid; set_id rule_noid "python-0002"], 1) ∧
  _merge_rules (py_store [rule_noid]) [("python", [rule_noid])]
    ≠ Ok (py_store [rule_noid], 0).
Proof.
  split; [|split; [|split]].
  - unfold py_store. intros lang bucket [_ <-]%lookup_singleton_Some. split; [done|].
    apply NoDup_singleton.
  - intros lang rules r Hin Hr.
    apply list_elem_of_singleton in Hin as [= -> ->].
    apply list_elem_of_singleton in Hr as ->.
    exists rule_noid. split; [apply list_elem_of_here|done].
  - reflexivity.
  - discriminate.
Qed.

Lemma merge_bucket_noop lang bucket t rules :
  unique_ids bucket →
  (∀ r, r ∈ rules → rule_id r ≠ "" ∧ rule_in_bucket bucket r) →
  merge_bucket lang (existing_ids bucket) (bucket, t) rules = Ok (bucket, t).
Proof.
  intros Hnd. induction rules as [|r rest IH]; intros Hall; simpl; [done|].
  destruct (Hall r) as (Hne & old & Hin & Hid & Hpat); [apply list_elem_of_here|].
  destruct (existing_ids_unique bucket old Hnd Hin) as (i & Hi & Hl).
  unfold merge_rule. rewrite (effective_id_nonempty _ _ _ Hne).
  rewrite <- Hid, Hi. simpl.
  destruct (truthy (rule_pattern r)); simpl.
  - unfold list_get. rewrite Hl. simpl. rewrite bool_decide_eq_false_2 by auto.
    simpl. apply IH. intros r' Hr'. apply Hall. by apply list_elem_of_further.
  - apply IH. intros r' Hr'. apply Hall. by apply list_elem_of_further.
Qed.

(** C5 (amended). In a store that satisfies its invariant, merging a batch
    whose rules all carry a non-empty id and are all contained in the store
    (same id and same pattern string in the bucket they are destined for)
    returns 0 and leaves the store as it was. *)
Theorem merge_contained_batch_noop pats new_rules :
  store_ok pats →
  (∀ lang rules r, (lang, rules) ∈ new_rules → r ∈ rules → rule_id r ≠ "") →
  batch_contained pats new_rules →
  _merge_rules pats new_rules = Ok (pats, 0).
Proof.
  intros Hstore. unfold _merge_rules. generalize 0 as t.
  induction new_rules as [|[lang rules] rest IH]; intros t Hne Hin; simpl; [done|].
  assert (merge_lang (pats, t) (lang, rules) = Ok (pats, t)) as ->.
  { rewrite merge_lang_unfold, merge_bucket_noop; simpl.
    - f_equal. f_equal. unfold bucket_of.
      destruct (pats !! lang) as [b|] eqn:Hl; simpl.
      + destruct (Hstore _ _ Hl) as [Hb _]. destruct b; [done|].
        by apply insert_id.
      + by apply delete_id.
    - unfold bucket_of. destruct (pats !! lang) as [b|] eqn:Hl; simpl.
      + by destruct (Hstore _ _ Hl).
      + apply NoDup_nil_2.
    - intros r Hr. split.
      + eapply Hne; [apply list_elem_of_here|done].
      + eapply Hin; [apply list_elem_of_here|done]. }
  simpl. apply IH.
  - intros l rs r Hl. apply (Hne l rs r). by apply list_elem_of_further.
  - intros l rs r Hl. apply (Hin l rs r). by apply list_elem_of_further.
Qed.

Lemma merge_contained_batch_noop_witness :
  store_ok (py_store [rule_a_x; rule_b]) ∧
  (∀ lang rules r, (lang, rules) ∈ known_batch → r ∈ rules → rule_id r ≠ "") ∧
  batch_contained (py_store [rule_a_x; rule_b]) known_batch ∧
  _merge_rules (py_store [rule_a_x; rule_b]) known_batch
    = Ok (py_store [rule_a_x; rule_b], 0).
Proof.
  set (pats := py_store [rule_a_x; rule_b]). set (new_rules := known_batch).
  assert (store_ok pats) as Hs.
  { unfold pats, py_store.
    intros lang bucket [_ <-]%lookup_singleton_Some. split; [discriminate|].
    unfold unique_ids. simpl.
    apply NoDup_cons. split; [|apply NoDup_singleton].
    intros H%list_elem_of_singleton. discriminate H. }
  assert (∀ lang rules r, (lang, rules) ∈ new_rules → r ∈ rules →
            rule_id r ≠ "" ∧ rule_in_bucket (bucket_of pats lang) r) as Hb.
  { intros lang rules r Hin Hr. unfold new_rules in Hin.
    apply elem_of_cons in Hin as [[= -> ->]|Hin].
    - apply elem_of_cons in Hr as [->|Hr].
      + split; [discriminate|]. exists rule_b.
        split; [|done]. apply list_elem_of_further, list_elem_of_here.
      + apply list_elem_of_singleton in Hr as ->.
        split; [discriminate|]. exists rule_a_x.
        split; [|done]. apply list_elem_of_here.
    - apply list_elem_of_singleton in Hin as [= -> ->].
      by apply elem_of_nil in Hr. }
  assert (∀ lang rules r, (lang, rules) ∈ new_rules → r ∈ rules → rule_id r ≠ "")
    as Hne by (intros lang rules r Hin Hr; apply (Hb lang rules r Hin Hr)).
  assert (batch_contained pats new_rules) as Hc
    by (intros lang rules r Hin Hr; apply (Hb lang rules r Hin Hr)).
  split; [exact Hs|]. split; [exact Hne|]. split; [exact Hc|].
  exact (merge_contained_batch_noop pats new_rules Hs Hne Hc).
Defined.

End VulnDB_facts.

(** ** The importer *)

Section Semgrep_facts.
Import Semgrep.

Lemma special_not_alnum c : Re.is_special c = true → is_alnum c = false.
Proof. destruct c as [[] [] [] [] [] [] [] []]; vm_compute; congruence. Qed.

Lemma not_special_plain c :
  Re.is_special c = false →
  Ascii.eqb c "\" = false ∧ Ascii.eqb c "|" = false ∧ Re.is_meta c = false.
Proof. destruct c as [[] [] [] [] [] [] [] []]; vm_compute; auto; congruence. Qed.

(** An escaped text is a pattern with one alternative, the text itself:
    whatever the importer stores matches as plain text only. *)
Lemma alternatives_escape s : Re.alternatives (Re.escape s) = Some [s].
Proof.
  induction s as [|c s IH]; [done|]. simpl.
  destruct (Re.is_special c) eqn:Hc.
  - cbn [Re.alternatives]. rewrite Ascii.eqb_refl.
    rewrite (special_not_alnum c Hc), IH. done.
  - destruct (not_special_plain c Hc) as (H1 & H2 & H3).
    cbn [Re.alternatives]. rewrite H1, H2, H3, IH. done.
Qed.

Lemma search_escaped s content :
  Re.search_ignorecase (Re.escape s) content
  = Some (contains (lower content) (lower s)).
Proof.
  unfold Re.search_ignorecase. rewrite alternatives_escape. simpl.
  by rewrite orb_false_r.
Qed.

(** C2. The directory with the one document whose rule carries
    [pattern-either: ["foo", "bar"]] is imported as one rule in the bucket of
    each declared language (in [common] when none is declared), and the
    stored pattern is the escaped text [foo\|bar]: as a case-insensitive
    regular expression it matches neither [foo] nor [bar], only the text
    [foo|bar], whereas the joined alternatives [foo|bar] match both. *)
Theorem import_pattern_either_is_escaped :
  convert_semgrep_rules_dir (either_directory [VStr "Python"; VStr "java"])
    = Ok [("common", []);
          ("python", [either_converted ["Python"; "java"]]);
          ("javascript", []);
          ("java", [either_converted ["Python"; "java"]]);
          ("go", []); ("ruby", []); ("php", []); ("c", []); ("cpp", [])] ∧
  convert_semgrep_rules_dir (either_directory [])
    = Ok [("common", [either_converted []]);
          ("python", []); ("javascript", []); ("java", []);
          ("go", []); ("ruby", []); ("php", []); ("c", []); ("cpp", [])] ∧
  VulnDB.rule_pattern (either_converted []) = Some (Re.escape "foo|bar") ∧
  Re.search_ignorecase "foo\|bar" "x = foo()" = Some false ∧
  Re.search_ignorecase "foo\|bar" "x = bar()" = Some false ∧
  Re.search_ignorecase "foo\|bar" "x = foo|bar" = Some true ∧
  Re.search_ignorecase "foo|bar" "x = foo()" = Some true ∧
  Re.search_ignorecase "foo|bar" "x = bar()" = Some true.
Proof. repeat split; reflexivity. Qed.

(** The route of the rule importer into the merge: two files that define a
    rule under one id, or one rule that names a language twice, give a batch
    with the id twice in one bucket, and the merge stores both. *)
Lemma import_then_merge_duplicate_ids :
  (∃ batch,
     convert_semgrep_rules_dir shared_id_directory = Ok batch ∧
     VulnDB._merge_rules ∅ batch
       = Ok ({[ "python" := [either_converted ["python"]; either_converted ["python"]] ]}, 2)) ∧
  (∃ batch,
     convert_semgrep_rules_dir (either_directory [VStr "python"; VStr "Python"]) = Ok batch ∧
     VulnDB._merge_rules ∅ batch
       = Ok ({[ "python" := [either_converted ["python"; "Python"];
                             either_converted ["python"; "Python"]] ]}, 2)).
Proof. split; eexists; (split; [reflexivity|vm_compute; reflexivity]). Qed.

End Semgrep_facts.

(** ** Scan results *)

Section ScanResult_facts.
Import Scanner.

Implicit Types (m : gmap string nat) (i : VulnerabilityIssue)
               (l : list VulnerabilityIssue) (r : ScanResult).

Lemma sum_counts_insert m k n :
  m !! k = None → sum_counts (<[k := n]> m) = n + sum_counts m.
Proof.
  intros H. unfold sum_counts.
  rewrite map_fold_insert_L; [done| |done]. intros. lia.
Qed.

Lemma sum_counts_lookup m k n :
  m !! k = Some n → sum_counts m = n + sum_counts (delete k m).
Proof.
  intros H. rewrite <- (insert_delete_id m k n H) at 1.
  apply sum_counts_insert, lookup_delete_eq.
Qed.

Lemma sum_counts_count_issue m i : sum_counts (count_issue m i) = S (sum_counts m).
Proof.
  unfold count_issue. destruct (m !! severity i) as [n|] eqn:H; simpl.
  - rewrite <- insert_delete_eq, sum_counts_insert by apply lookup_delete_eq.
    rewrite (sum_counts_lookup _ _ _ H). lia.
  - by rewrite sum_counts_insert.
Qed.

Lemma sum_counts_foldl m l :
  sum_counts (foldl count_issue m l) = length l + sum_counts m.
Proof.
  revert m. induction l as [|i l IH]; intros m; simpl; [done|].
  rewrite IH, sum_counts_count_issue. lia.
Qed.

Lemma count_severity_cons sev i l :
  count_severity sev (i :: l) =
  (if decide (severity i = sev) then 1 else 0) + count_severity sev l.
Proof.
  unfold count_severity. rewrite filter_cons. by destruct (decide _).
Qed.

Lemma count_foldl m l sev :
  default 0 (foldl count_issue m l !! sev)
  = default 0 (m !! sev) + count_severity sev l.
Proof.
  revert m. induction l as [|i l IH]; intros m; simpl.
  - unfold count_severity. simpl. lia.
  - rewrite IH, count_severity_cons. unfold count_issue.
    destruct (decide (severity i = sev)) as [->|Hne].
    + rewrite lookup_insert_eq. simpl. lia.
    + rewrite lookup_insert_ne by done. lia.
Qed.

Lemma counted_foldl m l i :
  i ∈ l → is_Some (foldl count_issue m l !! severity i).
Proof.
  revert m. induction l as [|j l IH]; intros m Hin.
  - by apply elem_of_nil in Hin.
  - simpl. apply elem_of_cons in Hin as [->|?]; [|by apply IH].
    assert (∀ m', is_Some (m' !! severity j) →
                  is_Some (foldl count_issue m' l !! severity j)) as Hkeep.
    { clear. induction l as [|k l IH]; intros m' H; simpl; [done|].
      apply IH. unfold count_issue.
      destruct (decide (severity k = severity j)) as [->|Hne].
      - rewrite lookup_insert_eq. eauto.
      - by rewrite lookup_insert_ne. }
    apply Hkeep. unfold count_issue. rewrite lookup_insert_eq. eauto.
Qed.

(** C10. The counts of [issues_by_severity] add up to [total_issues], which
    is the length of the issue list; every issue is counted under the key of
    its own severity string, whichever string that is. *)
Theorem issues_by_severity_total r :
  sum_counts (issues_by_severity r) = total_issues r ∧
  total_issues r = length (issues r) ∧
  ∀ i, i ∈ issues r →
    count_severity (severity i) (issues r) > 0 ∧
    issues_by_severity r !! severity i
      = Some (count_severity (severity i) (issues r)).
Proof.
  unfold issues_by_severity, total_issues. split; [|split; [done|]].
  - rewrite sum_counts_foldl. change (sum_counts no_issues) with 0. lia.
  - intros i Hin.
    assert (count_severity (severity i) (issues r) > 0) as Hpos.
    { clear -Hin. induction (issues r) as [|j l IH].
      - by apply elem_of_nil in Hin.
      - rewrite count_severity_cons.
        apply elem_of_cons in Hin as [->|Hin]; [rewrite decide_True by done|];
          [lia|]. specialize (IH Hin). lia. }
    split; [done|].
    destruct (counted_foldl no_issues _ _ Hin) as [n Hn].
    pose proof (count_foldl no_issues (issues r) (severity i)) as Hc.
    rewrite Hn in Hc. simpl in Hc. rewrite Hn. f_equal.
    assert (default 0 (no_issues !! severity i) = 0) as H0; [|lia].
    unfold no_issues.
    repeat (rewrite lookup_insert; case_decide; [done|]).
    rewrite lookup_singleton. by case_decide.
Qed.

Lemma issue_of_vars i : issue_of (vars i) = Ok i.
Proof. by destruct i as [? ? [?|] [?|] ? ? [?|] ?]. Qed.

Lemma issues_of_vars l : issues_of (vars <$> l) = Ok l.
Proof.
  induction l as [|i l IH]; [done|].
  cbn [fmap list_fmap issues_of]. fold (fmap (M:=list) vars l).
  rewrite issue_of_vars, IH. done.
Qed.

Lemma from_dict_to_dict r : from_dict (to_dict r) = Ok r.
Proof.
  destruct r as [id path type [m e] found st info].
  unfold to_dict, from_dict. cbn [dict_get String.eqb Ascii.eqb Bool.eqb].
  simpl dict_get. rewrite issues_of_vars. done.
Qed.

(** C6. Deserializing the serialized form of a scan result gives the scan
    result back, with an equal issue list and an equal stats map: always for
    the dictionary form, and for the JSON text whenever [json.loads] reads
    back the document that [json.dumps] wrote. *)
Theorem scan_result_round_trip json_dumps json_loads r :
  from_dict (to_dict r) = Ok r ∧
  (json_loads (json_dumps (to_dict r)) = Ok (to_dict r) →
   ∃ r', from_json json_loads (to_json json_dumps r) = Ok r' ∧
         issues r' = issues r ∧ stats r' = stats r ∧ r' = r).
Proof.
  split; [apply from_dict_to_dict|].
  intros H. exists r. unfold from_json, to_json.
  by rewrite H, bind_Ok, from_dict_to_dict.
Qed.

Lemma scan_result_round_trip_witness :
  Codec.loads (Codec.dumps (to_dict sample_result)) = Ok (to_dict sample_result) ∧
  from_dict (to_dict sample_result) = Ok sample_result ∧
  from_json Codec.loads (to_json Codec.dumps sample_result) = Ok sample_result.
Proof.
  assert (Codec.loads (Codec.dumps (to_dict sample_result))
          = Ok (to_dict sample_result)) as H by (vm_compute; reflexivity).
  destruct (scan_result_round_trip Codec.dumps Codec.loads sample_result)
    as [Hd Hj].
  destruct (Hj H) as (r' & Hr' & _ & _ & ->).
  split; [exact H|]. split; [exact Hd|exact Hr'].
Defined.

Lemma issues_by_severity_total_witness :
  sum_counts (issues_by_severity sample_result) = 1 ∧
  issues_by_severity sample_result !! "blocker" = Some 1 ∧
  issues_by_severity sample_result !! "info" = Some 0.
Proof.
  destruct (issues_by_severity_total sample_result) as (Hsum & _ & Hkey).
  split; [exact Hsum|]. split; [|reflexivity].
  destruct (issues sample_result) as [|i l] eqn:Hi; [discriminate Hi|].
  injection Hi as <- <-.
  exact (proj2 (Hkey _ (list_elem_of_here _ _))).
Defined.

End ScanResult_facts.

(** ** The path filter and the file collector *)

Section Collector_facts.
Import Scanner.

Lemma entry_nested_ind (P : entry → Prop) :
  (∀ name, P (File name)) →
  (∀ name children, Forall P children → P (Dir name children)) →
  ∀ e, P e.
Proof.
  intros Hfile Hdir. fix IH 1. intros [name|name children]; [apply Hfile|].
  apply Hdir. induction children as [|c cs IHcs]; constructor; [apply IH|done].
Qed.

(** *** Strings *)

Lemma append_nil (b : string) : "" +:+ b = b.
Proof. reflexivity. Qed.

Lemma append_cons x (a b : string) : String x a +:+ b = String x (a +:+ b).
Proof. reflexivity. Qed.

Lemma append_assoc (a b c : string) : (a +:+ b) +:+ c = a +:+ (b +:+ c).
Proof.
  induction a as [|x a IH]; [done|]. rewrite !append_cons. by f_equal.
Qed.

Lemma split_char_nonempty c s : split_char c s ≠ [].
Proof.
  destruct s as [|x s]; simpl; [done|].
  destruct (Ascii.eqb x c); [done|]. by destruct (split_char c s).
Qed.

Lemma split_char_app c a b :
  split_char c (a +:+ String c b) = split_char c a ++ split_char c b.
Proof.
  induction a as [|x a IH]; rewrite ?append_nil, ?append_cons; simpl.
  - by rewrite Ascii.eqb_refl.
  - destruct (Ascii.eqb x c); [by rewrite IH|].
    rewrite IH. pose proof (split_char_nonempty c a).
    by destruct (split_char c a).
Qed.

Lemma contains_slash_cons c s :
  contains (String c s) "/" = Ascii.eqb c "/" || contains s "/".
Proof.
  cbn [contains is_prefix]. by rewrite andb_true_r.
Qed.

Lemma split_char_no_slash s : contains s "/" = false → split_char "/" s = [s].
Proof.
  induction s as [|c s IH]; [done|]. rewrite contains_slash_cons.
  intros [Hc Hs]%orb_false_elim. simpl. by rewrite Hc, IH.
Qed.

Lemma leading_slashes_no_slash s : contains s "/" = false → leading_slashes s = 0.
Proof.
  destruct s as [|c s]; [done|]. rewrite contains_slash_cons.
  intros [Hc _]%orb_false_elim. simpl. by rewrite Hc.
Qed.

Lemma endswith_slash a : endswith a "/" = true → ∃ t, a = t +:+ "/".
Proof.
  induction a as [|c a IH]; [done|]. cbn [endswith].
  intros [Heq|Hrec]%orb_true_iff.
  - exists "". apply String.eqb_eq in Heq. by rewrite Heq.
  - destruct (IH Hrec) as [t ->]. by exists (String c t).
Qed.

Lemma leading_slashes_app t x :
  leading_slashes (t +:+ x) =
  if decide (leading_slashes t = String.length t)
  then String.length t + leading_slashes x
  else leading_slashes t.
Proof.
  induction t as [|c t IH]; rewrite ?append_nil, ?append_cons; simpl; [done|].
  destruct (Ascii.eqb c "/"); [|done].
  rewrite IH. repeat case_decide; lia.
Qed.

Lemma all_slashes_ends t :
  leading_slashes t = String.length t → t = "" ∨ endswith t "/" = true.
Proof.
  induction t as [|c t IH]; [by left|]. simpl.
  destruct (Ascii.eqb_spec c "/") as [->|Hne]; [|done].
  intros [= H]. right. destruct (IH H) as [->|Hend]; [done|].
  rewrite Hend. by rewrite orb_true_r.
Qed.

(** *** Paths *)

Lemma valid_name_facts name :
  valid_name name = true →
  name ≠ "" ∧ name ≠ "." ∧ contains name "/" = false.
Proof.
  unfold valid_name. intros [[H1 H2]%andb_true_iff H3]%andb_true_iff.
  apply negb_true_iff in H1, H2, H3.
  apply String.eqb_neq in H1, H2. done.
Qed.

Lemma startswith_no_slash name :
  name ≠ "" → contains name "/" = false → startswith name "/" = false.
Proof.
  destruct name as [|c s]; [done|]. intros _. rewrite contains_slash_cons.
  intros [Hc _]%orb_false_elim. unfold startswith. cbn [is_prefix].
  by rewrite Hc.
Qed.

Lemma parts_filter_snoc (l : list string) name :
  name ≠ "" → name ≠ "." →
  filter (λ x, x ≠ "" ∧ x ≠ ".") (l ++ [name])
  = filter (λ x, x ≠ "" ∧ x ≠ ".") l ++ [name].
Proof. intros. rewrite filter_app, filter_cons_True by done. done. Qed.

(** The parts of a joined path are the parts of the directory followed by the
    name of the entry. *)
Lemma path_parts_join top name :
  valid_name name = true →
  path_parts (os_path_join top name) = path_parts top ++ [name].
Proof.
  intros (Hne & Hdot & Hslash)%valid_name_facts.
  pose proof (split_char_no_slash _ Hslash) as Hsplit.
  pose proof (leading_slashes_no_slash _ Hslash) as Hlead.
  unfold os_path_join. rewrite (startswith_no_slash _ Hne Hslash).
  destruct (String.eqb_spec top "") as [->|Htop]; simpl orb; cbv iota.
  { rewrite append_nil. assert (path_parts "" = []) as -> by reflexivity.
    unfold path_parts, anchor. rewrite Hlead, Hsplit.
    by rewrite filter_cons_True, filter_nil. }
  destruct (endswith top "/") eqn:Hend.
  - destruct (endswith_slash _ Hend) as [t ->].
    unfold path_parts, anchor. rewrite <- app_assoc. f_equal.
    + rewrite leading_slashes_app, Hlead. case_decide as Hall; [|done].
      by rewrite Nat.add_0_r, Hall.
    + rewrite append_assoc, append_cons, append_nil.
      rewrite !split_char_app, Hsplit. cbn [split_char].
      rewrite parts_filter_snoc by done.
      rewrite filter_app, filter_cons_False, filter_nil by tauto.
      by rewrite app_nil_r.
  - unfold path_parts, anchor. rewrite <- app_assoc. f_equal.
    + rewrite leading_slashes_app. case_decide as Hall; [|done].
      destruct (all_slashes_ends _ Hall); congruence.
    + rewrite append_cons, append_nil, split_char_app, Hsplit.
      by apply parts_filter_snoc.
Qed.

(** *** The collector *)

(** A collected path passed the path filter. *)
Lemma walk_passes_filter cfg fs e :
  ∀ top p, p ∈ walk cfg fs top e → _should_exclude_path cfg fs p = false.
Proof.
  induction e as [name|name children IH] using entry_nested_ind;
    intros top p Hin; simpl in Hin.
  - by apply elem_of_nil in Hin.
  - apply elem_of_app in Hin as [Hin|Hin].
    + by apply list_elem_of_filter in Hin as [? _].
    + apply list_elem_of_In, in_flat_map in Hin as (c & Hc & Hp).
      apply list_elem_of_In in Hc.
      rewrite Forall_forall in IH. specialize (IH c Hc).
      destruct c as [f|d sub]; [done|].
      case_bool_decide; [done|]. eapply IH. by apply list_elem_of_In.
Qed.

(** The parts of the path of a file below [e] are the parts of [top], the
    directories on the way down and the name of the file. *)
Lemma files_below_parts e :
  ∀ top ds p, valid_names e = true → (ds, p) ∈ files_below top e →
    ∃ name, path_parts p = path_parts top ++ ds ++ [name].
Proof.
  induction e as [name|name children IH] using entry_nested_ind;
    intros top ds p Hvalid Hin; simpl in Hin.
  - by apply elem_of_nil in Hin.
  - apply list_elem_of_In, in_flat_map in Hin as (c & Hc & Hp).
    simpl in Hvalid. rewrite forallb_forall in Hvalid.
    specialize (Hvalid c Hc). apply list_elem_of_In in Hc.
    rewrite Forall_forall in IH. specialize (IH c Hc).
    destruct c as [f|d sub].
    + destruct Hp as [[= <- <-]|[]]. exists f. by rewrite path_parts_join.
    + apply andb_true_iff in Hvalid as [Hd Hsub].
      apply list_elem_of_In, list_elem_of_fmap in Hp as ([ds' p'] & [= -> ->] & Hin').
      destruct (IH _ _ _ Hsub Hin') as [f Hf]. exists f.
      rewrite Hf, path_parts_join by done. simpl. by rewrite <- app_assoc.
Qed.

Lemma excluded_part_excludes cfg fs p d :
  d ∈ excluded_dirs cfg → d ∈ path_parts p → _should_exclude_path cfg fs p = true.
Proof.
  intros Hd Hp. unfold _should_exclude_path.
  assert (existsb (λ x, bool_decide (x ∈ path_parts p))
                  (elements (excluded_dirs cfg)) = true) as ->; [|done].
  apply existsb_exists. exists d. split.
  - by apply list_elem_of_In, elem_of_elements.
  - by apply bool_decide_eq_true.
Qed.

(** C7. No file located anywhere below a directory whose name is excluded is
    among the collected files, wherever the directory sits: among the
    sub-directories met on the way down ([ds]) or on the root path itself. *)
Theorem excluded_directory_hides_descendants cfg fs path root ds p d :
  valid_names root = true →
  (ds, p) ∈ files_below path root →
  d ∈ excluded_dirs cfg →
  d ∈ ds ∨ d ∈ path_parts path →
  p ∉ _collect_files cfg fs path root.
Proof.
  intros Hvalid Hbelow Hex Hd Hin.
  apply walk_passes_filter in Hin.
  destruct (files_below_parts _ _ _ _ Hvalid Hbelow) as [name Hparts].
  rewrite (excluded_part_excludes cfg fs p d Hex) in Hin; [done|].
  rewrite Hparts, !elem_of_app. tauto.
Qed.

Lemma excluded_directory_hides_descendants_witness :
  valid_names project_tree = true ∧
  (["node_modules"; "lib"], "/proj/node_modules/lib/y.js")
    ∈ files_below "/proj" project_tree ∧
  "node_modules" ∈ excluded_dirs project_config ∧
  ("node_modules" ∈ ["node_modules"; "lib"] ∨ "node_modules" ∈ path_parts "/proj") ∧
  "/proj/node_modules/lib/y.js"
    ∉ _collect_files project_config plain_files "/proj" project_tree.
Proof.
  assert (valid_names project_tree = true) as H1 by reflexivity.
  assert ((["node_modules"; "lib"], "/proj/node_modules/lib/y.js")
            ∈ files_below "/proj" project_tree) as H2.
  { apply (bool_decide_unpack _). vm_compute. exact I. }
  assert ("node_modules" ∈ excluded_dirs project_config) as H3.
  { apply (bool_decide_unpack _). vm_compute. exact I. }
  assert ("node_modules" ∈ ["node_modules"; "lib"] ∨
          "node_modules" ∈ path_parts "/proj") as H4.
  { left. apply list_elem_of_here. }
  split; [exact H1|]. split; [exact H2|]. split; [exact H3|]. split; [exact H4|].
  exact (excluded_directory_hides_descendants project_config plain_files "/proj"
           project_tree _ _ _ H1 H2 H3 H4).
Defined.

(** The collector on the project tree: the dependency directory is pruned and
    the image is filtered out by its extension. *)
Lemma collect_project_tree :
  _collect_files project_config plain_files "/proj" project_tree
  = ["/proj/a.py"; "/proj/src/b.py"].
Proof. vm_compute. reflexivity. Qed.

End Collector_facts.

(** ** The analysis of one file *)

Section Analyzer_facts.
Import Scanner.

(** [_analyze_file_content] returns a list of findings: no exception leaves
    it. *)
Lemma analyze_file_content_no_raise env vulndb file_path content msg :
  _analyze_file_content env vulndb file_path content ≠ Raise msg.
Proof. unfold _analyze_file_content. by destruct (analyze_try _ _ _ _ _). Qed.

(** C4. When the call to the model handler raises, [_analyze_file_content]
    returns the list with the one finding of severity [info] and confidence
    [high] that describes the error, for the file at hand. *)
Theorem analyze_file_content_provider_error env vulndb file_path content e :
  analyze_code env
    (analysis_prompt (get_file_language env file_path) file_path content)
    = Raise e →
  ∃ issue,
    _analyze_file_content env vulndb file_path content = Ok [issue] ∧
    severity issue = "info" ∧ confidence issue = "high" ∧
    Scanner.file_path issue = file_path ∧
    description issue = "API连接错误: " +:+ e.
Proof.
  intros H. exists (api_error_issue file_path e).
  unfold _analyze_file_content, analyze_try. by rewrite H.
Qed.

Lemma analyze_file_content_provider_error_witness :
  analyze_code timeout_env
    (analysis_prompt (get_file_language timeout_env "app.py") "app.py" "import os")
    = Raise "Request timed out." ∧
  ∃ issue,
    _analyze_file_content timeout_env ∅ "app.py" "import os" = Ok [issue] ∧
    severity issue = "info" ∧ confidence issue = "high" ∧
    Scanner.file_path issue = "app.py" ∧
    description issue = "API连接错误: " +:+ "Request timed out.".
Proof.
  split; [reflexivity|].
  exact (analyze_file_content_provider_error timeout_env ∅ "app.py" "import os"
           "Request timed out." eq_refl).
Defined.

End Analyzer_facts.

(** ** The directory scan *)

Section Progress_facts.
Import Scanner.

#[local] Open Scope Z_scope.

Implicit Types (log : list (string * Z)) (hi : Z).

Lemma log_ok_weaken hi hi' log : hi ≤ hi' → log_ok hi log → log_ok hi' log.
Proof. destruct log as [|[m p] log]; simpl; [done|]. intros ? [? ?]. split; [lia|done]. Qed.

Lemma log_ok_record hi hi' message percent log :
  hi ≤ percent → percent ≤ hi' → log_ok hi log →
  log_ok hi' (record_progress message percent log).
Proof.
  intros H1 H2 Hlog. simpl. split; [done|]. by eapply log_ok_weaken.
Qed.

Lemma Sorted_snoc (l : list Z) x :
  Sorted Z.le l → (∀ y, last l = Some y → y ≤ x) → Sorted Z.le (l ++ [x]).
Proof.
  induction l as [|a l IH]; intros Hs Hlast; simpl.
  - repeat constructor.
  - apply Sorted_inv in Hs as [Hs Hhd]. constructor.
    + apply IH; [done|]. intros y Hy. apply Hlast.
      destruct l; [done|]. done.
    + destruct l as [|b l]; simpl.
      * constructor. apply Hlast. done.
      * constructor. by apply HdRel_inv in Hhd.
Qed.

Lemma log_ok_sorted hi log :
  log_ok hi log → Sorted Z.le (reverse (snd <$> log)).
Proof.
  revert hi. induction log as [|[m p] log IH]; intros hi; simpl.
  - constructor.
  - intros [_ Hlog]. rewrite reverse_cons. apply Sorted_snoc.
    + by eapply IH.
    + intros y. rewrite last_reverse.
      destruct log as [|[m' p'] log']; simpl; [done|].
      intros [= <-]. by destruct Hlog.
Qed.

Lemma as_completed_length fuel schedule pending :
  (length (as_completed fuel schedule pending) ≤ fuel)%nat.
Proof.
  revert schedule pending. induction fuel as [|fuel IH]; intros schedule pending;
    cbn [as_completed]; [done|].
  match goal with
  | |- context [pending !! ?i] => destruct (pending !! i) as [file_path|]
  end; cbn [length]; [|lia].
  apply le_n_S, IH.
Qed.


(** The loop keeps the log in order: after [k] more files the last percent is
    [10 + 70 * (completed + k) / total]. *)
Lemma scan_loop_log env total completed done t log :
  (0 < total)%nat →
  log_ok (10 + (70 * Z.of_nat completed) `div` Z.of_nat total) log →
  log_ok (10 + (70 * Z.of_nat (completed + length done)) `div` Z.of_nat total)
         (scan_loop (Some record_progress) env total completed done t log).2.
Proof.
  intros Htotal. revert completed t log.
  induction done as [|f rest IH]; intros completed t log Hlog; cbn [scan_loop length].
  - by rewrite Nat.add_0_r.
  - replace (completed + S (length rest))%nat
      with ((completed + 1) + length rest)%nat by lia.
    apply IH. destruct (0 <? total)%nat eqn:Hpos.
    + unfold notify. eapply log_ok_record; [|reflexivity|exact Hlog].
      apply Z.add_le_mono_l, Z.div_le_mono; lia.
    + apply Nat.ltb_ge in Hpos. lia.
Qed.

Lemma foldl_keep {A B} (w : A) (l : list B) : foldl (λ w _, w) w l = w.
Proof. induction l as [|x l IH]; [done|apply IH]. Qed.

Lemma loop_percent_bound (k total : nat) :
  (0 < total)%nat → (k ≤ total)%nat →
  10 + (70 * Z.of_nat k) `div` Z.of_nat total ≤ 80.
Proof.
  intros Hpos Hle.
  assert ((70 * Z.of_nat k) `div` Z.of_nat total ≤ 70); [|lia].
  apply Z.div_le_upper_bound; lia.
Qed.

(** C9. Within one call of [scan_directory] the percent values passed to the
    progress callback never decrease, whatever the directory holds, in
    whatever order the workers finish and whether or not the collection or
    the project analysis fails. *)
Theorem progress_percent_monotone env dir_path :
  Sorted Z.le (progress_percents env dir_path).
Proof.
  unfold progress_percents. apply (log_ok_sorted 100).
  unfold scan_directory. destruct (isdir env); simpl; [|done].
  destruct (collected env) as [files|e|]; simpl; [| |done].
  - destruct files as [|f files]; [simpl; done|].
    cbn -[as_completed scan_loop Z.div Z.mul Z.add].
    rewrite foldl_keep. set (done := as_completed _ _ _).
    assert (length done ≤ S (length files))%nat as Hdone
      by apply (as_completed_length (S (length files))).
    pose proof (scan_loop_log env (S (length files)) 0 done
                  {| found := []; total_lines := 0; languages := [];
                     file_counts := []; typed := true |}
                  [("找到 " +:+ pretty (S (length files)) +:+ " 个文件需要扫描"%string, 10);
                   ("正在收集文件..."%string, 5)])
      as Hloop.
    destruct (scan_loop _ _ _ _ _ _ _) as [t log] eqn:Hrun. cbn [snd] in Hloop.
    assert (log_ok 80 log) as Hlog.
    { eapply log_ok_weaken; [|apply Hloop; [lia|]].
      - apply loop_percent_bound; lia.
      - cbn [log_ok]. change (Z.of_nat 0) with 0.
        rewrite Z.mul_0_r, Zdiv_0_l. lia. }
    assert (log_ok 90 (record_progress "正在进行项目分析..."%string 90
              (record_progress "正在生成项目统计信息..."%string 85 log))) as H90.
    { simpl. split; [lia|]. split; [lia|]. eapply log_ok_weaken; [|exact Hlog]. lia. }
    unfold notify. cbv beta iota zeta.
    match goal with
    | |- context [generate_project_info env ?s] =>
        destruct (generate_project_info env s) as [info|e|]
    end; cbn [snd scan_failed notify].
    + split; [lia|]. eapply log_ok_weaken; [|exact H90]. lia.
    + split; [lia|]. eapply log_ok_weaken; [|exact H90]. lia.
    + eapply log_ok_weaken; [|exact H90]. lia.
  - lia.
Qed.

(** The percents of a scan of two files. *)
Lemma progress_percents_two_files :
  progress_percents Gui.two_files "/proj" = [5; 10; 45; 80; 85; 90; 95].
Proof. vm_compute. reflexivity. Qed.

End Progress_facts.

(** ** The scan thread and the interruption flag *)

Section ScanDirectory_generic.
Import Scanner.
Context {W : Type}.
Variable callback : option (string → Z → W → W).
Variable submit : string → W → W.
Variable env : scan_env.

(** What holds of the world before the scan and is kept by the callback and
    by the thread pool holds after the scan. *)
Lemma scan_loop_invariant (P : W → Prop) total completed done t w :
  (∀ message percent w, P w → P (notify callback message percent w)) →
  P w → P (scan_loop callback env total completed done t w).2.
Proof.
  intros Hcb. revert completed t w.
  induction done as [|f rest IH]; intros completed t w Hw; cbn [scan_loop]; [done|].
  apply IH. destruct (0 <? total); [by apply Hcb|done].
Qed.

Lemma submit_all_invariant (P : W → Prop) (files : list string) w :
  (∀ file_path w, P w → P (submit file_path w)) →
  P w → P (foldl (λ w file_path, submit file_path w) w files).
Proof.
  intros Hsub. revert w. induction files as [|f files IH]; intros w Hw; simpl; auto.
Qed.

Lemma scan_directory_invariant (P : W → Prop) dir_path w :
  (∀ message percent w, P w → P (notify callback message percent w)) →
  (∀ file_path w, P w → P (submit file_path w)) →
  P w → P (scan_directory callback submit env dir_path w).2.
Proof.
  intros Hcb Hsub Hw. unfold scan_directory.
  destruct (isdir env); cbn [negb]; [|done].
  destruct (collected env) as [files|e|]; cbn [snd scan_failed]; [|by auto|by auto].
  destruct files as [|f files]; [cbn [snd]; by auto|].
  set (w1 := foldl _ _ _).
  assert (P w1) as Hw1 by (apply submit_all_invariant; auto).
  pose proof (scan_loop_invariant P (length (f :: files)) 0
                (as_completed (length (f :: files)) (schedule env) (f :: files))
                {| found := []; total_lines := 0; languages := [];
                   file_counts := []; typed := true |} w1 Hcb Hw1) as Hloop.
  destruct (scan_loop _ _ _ _ _ _ _) as [t w2]. cbn [snd] in Hloop.
  destruct (generate_project_info env _); cbn [snd scan_failed]; auto.
Qed.

(** The returned result does not depend on the callback, on the thread pool
    or on the world. *)
Lemma scan_loop_tally total completed done t w (u : unit) :
  (scan_loop callback env total completed done t w).1
  = (scan_loop None env total completed done t u).1.
Proof.
  revert completed t w u.
  induction done as [|f rest IH]; intros completed t w u; cbn [scan_loop]; [done|].
  apply IH.
Qed.

Lemma scan_directory_result dir_path w :
  (scan_directory callback submit env dir_path w).1 = Gui.scan_outcome env dir_path.
Proof.
  unfold Gui.scan_outcome, scan_directory.
  destruct (isdir env); cbn [negb]; [|done].
  destruct (collected env) as [files|e|]; [|done..].
  destruct files as [|f files]; [done|].
  match goal with
  | |- context [scan_loop None env ?n ?c ?d ?t ?u] =>
      match goal with
      | |- context [scan_loop callback env n c d t ?w] =>
          pose proof (scan_loop_tally n c d t w u) as Hloop;
          destruct (scan_loop callback env n c d t w) as [t1 w1];
          destruct (scan_loop None env n c d t u) as [t2 w2]
      end
  end.
  cbn [fst] in Hloop. subst t2.
  match goal with
  | |- context [generate_project_info env ?s] =>
      destruct (generate_project_info env s)
  end; done.
Qed.

(** The files handed to the thread pool are the collected files. *)
Lemma scan_loop_measure {M} (μ : W → M) total completed done t w :
  (∀ message percent w, μ (notify callback message percent w) = μ w) →
  μ (scan_loop callback env total completed done t w).2 = μ w.
Proof.
  intros Hcb. revert completed t w.
  induction done as [|f rest IH]; intros completed t w; cbn [scan_loop]; [done|].
  rewrite IH. destruct (0 <? total); [apply Hcb|done].
Qed.

Lemma submit_all_measure (μ : W → list string) (files : list string) w :
  (∀ file_path w, μ (submit file_path w) = μ w ++ [file_path]) →
  μ (foldl (λ w file_path, submit file_path w) w files) = μ w ++ files.
Proof.
  intros Hsub. revert w. induction files as [|f files IH]; intros w; simpl.
  - by rewrite app_nil_r.
  - rewrite IH, Hsub, <- app_assoc. done.
Qed.

Lemma scan_directory_measure (μ : W → list string) dir_path w :
  (∀ message percent w, μ (notify callback message percent w) = μ w) →
  (∀ file_path w, μ (submit file_path w) = μ w ++ [file_path]) →
  μ (scan_directory callback submit env dir_path w).2
  = μ w ++ Gui.files_submitted env.
Proof.
  intros Hcb Hsub. unfold scan_directory, Gui.files_submitted.
  destruct (isdir env); cbn [negb]; [|by rewrite app_nil_r].
  destruct (collected env) as [files|e|]; cbn [snd scan_failed];
    rewrite ?Hcb, ?app_nil_r; [|done..].
  destruct files as [|f files]; [cbn [snd]; by rewrite !Hcb, app_nil_r|].
  match goal with
  | |- context [scan_loop callback env ?n ?c ?d ?t ?w] =>
      pose proof (scan_loop_measure μ n c d t w Hcb) as Hloop;
      destruct (scan_loop callback env n c d t w) as [t1 w1]
  end.
  cbn [snd] in Hloop. rewrite submit_all_measure, !Hcb in Hloop by done.
  match goal with
  | |- context [generate_project_info env ?s] =>
      destruct (generate_project_info env s)
  end; cbn [snd scan_failed]; by rewrite ?Hcb.
Qed.

End ScanDirectory_generic.

Section Thread_facts.
Import Scanner Gui.

Variable flag : nat → bool.
Variable env : run_env.

Implicit Types (tr : list action) (st : thread).

#[local] Abbreviation wf := (Gui.wf flag).

Lemma wf_work st call : wf (trace st) → wf (trace (act (Work call) st)).
Proof. done. Qed.

Lemma wf_submit st f : wf (trace st) → wf (trace (act (Submit f) st)).
Proof. done. Qed.

Lemma wf_set_result st r : wf (trace st) → wf (trace (set_result r st)).
Proof. done. Qed.

Lemma wf_check st :
  wf (trace st) →
  wf (trace (isInterruptionRequested flag st).2) ∧
  armed (trace (isInterruptionRequested flag st).2)
    = negb (isInterruptionRequested flag st).1.
Proof. intros H. simpl. done. Qed.

Lemma wf_emit st s :
  wf (trace st) → armed (trace st) = true →
  wf (trace (emit s st)) ∧ armed (trace (emit s st)) = true.
Proof. intros H Ha. simpl. done. Qed.

Lemma wf_progress_update st message percentage :
  wf (trace st) → wf (trace (progress_update flag message percentage st)).
Proof.
  intros H. unfold progress_update.
  destruct (wf_check st H) as [Hwf Harmed].
  destruct (isInterruptionRequested flag st) as [[] st']; cbn [fst snd] in *; [done|].
  by apply wf_emit.
Qed.

Lemma wf_progress_update_adjusted st message percentage :
  wf (trace st) →
  wf (trace (progress_update_adjusted flag env message percentage st)).
Proof.
  intros H. unfold progress_update_adjusted.
  destruct (wf_check st H) as [Hwf Harmed].
  destruct (isInterruptionRequested flag st) as [[] st']; cbn [fst snd] in *; [done|].
  by apply wf_emit.
Qed.

Lemma wf_on_error st e : wf (trace st) → wf (trace (on_error flag e st)).
Proof.
  intros H. unfold on_error.
  destruct (wf_check st H) as [Hwf Harmed].
  destruct (isInterruptionRequested flag st) as [[] st']; cbn [fst snd] in *; [done|].
  by apply wf_emit.
Qed.

Lemma wf_finish st : wf (trace st) → wf (trace (finish flag st)).
Proof.
  intros H. unfold finish.
  destruct (wf_check st H) as [Hwf Harmed].
  destruct (isInterruptionRequested flag st) as [[] st']; cbn [fst snd] in *; [done|].
  destruct (result st') as [r|]; [|by apply wf_on_error].
  destruct (wf_emit st' (scan_progress "扫描完成，正在生成最终报告..." 98) Hwf Harmed)
    as [Hwf' Harmed'].
  by apply wf_emit.
Qed.

Lemma wf_run_scan_directory callback path st :
  (∀ message percentage st, wf (trace st) → wf (trace (callback message percentage st))) →
  wf (trace st) → wf (trace (run_scan_directory env callback path st).2).
Proof.
  intros Hcb H. unfold run_scan_directory.
  apply (scan_directory_invariant _ _ _ (λ st, wf (trace st))); [| |done].
  - intros message percent w Hw. cbn [notify]. by apply Hcb, wf_work.
  - intros f w Hw. by apply wf_submit.
Qed.

Lemma wf_dir_branch path st :
  wf (trace st) → armed (trace st) = true → wf (trace (dir_branch flag env path st)).
Proof.
  intros H Ha. unfold dir_branch.
  destruct (wf_emit st (scan_progress ("正在准备扫描目录: " +:+ path) 0) H Ha)
    as [H1 _].
  pose proof (wf_run_scan_directory (progress_update flag) path _
                (λ m p st, wf_progress_update st m p) H1) as H2.
  destruct (run_scan_directory _ _ _ _) as [r st2]. cbn [snd] in H2.
  assert (wf (trace (let st := set_result r st2 in
                     let '(interrupted, st) := isInterruptionRequested flag st in
                     if interrupted then st else finish flag st))) as Hgo.
  { cbv zeta. destruct (wf_check (set_result r st2) H2) as [Hwf _].
    destruct (isInterruptionRequested flag (set_result r st2)) as [[] st3];
      cbn [fst snd] in *; [done|]. by apply wf_finish. }
  destruct r; [exact Hgo|by apply wf_on_error|exact Hgo].
Qed.

Lemma wf_github_branch path st :
  wf (trace st) → armed (trace st) = true →
  wf (trace (github_branch flag env path st)).
Proof.
  intros H Ha. unfold github_branch.
  destruct (wf_emit st (scan_progress ("正在克隆仓库: " +:+ path) 10) H Ha) as [H1 _].
  set (st1 := act (Work "clone_from") (emit _ st)).
  assert (wf (trace st1)) as Hst1 by done.
  assert (wf (trace (let '(interrupted, st) := isInterruptionRequested flag st1 in
            if interrupted then act (Work "rmtree") st else
            let st := emit (scan_progress "正在扫描仓库内容" 30) st in
            let '(r, st) := run_scan_directory env (progress_update_adjusted flag env)
                              "temp_dir" st in
            let st := act (Work "rmtree") st in
            match r with
            | Raise e => on_error flag e st
            | r => finish flag (set_result r st)
            end))) as Hgo.
  { destruct (wf_check st1 Hst1) as [Hwf Harmed].
    destruct (isInterruptionRequested flag st1) as [[] st2]; cbn [fst snd] in *; [done|].
    destruct (wf_emit st2 (scan_progress "正在扫描仓库内容" 30) Hwf Harmed) as [H2 _].
    pose proof (wf_run_scan_directory (progress_update_adjusted flag env) "temp_dir" _
                  (λ m p st, wf_progress_update_adjusted st m p) H2) as H3.
    destruct (run_scan_directory _ _ _ _) as [r st3]. cbn [snd] in H3.
    destruct r; [by apply wf_finish|by apply wf_on_error|by apply wf_finish]. }
  destruct (clone env); [exact Hgo|by apply wf_on_error|exact Hgo].
Qed.

(** Every run of a scan that is not a single-file scan is well formed. *)
Lemma wf_run scan_type path :
  is_file_scan (lower scan_type) = false →
  wf (trace (run flag env scan_type path)).
Proof.
  intros Hfile. unfold run.
  set (st0 := {| trace := [Work "CodeScanner"]; result := None |}).
  assert (wf (trace st0)) as H0 by done.
  assert (wf (trace (let '(interrupted, st) := isInterruptionRequested flag st0 in
            if interrupted then st
            else if is_file_scan (lower scan_type) then file_branch flag env path st
            else if is_dir_scan (lower scan_type) then dir_branch flag env path st
            else if contains (lower scan_type) "github" then github_branch flag env path st
            else on_error flag ("不支持的扫描类型: " +:+ scan_type) st))) as Hgo.
  { rewrite Hfile. destruct (wf_check st0 H0) as [Hwf Harmed].
    destruct (isInterruptionRequested flag st0) as [[] st1]; cbn [fst snd] in *; [done|].
    destruct (is_dir_scan _); [by apply wf_dir_branch|].
    destruct (contains _ "github"); [by apply wf_github_branch|by apply wf_on_error]. }
  destruct (scanner_init env); [exact Hgo|by apply wf_on_error|exact Hgo].
Qed.

(** *** From the latest-first trace to the history *)

Lemma armed_after_snoc a h x :
  armed_after a (h ++ [x]) =
  match x with
  | Check interrupted => negb interrupted
  | Emit _ => armed_after a h
  | _ => false
  end.
Proof.
  revert a. induction h as [|y h IH]; intros a; simpl; [by destruct x|].
  destruct y; apply IH.
Qed.

Lemma guarded_snoc a h x :
  guarded a (h ++ [x]) =
  guarded a h && match x with Emit _ => armed_after a h | _ => true end.
Proof.
  revert a. induction h as [|y h IH]; intros a; simpl.
  - destruct x; simpl; by rewrite ?andb_true_r.
  - destruct y; rewrite IH; simpl; by rewrite ?andb_assoc.
Qed.

Lemma armed_reverse tr : armed_after false (reverse tr) = armed tr.
Proof.
  induction tr as [|x tr IH]; [done|].
  rewrite reverse_cons, armed_after_snoc. by destruct x.
Qed.

Lemma wf_guarded tr : wf tr → guarded false (reverse tr) = true.
Proof.
  induction tr as [|x tr IH]; [done|]. intros H.
  rewrite reverse_cons, guarded_snoc, armed_reverse.
  destruct x; simpl in H; rewrite ?IH; by destruct_and?.
Qed.

Lemma wf_app tr1 tr2 : wf (tr1 ++ tr2) → wf tr2.
Proof.
  induction tr1 as [|x tr1 IH]; [done|]. simpl.
  destruct x; intros H; apply IH; by destruct_and?.
Qed.

(** Under a sticky flag, nothing is armed once a reading found the flag
    set. *)
Lemma flagged_not_armed tr :
  sticky flag → wf tr → Check true ∈ tr → armed tr = false.
Proof.
  intros Hsticky. induction tr as [|x tr IH]; intros Hwf Hin.
  - by apply elem_of_nil in Hin.
  - destruct x as [b|s|f|c]; simpl in *; [| |done..].
    + destruct Hwf as [-> Hwf].
      apply elem_of_cons in Hin as [[= <-]|Hin]; [done|].
      apply list_elem_of_split in Hin as (newer & older & ->).
      pose proof (wf_app _ _ Hwf) as [Hflag _]. simpl in Hflag.
      rewrite (Hsticky (length older) (length (newer ++ Check true :: older)));
        [done| |done].
      rewrite length_app. simpl. lia.
    + destruct Hwf as [Harmed Hwf].
      apply elem_of_cons in Hin as [[=]|Hin]. rewrite IH in Harmed; done.
Qed.

Lemma wf_quiet tr : sticky flag → wf tr → quiet_after_flag (reverse tr).
Proof.
  intros Hsticky Hwf before after a Heq Hin.
  assert (tr = reverse after ++ Check true :: reverse before) as ->.
  { rewrite <- (reverse_involutive tr), Heq, reverse_app, reverse_cons.
    by rewrite <- app_assoc. }
  apply elem_of_reverse_2 in Hin. revert Hwf Hin.
  generalize (reverse after) as newer. clear Heq.
  induction newer as [|x newer IH]; intros Hwf Hin.
  - by apply elem_of_nil in Hin.
  - apply elem_of_cons in Hin as [->|Hin].
    + destruct x as [b|s|f|c]; [done| |done..].
      simpl in Hwf. destruct Hwf as [Harmed Hwf].
      rewrite flagged_not_armed in Harmed; [done..|].
      apply elem_of_app. right. apply list_elem_of_here.
    + apply IH; [|done]. simpl in Hwf. destruct x; by destruct_and?.
Qed.

(** *** What the thread computes *)

Lemma submitted_act a st :
  submitted (history (act a st)) =
  submitted (history st) ++ match a with Submit f => [f] | _ => [] end.
Proof.
  unfold history, submitted. simpl. rewrite reverse_cons, omap_app.
  destruct a; simpl; by rewrite ?app_nil_r.
Qed.

Lemma observed_check st : observed (isInterruptionRequested flag st).2 = observed st.
Proof.
  unfold observed, isInterruptionRequested. cbn [snd].
  by rewrite submitted_act, app_nil_r.
Qed.

Lemma observed_emit s st : observed (emit s st) = observed st.
Proof. unfold observed, emit. by rewrite submitted_act, app_nil_r. Qed.

Lemma observed_on_error e st : observed (on_error flag e st) = observed st.
Proof.
  unfold on_error. pose proof (observed_check st) as H.
  destruct (isInterruptionRequested flag st) as [[] st']; cbn [snd] in H; [done|].
  by rewrite observed_emit.
Qed.

Lemma observed_finish st : observed (finish flag st) = observed st.
Proof.
  unfold finish. pose proof (observed_check st) as H.
  destruct (isInterruptionRequested flag st) as [[] st']; cbn [snd] in H; [done|].
  destruct (result st'); by rewrite ?observed_on_error, ?observed_emit.
Qed.

Lemma submitted_progress_update message percentage st :
  submitted (history (progress_update flag message percentage st))
  = submitted (history st).
Proof.
  unfold progress_update. pose proof (observed_check st) as H.
  destruct (isInterruptionRequested flag st) as [[] st']; cbn [snd] in H.
  - by injection H.
  - unfold emit. rewrite submitted_act, app_nil_r. by injection H.
Qed.

Lemma result_progress_update message percentage st :
  result (progress_update flag message percentage st) = result st.
Proof.
  unfold progress_update, isInterruptionRequested. by destruct (flag _).
Qed.

Lemma run_scan_directory_result callback path st :
  (run_scan_directory env callback path st).1 = scan_outcome (dir_scan env) path.
Proof. apply scan_directory_result. Qed.

Lemma run_scan_directory_submitted callback path st :
  (∀ message percentage st,
     submitted (history (callback message percentage st)) = submitted (history st)) →
  submitted (history (run_scan_directory env callback path st).2)
  = submitted (history st) ++ files_submitted (dir_scan env).
Proof.
  intros Hcb. unfold run_scan_directory.
  apply (scan_directory_measure _ _ _ (λ st, submitted (history st))).
  - intros message percent w. cbn [notify]. by rewrite Hcb, submitted_act, app_nil_r.
  - intros f w. apply submitted_act.
Qed.

Lemma run_scan_directory_no_result callback path st :
  (∀ message percentage st, result (callback message percentage st) = result st) →
  result st = None →
  result (run_scan_directory env callback path st).2 = None.
Proof.
  intros Hcb Hres. unfold run_scan_directory.
  apply (scan_directory_invariant _ _ _ (λ st, result st = None)); [| |done].
  - intros message percent w Hw. cbn [notify]. by rewrite Hcb.
  - done.
Qed.

(** The directory branch scans every collected file and keeps the scanner's
    result, whatever the flag does meanwhile. *)
Lemma observed_dir_branch path st :
  result st = None →
  observed (dir_branch flag env path st) =
  (match scan_outcome (dir_scan env) path with
   | Raise _ => None
   | r => Some r
   end,
   submitted (history st) ++ files_submitted (dir_scan env)).
Proof.
  intros Hres. unfold dir_branch.
  set (st1 := emit (scan_progress ("正在准备扫描目录: " +:+ path) 0) st).
  pose proof (run_scan_directory_result (progress_update flag) path st1) as Hr.
  pose proof (run_scan_directory_submitted (progress_update flag) path st1
                (λ m p st, submitted_progress_update m p st)) as Hsub.
  pose proof (run_scan_directory_no_result (progress_update flag) path st1
                (λ m p st, result_progress_update m p st) Hres) as Hnone.
  destruct (run_scan_directory _ _ _ _) as [r st2]. cbn [fst snd] in Hr, Hsub, Hnone.
  rewrite <- Hr.
  assert (submitted (history st1) = submitted (history st)) as Hst1
    by (unfold st1, emit; by rewrite submitted_act, app_nil_r).
  rewrite Hst1 in Hsub.
  assert (observed (let st := set_result r st2 in
                    let '(interrupted, st) := isInterruptionRequested flag st in
                    if interrupted then st else finish flag st)
          = (Some r, submitted (history st) ++ files_submitted (dir_scan env))) as Hgo.
  { cbv zeta. pose proof (observed_check (set_result r st2)) as Hc.
    destruct (isInterruptionRequested flag (set_result r st2)) as [[] st3];
      cbn [snd] in Hc; rewrite ?observed_finish, Hc; unfold observed;
      by rewrite <- Hsub. }
  destruct r; [exact Hgo| |exact Hgo].
  rewrite observed_on_error. unfold observed. by rewrite Hnone, Hsub.
Qed.

Lemma observed_run_dir scan_type path :
  is_file_scan (lower scan_type) = false →
  is_dir_scan (lower scan_type) = true →
  flag 1 = false →
  (∀ e, scanner_init env ≠ Raise e) →
  observed (run flag env scan_type path) =
  (match scan_outcome (dir_scan env) path with
   | Raise _ => None
   | r => Some r
   end,
   files_submitted (dir_scan env)).
Proof.
  intros Hfile Hdir Hflag Hinit. unfold run.
  assert (observed (let '(interrupted, st) :=
              isInterruptionRequested flag {| trace := [Work "CodeScanner"]; result := None |} in
            if interrupted then st
            else if is_file_scan (lower scan_type) then file_branch flag env path st
            else if is_dir_scan (lower scan_type) then dir_branch flag env path st
            else if contains (lower scan_type) "github" then github_branch flag env path st
            else on_error flag ("不支持的扫描类型: " +:+ scan_type) st)
          = (match scan_outcome (dir_scan env) path with
             | Raise _ => None
             | r => Some r
             end, files_submitted (dir_scan env))) as Hgo.
  { unfold isInterruptionRequested. cbn [trace length]. rewrite Hflag, Hfile, Hdir.
    by rewrite observed_dir_branch. }
  destruct (scanner_init env) as [?|e|]; [exact Hgo| |exact Hgo].
  by destruct (Hinit e).
Qed.

End Thread_facts.

(** A flag that is set from some time on stays set. *)
Lemma set_from_sticky t : Gui.sticky (Gui.set_from t).
Proof.
  intros n m Hle. unfold Gui.set_from. rewrite !Nat.leb_le. lia.
Qed.

Section Thread_claims.
Import Scanner Gui.

(** The flag is found set while the files are collected, and the two files
    are handed to the thread pool all the same: the scan consults the flag
    before it emits, never before it dispatches. *)
Lemma scan_thread_dispatch_counterexample :
  sticky (set_from 3) ∧
  ¬ idle_after_flag (history (run (set_from 3) two_files_run "directory" "/proj")).
Proof.
  split; [apply set_from_sticky|]. intros Hidle.
  destruct (Hidle
    [Work "CodeScanner"; Check false;
     Emit (scan_progress "正在准备扫描目录: /proj" 0); Work "scan_directory"]
    [Work "scan_directory"; Check true; Submit "/proj/a.py"; Submit "/proj/b.py";
     Work "scan_directory"; Check true; Work "scan_directory"; Check true;
     Work "scan_directory"; Check true; Work "scan_directory"; Check true;
     Work "scan_directory"; Check true; Check true]
    (Submit "/proj/a.py")) as [_ Hsub].
  - vm_compute. reflexivity.
  - do 2 apply list_elem_of_further. apply list_elem_of_here.
  - discriminate Hsub.
Qed.

(** C8 (amended). In a directory scan every signal is emitted right after a
    reading of the interruption flag that found it unset; once a reading has
    found the flag set no further signal is emitted; and the scanner still
    hands every collected file to its workers and returns their merged
    result, whatever the flag does after the scan has started. *)
Theorem scan_thread_interruption flag env scan_type path :
  is_file_scan (lower scan_type) = false →
  is_dir_scan (lower scan_type) = true →
  guarded false (history (run flag env scan_type path)) = true ∧
  (sticky flag → quiet_after_flag (history (run flag env scan_type path))) ∧
  (flag 1 = false → (∀ e, scanner_init env ≠ Raise e) →
   result (run flag env scan_type path)
     = match scan_outcome (dir_scan env) path with
       | Raise _ => None
       | r => Some r
       end ∧
   submitted (history (run flag env scan_type path)) = files_submitted (dir_scan env)).
Proof.
  intros Hfile Hdir.
  pose proof (wf_run flag env scan_type path Hfile) as Hwf.
  split; [by apply (wf_guarded flag)|]. split.
  - intros Hsticky. by apply (wf_quiet flag).
  - intros Hflag Hinit.
    pose proof (observed_run_dir flag env scan_type path Hfile Hdir Hflag Hinit) as H.
    unfold observed in H. by injection H.
Qed.

Lemma scan_thread_interruption_witness :
  is_file_scan (lower "Directory") = false ∧
  is_dir_scan (lower "Directory") = true ∧
  sticky (set_from 3) ∧
  set_from 3 1 = false ∧
  (∀ e, scanner_init two_files_run ≠ Raise e) ∧
  guarded false (history (run (set_from 3) two_files_run "Directory" "/proj")) = true ∧
  quiet_after_flag (history (run (set_from 3) two_files_run "Directory" "/proj")) ∧
  submitted (history (run (set_from 3) two_files_run "Directory" "/proj"))
    = ["/proj/a.py"; "/proj/b.py"].
Proof.
  assert (is_file_scan (lower "Directory") = false) as H1 by reflexivity.
  assert (is_dir_scan (lower "Directory") = true) as H2 by reflexivity.
  assert (set_from 3 1 = false) as H3 by reflexivity.
  assert (∀ e, scanner_init two_files_run ≠ Raise e) as H4 by discriminate.
  destruct (scan_thread_interruption (set_from 3) two_files_run "Directory" "/proj"
              H1 H2) as (Hg & Hq & Hr).
  destruct (Hr H3 H4) as [_ Hs].
  repeat split; try assumption.
  - apply set_from_sticky.
  - apply Hq, set_from_sticky.
Defined.

End Thread_claims.

(** ** More on the merge *)

Section Merge_facts.
Import VulnDB Cli.

Implicit Types (bucket : list rule) (ids : gmap string nat) (r : rule)
               (pats : patterns).

#[local] Arguments merge_lang : simpl never.

Lemma total_rules_insert pats lang bucket :
  pats !! lang = None →
  total_rules (<[lang := bucket]> pats) = length bucket + total_rules pats.
Proof.
  intros H. unfold total_rules.
  rewrite map_fold_insert_L; [done| |done]. intros. lia.
Qed.

Lemma total_rules_delete pats lang :
  total_rules pats = length (bucket_of pats lang) + total_rules (delete lang pats).
Proof.
  unfold bucket_of. destruct (pats !! lang) as [b|] eqn:H; simpl.
  - rewrite <- (insert_delete_id pats lang b H) at 1.
    apply total_rules_insert, lookup_delete_eq.
  - by rewrite delete_id.
Qed.

Lemma total_rules_merged pats lang bucket :
  total_rules (match bucket with
               | [] => delete lang pats
               | _ :: _ => <[lang := bucket]> pats
               end) + length (bucket_of pats lang)
  = total_rules pats + length bucket.
Proof.
  rewrite (total_rules_delete pats lang). destruct bucket as [|r b]; simpl; [lia|].
  rewrite <- insert_delete_eq, total_rules_insert by apply lookup_delete_eq.
  simpl. lia.
Qed.

(** One step of the bucket loop keeps the positions and the ids of the rules
    it finds, and counts exactly the rules it appends. *)
Lemma merge_rule_step lang ids st r :
  ids_ok ids st.1 →
  ∃ st', merge_rule lang ids st r = Ok st' ∧ ids_ok ids st'.1 ∧
    length st'.1 + st.2 = length st.1 + st'.2 ∧ st'.2 ≤ st.2 + 1 ∧
    rule_id <$> take (length st.1) st'.1 = rule_id <$> st.1.
Proof.
  intros Hok. pose proof (merge_rule_cases lang ids st r Hok) as H. simpl in H.
  destruct (ids !! rule_id (effective lang st r)) as [index|].
  - destruct H as (old & Hl & Hid & ->). eexists. split; [done|]. simpl.
    destruct (_ && _).
    + split; [by eapply ids_ok_insert|].
      rewrite length_insert. split; [done|]. split; [lia|].
      rewrite <- (length_insert st.1 index (effective lang st r)) at 1.
      rewrite firstn_all, list_fmap_insert.
      apply list_insert_id. rewrite list_lookup_fmap, Hl. simpl. congruence.
    + split; [done|]. split; [done|]. split; [lia|]. by rewrite firstn_all.
  - rewrite H. eexists. split; [done|]. simpl.
    split; [by apply ids_ok_app|]. rewrite length_app. simpl.
    split; [lia|]. split; [lia|]. by rewrite take_app_length.
Qed.

Lemma merge_bucket_steps lang ids st rules :
  ids_ok ids st.1 →
  ∃ st', merge_bucket lang ids st rules = Ok st' ∧
    length st'.1 + st.2 = length st.1 + st'.2 ∧ st'.2 ≤ st.2 + length rules ∧
    rule_id <$> take (length st.1) st'.1 = rule_id <$> st.1.
Proof.
  revert st. induction rules as [|r rest IH]; intros st Hok; simpl.
  - exists st. split; [done|]. split; [done|]. split; [lia|]. by rewrite firstn_all.
  - destruct (merge_rule_step lang ids st r Hok)
      as (st1 & -> & Hok1 & Hlen1 & Hle1 & Hids1).
    simpl. destruct (IH st1 Hok1) as (st2 & -> & Hlen2 & Hle2 & Hids2).
    exists st2. split; [done|]. split; [lia|]. split; [lia|].
    assert (length st.1 ≤ length st1.1) as Hle.
    { apply (f_equal length) in Hids1. rewrite !length_fmap, length_take in Hids1. lia. }
    rewrite <- Hids1.
    replace (take (length st.1) st2.1)
      with (take (length st.1) (take (length st1.1) st2.1))
      by (rewrite take_take; f_equal; lia).
    rewrite fmap_take, Hids2. by rewrite fmap_take.
Qed.

(** One language of the batch: the other buckets are not touched, the bucket
    of the language keeps what it held and is not left empty. *)
Lemma merge_lang_steps pats t lang rules :
  ∃ pats1 n, merge_lang (pats, t) (lang, rules) = Ok (pats1, n) ∧
    total_rules pats1 + t = total_rules pats + n ∧ n ≤ t + length rules ∧
    (∀ l, l ≠ lang → pats1 !! l = pats !! l) ∧
    rule_id <$> take (length (bucket_of pats lang)) (bucket_of pats1 lang)
      = rule_id <$> bucket_of pats lang ∧
    pats1 !! lang ≠ Some [].
Proof.
  rewrite merge_lang_unfold.
  destruct (merge_bucket_steps lang (existing_ids (bucket_of pats lang))
              (bucket_of pats lang, t) rules) as ([b n] & -> & Hlen & Hle & Hids).
  { apply existing_ids_ok. }
  simpl in *. eexists _, _. split; [done|].
  pose proof (total_rules_merged pats lang b) as Htot.
  split; [lia|]. split; [lia|]. split; [|split].
  - intros l Hne. destruct b; by rewrite ?lookup_delete_ne, ?lookup_insert_ne.
  - by rewrite bucket_of_merged.
  - destruct b; by rewrite ?lookup_delete_eq, ?lookup_insert_eq.
Qed.

Lemma merge_langs_steps pats t new_rules :
  ∃ pats' n, merge_langs (pats, t) new_rules = Ok (pats', n) ∧
    total_rules pats' + t = total_rules pats + n ∧
    n ≤ t + length (mjoin (snd <$> new_rules)) ∧
    (∀ l, l ∉ new_rules.*1 → pats' !! l = pats !! l) ∧
    (∀ l, rule_id <$> take (length (bucket_of pats l)) (bucket_of pats' l)
          = rule_id <$> bucket_of pats l) ∧
    (∀ l, pats' !! l = Some [] → pats !! l = Some [] ∧ l ∉ new_rules.*1).
Proof.
  revert pats t. induction new_rules as [|[lang rules] rest IH]; intros pats t.
  - exists pats, t. simpl. split; [done|]. split; [done|]. split; [lia|].
    split; [done|]. split; [intros l; by rewrite firstn_all|].
    intros l H. split; [done|]. apply not_elem_of_nil.
  - cbn [merge_langs].
    destruct (merge_lang_steps pats t lang rules)
      as (pats1 & n1 & -> & Htot1 & Hle1 & Hother1 & Hids1 & Hne1).
    rewrite bind_Ok.
    destruct (IH pats1 n1) as (pats2 & n2 & -> & Htot2 & Hle2 & Hother2 & Hids2 & Hne2).
    exists pats2, n2. split; [done|]. split; [lia|]. split.
    { change (mjoin (((lang, rules) :: rest).*2)) with (rules ++ mjoin rest.*2).
      rewrite length_app. lia. }
    split; [|split].
    + intros l Hl. cbn [fmap list_fmap fst] in Hl.
      apply not_elem_of_cons in Hl as [Hl1 Hl2].
      rewrite Hother2 by exact Hl2. by apply Hother1.
    + intros l.
      assert (rule_id <$> take (length (bucket_of pats l)) (bucket_of pats1 l)
              = rule_id <$> bucket_of pats l) as Hstep.
      { destruct (decide (l = lang)) as [->|Hne]; [done|].
        unfold bucket_of. rewrite (Hother1 l Hne). by rewrite firstn_all. }
      assert (length (bucket_of pats l) ≤ length (bucket_of pats1 l)) as Hlen.
      { apply (f_equal length) in Hstep.
        rewrite !length_fmap, length_take in Hstep. lia. }
      rewrite <- Hstep.
      replace (take (length (bucket_of pats l)) (bucket_of pats2 l))
        with (take (length (bucket_of pats l))
                (take (length (bucket_of pats1 l)) (bucket_of pats2 l)))
        by (rewrite take_take; f_equal; lia).
      rewrite fmap_take, Hids2. by rewrite fmap_take.
    + intros l Hl. destruct (Hne2 l Hl) as [Hl1 Hrest].
      destruct (decide (l = lang)) as [->|Hne]; [done|].
      rewrite (Hother1 l Hne) in Hl1. split; [done|].
      cbn [fmap list_fmap fst]. by apply not_elem_of_cons.
Qed.

(** X1. [_merge_rules] always returns a count, and the count is the growth
    of the number of stored rules: every counted rule was appended, every
    appended rule was counted, and no more rules are counted than came in. *)
Theorem merge_rules_count_is_growth pats new_rules :
  ∃ pats' n, _merge_rules pats new_rules = Ok (pats', n) ∧
    total_rules pats' = total_rules pats + n ∧
    n ≤ length (mjoin (snd <$> new_rules)).
Proof.
  destruct (merge_langs_steps pats 0 new_rules) as (pats' & n & H & Htot & Hle & _).
  exists pats', n. split; [exact H|]. split; lia.
Qed.

(** X2. A merge never removes a stored rule and never moves one: a bucket
    keeps, at every position it had, a rule with the id it had there, and a
    language that the batch does not name keeps its bucket as it was. *)
Theorem merge_rules_keeps_stored_rules pats new_rules :
  ∃ pats' n, _merge_rules pats new_rules = Ok (pats', n) ∧
    (∀ lang i old, bucket_of pats lang !! i = Some old →
       ∃ new, bucket_of pats' lang !! i = Some new ∧ rule_id new = rule_id old) ∧
    (∀ lang, lang ∉ new_rules.*1 → pats' !! lang = pats !! lang).
Proof.
  destruct (merge_langs_steps pats 0 new_rules)
    as (pats' & n & H & _ & _ & Hother & Hids & _).
  exists pats', n. split; [exact H|]. split; [|exact Hother].
  intros lang i old Hold. specialize (Hids lang).
  apply (f_equal (λ l, l !! i)) in Hids.
  rewrite !list_lookup_fmap, Hold in Hids. simpl in Hids.
  destruct (take _ _ !! i) as [new|] eqn:Hnew; [|discriminate Hids].
  apply lookup_take_Some in Hnew as [Hnew _].
  exists new. split; [done|]. simpl in Hids. congruence.
Qed.

(** X3. A merge leaves no empty bucket behind: a bucket that is empty after
    the merge was empty before and is not named by the batch.  So a store
    without empty buckets stays one. *)
Theorem merge_rules_no_empty_bucket pats new_rules :
  ∃ pats' n, _merge_rules pats new_rules = Ok (pats', n) ∧
    (∀ lang, pats' !! lang = Some [] → pats !! lang = Some [] ∧ lang ∉ new_rules.*1) ∧
    ((∀ lang bucket, pats !! lang = Some bucket → bucket ≠ []) →
     ∀ lang bucket, pats' !! lang = Some bucket → bucket ≠ []).
Proof.
  destruct (merge_langs_steps pats 0 new_rules)
    as (pats' & n & H & _ & _ & _ & _ & Hne).
  exists pats', n. split; [exact H|]. split; [exact Hne|].
  intros Hpats lang bucket Hl ->. destruct (Hne lang Hl) as [Hl0 _].
  by apply (Hpats lang []).
Qed.

(** The bucket loop on rules with distinct, non-empty ids: [seen] holds the
    ids appended so far. *)
Lemma merge_bucket_unique lang ids st rules (seen : list string) :
  ids_ok ids st.1 → unique_ids st.1 →
  (∀ k, k ∈ rule_id <$> st.1 → is_Some (ids !! k) ∨ k ∈ seen) →
  NoDup (rule_id <$> rules) → "" ∉ rule_id <$> rules →
  (∀ k, k ∈ seen → k ∉ rule_id <$> rules) →
  ∃ st', merge_bucket lang ids st rules = Ok st' ∧ unique_ids st'.1.
Proof.
  revert st seen.
  induction rules as [|r rest IH]; intros st seen Hok Hnd Hkeys Hrules Hne Hseen.
  - exists st. by split.
  - cbn [merge_bucket]. cbn [fmap list_fmap] in Hrules, Hne, Hseen.
    apply NoDup_cons in Hrules as [Hr Hrest].
    apply not_elem_of_cons in Hne as [Hr0 Hne].
    pose proof (merge_rule_cases lang ids st r Hok) as Hstep. simpl in Hstep.
    rewrite (effective_id_nonempty lang st r) in Hstep by done.
    destruct (ids !! rule_id r) as [index|] eqn:Hidx.
    + destruct Hstep as (old & Hold & Hid & ->). rewrite bind_Ok.
      assert (rule_id <$> (if truthy (rule_pattern r)
                              && bool_decide (rule_pattern r ≠ rule_pattern old)
                           then <[index := r]> st.1 else st.1)
              = rule_id <$> st.1) as Hsame.
      { destruct (_ && _); [|done]. rewrite list_fmap_insert.
        apply list_insert_id. rewrite list_lookup_fmap, Hold. simpl. congruence. }
      apply (IH _ seen); simpl.
      * destruct (_ && _); [by eapply ids_ok_insert|done].
      * unfold unique_ids. by rewrite Hsame.
      * by rewrite Hsame.
      * done.
      * done.
      * intros k Hk. specialize (Hseen k Hk). by apply not_elem_of_cons in Hseen as [_ ?].
    + rewrite Hstep, bind_Ok.
      assert (rule_id r ∉ rule_id <$> st.1) as Hfresh.
      { intros Hin. destruct (Hkeys _ Hin) as [[? Hsome]|Hin'].
        - congruence.
        - apply (Hseen _ Hin'), list_elem_of_here. }
      apply (IH _ (rule_id r :: seen)); simpl.
      * by apply ids_ok_app.
      * unfold unique_ids. rewrite fmap_app. apply NoDup_app. split; [done|].
        split; [|apply NoDup_singleton].
        intros k Hk ->%list_elem_of_singleton. done.
      * intros k. rewrite fmap_app, elem_of_app. intros [Hk|Hk].
        -- destruct (Hkeys k Hk); [by left|right; by apply list_elem_of_further].
        -- apply list_elem_of_singleton in Hk as ->. right. apply list_elem_of_here.
      * done.
      * done.
      * intros k [->|Hk]%elem_of_cons; [done|].
        specialize (Hseen k Hk). by apply not_elem_of_cons in Hseen as [_ ?].
Qed.

(** X4. The id invariant survives a merge whose incoming rules carry
    non-empty ids that are distinct within each language of the batch: the
    store then keeps unique ids in every bucket and has no empty bucket. *)
Theorem merge_rules_keeps_store_ok pats new_rules :
  store_ok pats →
  (∀ lang rules, (lang, rules) ∈ new_rules →
     NoDup (rule_id <$> rules) ∧ "" ∉ rule_id <$> rules) →
  ∃ pats' n, _merge_rules pats new_rules = Ok (pats', n) ∧ store_ok pats'.
Proof.
  unfold _merge_rules. generalize 0 as t. revert pats.
  induction new_rules as [|[lang rules] rest IH]; intros pats t Hstore Hbatch.
  - exists pats, t. by split.
  - cbn [merge_langs].
    assert (∃ pats1 n1, merge_lang (pats, t) (lang, rules) = Ok (pats1, n1) ∧
                        store_ok pats1) as (pats1 & n1 & -> & Hstore1).
    { destruct (merge_lang_steps pats t lang rules)
        as (pats1 & n1 & Hm & _ & _ & Hother & _ & Hne).
      exists pats1, n1. split; [exact Hm|].
      apply merge_lang_inv in Hm as Hb.
      destruct (Hbatch lang rules) as [Hnd Hempty]; [apply list_elem_of_here|].
      destruct (merge_bucket_unique lang (existing_ids (bucket_of pats lang))
                  (bucket_of pats lang, t) rules [])
        as (st' & Hst' & Huniq); simpl.
      - apply existing_ids_ok.
      - unfold bucket_of. destruct (pats !! lang) as [b|] eqn:Hl; simpl.
        + by destruct (Hstore _ _ Hl).
        + apply NoDup_nil_2.
      - intros k Hk. left. by apply existing_ids_is_Some.
      - done.
      - done.
      - intros k Hk. by apply elem_of_nil in Hk.
      - rewrite Hb in Hst'. injection Hst' as <-. simpl in Huniq.
        intros l b Hl. destruct (decide (l = lang)) as [->|Hneq].
        + split; [intros ->; by apply Hne|].
          unfold bucket_of in Huniq. by rewrite Hl in Huniq.
        + rewrite (Hother l Hneq) in Hl. by apply (Hstore l). }
    rewrite bind_Ok. apply IH; [done|].
    intros l rs Hin. apply (Hbatch l rs). by apply list_elem_of_further.
Qed.

Lemma merge_rules_keeps_store_ok_witness :
  store_ok (py_store [rule_a_x; rule_b]) ∧
  (∀ lang rules, (lang, rules) ∈ fresh_batch →
     NoDup (rule_id <$> rules) ∧ "" ∉ rule_id <$> rules) ∧
  ∃ pats' n,
    _merge_rules (py_store [rule_a_x; rule_b]) fresh_batch = Ok (pats', n) ∧
    store_ok pats'.
Proof.
  assert (store_ok (py_store [rule_a_x; rule_b])) as Hs.
  { unfold py_store. intros lang bucket [_ <-]%lookup_singleton_Some.
    split; [discriminate|]. unfold unique_ids. simpl.
    apply NoDup_cons. split; [|apply NoDup_singleton].
    intros H%list_elem_of_singleton. discriminate H. }
  assert (∀ lang rules, (lang, rules) ∈ fresh_batch →
            NoDup (rule_id <$> rules) ∧ "" ∉ rule_id <$> rules) as Hb.
  { intros lang rules Hin. unfold fresh_batch in Hin.
    apply elem_of_cons in Hin as [[= -> ->]|Hin].
    - simpl. split.
      + apply NoDup_cons. split; [|apply NoDup_singleton].
        intros H%list_elem_of_singleton. discriminate H.
      + intros [H|H%list_elem_of_singleton]%elem_of_cons; discriminate H.
    - apply list_elem_of_singleton in Hin as [= -> ->]. simpl. split.
      + apply NoDup_singleton.
      + intros H%list_elem_of_singleton. discriminate H. }
  split; [exact Hs|]. split; [exact Hb|].
  exact (merge_rules_keeps_store_ok (py_store [rule_a_x; rule_b]) fresh_batch Hs Hb).
Defined.

End Merge_facts.

(** ** Languages and extensions *)

Section Utils_facts.
Import Scanner Utils.

Implicit Types (s t : string) (c : ascii).

Lemma contains_char_cons c x s :
  contains (String x s) (String c "") = Ascii.eqb x c || contains s (String c "").
Proof. cbn [contains is_prefix]. by rewrite andb_true_r. Qed.

Lemma contains_char_app c s t :
  contains (s +:+ t) (String c "")
  = contains s (String c "") || contains t (String c "").
Proof.
  induction s as [|x s IH]; rewrite ?append_nil, ?append_cons.
  - by destruct t.
  - by rewrite !contains_char_cons, IH, orb_assoc.
Qed.

Lemma split_char_absent c s :
  contains s (String c "") = false → split_char c s = [s].
Proof.
  induction s as [|x s IH]; [done|]. rewrite contains_char_cons.
  intros [Hx Hs]%orb_false_elim. simpl. by rewrite Hx, IH.
Qed.

Lemma basename_join dir name :
  dir = "" ∨ endswith dir "/" = true → contains name "/" = false →
  basename (dir +:+ name) = name.
Proof.
  intros Hdir Hname. unfold basename.
  destruct Hdir as [->|[t ->]%endswith_slash].
  - by rewrite append_nil, (split_char_absent "/" name).
  - rewrite append_assoc, append_cons, append_nil, split_char_app.
    by rewrite (split_char_absent "/" name), last_snoc.
Qed.

Lemma lstrip_dots_app s t :
  lstrip_dots s ≠ "" → lstrip_dots (s +:+ t) = lstrip_dots s +:+ t.
Proof.
  induction s as [|x s IH]; [done|]. rewrite append_cons. simpl.
  destruct (Ascii.eqb x "."); [apply IH|]. intros _. by rewrite append_cons.
Qed.

Lemma lstrip_dots_absent s : contains s "." = false → lstrip_dots s = s.
Proof.
  destruct s as [|x s]; [done|]. rewrite contains_char_cons.
  intros [Hx _]%orb_false_elim. simpl. by rewrite Hx.
Qed.

(** [os.path.splitext] on a name with a stem: the extension is what follows
    the last dot. *)
Lemma splitext_ext_stem dir stem ext :
  dir = "" ∨ endswith dir "/" = true →
  contains stem "/" = false → lstrip_dots stem ≠ "" →
  contains ext "." = false → contains ext "/" = false →
  splitext_ext (dir +:+ stem +:+ "." +:+ ext) = "." +:+ ext.
Proof.
  intros Hdir Hstem Hdots Hext Hslash. unfold splitext_ext.
  rewrite basename_join; [|done|].
  - rewrite lstrip_dots_app by done.
    rewrite append_cons, append_nil, split_char_app.
    rewrite (split_char_absent "." ext) by done.
    rewrite reverse_snoc.
    pose proof (split_char_nonempty "." (lstrip_dots stem)) as Hne.
    destruct (reverse (split_char "." (lstrip_dots stem))) eqn:Hrev; [|done].
    apply (f_equal reverse) in Hrev. rewrite reverse_involutive in Hrev. done.
  - rewrite !contains_char_app, Hstem, Hslash. done.
Qed.

(** A name that is nothing but dots and one more word has no extension. *)
Lemma splitext_ext_hidden dir ext :
  dir = "" ∨ endswith dir "/" = true →
  contains ext "." = false → contains ext "/" = false →
  splitext_ext (dir +:+ "." +:+ ext) = "".
Proof.
  intros Hdir Hext Hslash. unfold splitext_ext.
  rewrite basename_join; [|done|].
  - rewrite append_cons, append_nil. simpl.
    by rewrite lstrip_dots_absent, (split_char_absent "." ext).
  - by rewrite contains_char_app, Hslash.
Qed.

Lemma lower_app s t : lower (s +:+ t) = lower s +:+ lower t.
Proof.
  induction s as [|x s IH]; rewrite ?append_nil, ?append_cons; simpl; [done|].
  by rewrite append_cons, IH.
Qed.

Lemma lower_char_punct c :
  Ascii.eqb (lower_char c) "." = Ascii.eqb c "." ∧
  Ascii.eqb (lower_char c) "/" = Ascii.eqb c "/".
Proof. destruct c as [[] [] [] [] [] [] [] []]; vm_compute; done. Qed.

Lemma contains_lower_dot s : contains (lower s) "." = contains s ".".
Proof.
  induction s as [|x s IH]; [done|]. simpl lower.
  rewrite !contains_char_cons, IH. by destruct (lower_char_punct x) as [-> _].
Qed.

Lemma contains_lower_slash s : contains (lower s) "/" = contains s "/".
Proof.
  induction s as [|x s IH]; [done|]. simpl lower.
  rewrite !contains_char_cons, IH. by destruct (lower_char_punct x) as [_ ->].
Qed.

Lemma lstrip_dots_lower s : lstrip_dots (lower s) = lower (lstrip_dots s).
Proof.
  induction s as [|x s IH]; [done|]. simpl.
  destruct (lower_char_punct x) as [-> _]. by destruct (Ascii.eqb x ".").
Qed.

Lemma lower_empty s : lower s = "" → s = "".
Proof. by destruct s. Qed.

Lemma endswith_lower dir :
  dir = "" ∨ endswith dir "/" = true →
  lower dir = "" ∨ endswith (lower dir) "/" = true.
Proof.
  intros [->|[t ->]%endswith_slash]; [by left|right].
  rewrite lower_app. generalize (lower t). intros u.
  induction u as [|x u IH]; [done|]. rewrite append_cons. cbn [endswith].
  by rewrite IH, orb_true_r.
Qed.

(** X5. For a path of ASCII characters, the language of a file is decided
    by what follows the last dot of its name, whatever the letter case of the
    path and whatever directory it is in; a hidden file whose name is a dot
    and one word, such as [.py], has no extension and its language is
    unknown. *)
Theorem get_file_language_last_extension dir stem ext :
  Text.isascii dir = true → Text.isascii stem = true → Text.isascii ext = true →
  dir = "" ∨ endswith dir "/" = true →
  contains stem "/" = false → lstrip_dots stem ≠ "" →
  contains ext "." = false → contains ext "/" = false →
  get_file_language (dir +:+ stem +:+ "." +:+ ext)
    = default "unknown" (dict_get FILE_EXTENSIONS ("." +:+ lower ext)) ∧
  get_file_language (dir +:+ "." +:+ ext) = "unknown".
Proof.
  intros _ _ _ Hdir Hstem Hdots Hext Hslash. unfold get_file_language.
  rewrite !lower_app. change (lower ".") with ".". split.
  - rewrite splitext_ext_stem; [done|by apply endswith_lower|..].
    + by rewrite contains_lower_slash.
    + rewrite lstrip_dots_lower. intros H%lower_empty. done.
    + by rewrite contains_lower_dot.
    + by rewrite contains_lower_slash.
  - rewrite splitext_ext_hidden; [done|by apply endswith_lower|..].
    + by rewrite contains_lower_dot.
    + by rewrite contains_lower_slash.
Qed.

Lemma get_file_language_last_extension_witness :
  get_file_language ("/proj/src/" +:+ "Archive.tar" +:+ "." +:+ "PY") = "python" ∧
  get_file_language ("/proj/src/" +:+ "." +:+ "PY") = "unknown".
Proof.
  assert ("/proj/src/" = "" ∨ endswith "/proj/src/" "/" = true) as H1
    by (right; reflexivity).
  assert (contains "Archive.tar" "/" = false) as H2 by reflexivity.
  assert (lstrip_dots "Archive.tar" ≠ "") as H3 by discriminate.
  assert (contains "PY" "." = false) as H4 by reflexivity.
  assert (contains "PY" "/" = false) as H5 by reflexivity.
  exact (get_file_language_last_extension "/proj/src/" "Archive.tar" "PY"
           eq_refl eq_refl eq_refl H1 H2 H3 H4 H5).
Defined.

Lemma with_extension_cons ext file_path file_list :
  length (with_extension ext (file_path :: file_list))
  = (if decide (splitext_ext (lower file_path) = ext) then 1 else 0)
    + length (with_extension ext file_list).
Proof. unfold with_extension. rewrite filter_cons. by destruct (decide _). Qed.

Lemma count_extension_lookup (m : gmap string nat) file_path ext :
  ext ≠ "" →
  count_extension m file_path !! ext
  = if decide (splitext_ext (lower file_path) = ext)
    then Some (default 0 (m !! ext) + 1) else m !! ext.
Proof.
  intros Hext. unfold count_extension.
  destruct (String.eqb_spec (splitext_ext (lower file_path)) "") as [Heq|Hne].
  - rewrite decide_False; [done|congruence].
  - case_decide as Heq.
    + by rewrite Heq, lookup_insert_eq.
    + by rewrite lookup_insert_ne.
Qed.

Lemma extension_stats_lookup (m : gmap string nat) file_list ext :
  ext ≠ "" →
  foldl count_extension m file_list !! ext
  = match m !! ext, length (with_extension ext file_list) with
    | None, 0 => None
    | o, n => Some (default 0 o + n)
    end.
Proof.
  intros Hext. revert m.
  induction file_list as [|file_path rest IH]; intros m.
  - simpl. destruct (m !! ext); simpl; [f_equal; lia|done].
  - cbn [foldl]. rewrite IH, with_extension_cons, count_extension_lookup by done.
    case_decide; simpl.
    + destruct (m !! ext); simpl; f_equal; lia.
    + done.
Qed.

Lemma extension_stats_no_key (m : gmap string nat) file_list :
  m !! "" = None → foldl count_extension m file_list !! "" = None.
Proof.
  revert m. induction file_list as [|file_path rest IH]; intros m Hm; [done|].
  cbn [foldl]. apply IH. unfold count_extension.
  destruct (String.eqb_spec (splitext_ext (lower file_path)) "") as [Heq|Hne]; [done|].
  by rewrite lookup_insert_ne.
Qed.

Lemma extension_stats_sum (m : gmap string nat) file_list :
  sum_counts (foldl count_extension m file_list)
  = sum_counts m
    + length (filter (λ file_path, splitext_ext (lower file_path) ≠ "") file_list).
Proof.
  revert m. induction file_list as [|file_path rest IH]; intros m;
    cbn [foldl]; [rewrite filter_nil; simpl; lia|].
  rewrite IH, filter_cons. unfold count_extension.
  destruct (String.eqb_spec (splitext_ext (lower file_path)) "") as [Heq|Hne].
  - rewrite decide_False by (intros H; by apply H). done.
  - rewrite decide_True by done. simpl.
    destruct (m !! splitext_ext (lower file_path)) as [n|] eqn:Hl; simpl.
    + rewrite <- insert_delete_eq, sum_counts_insert by apply lookup_delete_eq.
      rewrite (sum_counts_lookup _ _ _ Hl). lia.
    + rewrite sum_counts_insert by done. lia.
Qed.

(** X6. The extension statistics count, under each extension, the files of
    the list whose lower-cased name has it; an extension that no file has is
    not a key, files without an extension are counted nowhere, and the counts
    add up to the number of files that have an extension. *)
Theorem get_file_extension_stats_counts file_list :
  get_file_extension_stats file_list !! "" = None ∧
  (∀ ext, ext ≠ "" →
     get_file_extension_stats file_list !! ext
     = match with_extension ext file_list with
       | [] => None
       | found => Some (length found)
       end) ∧
  sum_counts (get_file_extension_stats file_list)
    = length (filter (λ file_path, splitext_ext (lower file_path) ≠ "") file_list).
Proof.
  unfold get_file_extension_stats. split; [|split].
  - by apply extension_stats_no_key.
  - intros ext Hext. rewrite extension_stats_lookup, lookup_empty by done.
    destruct (with_extension ext file_list); done.
  - rewrite extension_stats_sum. done.
Qed.

End Utils_facts.

(** ** The configuration *)

Section Config_facts.
Import Config.

Implicit Types (d config : Config.dict) (k s : string) (v : value).

Lemma dict_get_set d k v k' :
  dict_get (dict_set d k v) k' = if String.eqb k k' then Some v else dict_get d k'.
Proof.
  induction d as [|[k0 x] d IH]; simpl.
  - by destruct (String.eqb_spec k k').
  - destruct (String.eqb_spec k0 k) as [->|Hne]; simpl.
    + by destruct (String.eqb_spec k k').
    + rewrite IH. destruct (String.eqb_spec k0 k') as [->|Hne'].
      * rewrite (proj2 (String.eqb_neq k k')); [done|congruence].
      * done.
Qed.

Lemma dict_get_set_eq d k v : dict_get (dict_set d k v) k = Some v.
Proof. by rewrite dict_get_set, String.eqb_refl. Qed.

Lemma dict_get_set_ne d k v k' :
  k ≠ k' → dict_get (dict_set d k v) k' = dict_get d k'.
Proof. intros H. by rewrite dict_get_set, (proj2 (String.eqb_neq k k') H). Qed.

(** The section a write goes to: the one that is there, or a new empty one. *)
Lemma ensure_section config section :
  dict_get (if dict_has config section then config
            else dict_set config section (VDict [])) section
  = Some (from_option id (VDict []) (dict_get config section)) ∧
  ∀ s, s ≠ section →
    dict_get (if dict_has config section then config
              else dict_set config section (VDict [])) s = dict_get config s.
Proof.
  unfold dict_has. destruct (dict_get config section) as [sec|] eqn:H; simpl.
  - by rewrite H.
  - rewrite dict_get_set_eq. split; [done|]. intros s Hs. by apply dict_get_set_ne.
Qed.

(** X7. Where the section is missing or is a mapping, [set] succeeds, a
    [get] of the same section and key then returns the value that was set
    whatever the default passed, and every other [get] answers as before. *)
Theorem config_set_then_get config section key v :
  (∀ sec, dict_get config section = Some sec → ∃ d, sec = VDict d) →
  ∃ config', set config section key v = Ok config' ∧
    (∀ dflt, get config' section key dflt = Ok v) ∧
    (∀ s k dflt, s ≠ section ∨ k ≠ key →
       get config' s k dflt = get config s k dflt).
Proof.
  intros Hsec. unfold set.
  destruct (ensure_section config section) as [Hnew Hother].
  rewrite Hnew.
  assert (∃ d, from_option id (VDict []) (dict_get config section) = VDict d
               ∧ ∀ k, dict_get d k
                      = match dict_get config section with
                        | Some (VDict d0) => dict_get d0 k
                        | _ => None
                        end) as (d & -> & Hd).
  { destruct (dict_get config section) as [sec|] eqn:H; simpl.
    - destruct (Hsec sec eq_refl) as [d ->]. by exists d.
    - by exists []. }
  simpl. eexists. split; [done|]. split.
  - intros dflt. unfold get. rewrite dict_get_set_eq. simpl.
    by rewrite dict_get_set_eq.
  - intros s k dflt Hne. unfold get.
    destruct (decide (s = section)) as [->|Hs].
    + destruct Hne as [?|Hk]; [done|].
      rewrite dict_get_set_eq. simpl. rewrite dict_get_set_ne, Hd by done.
      destruct (dict_get config section) as [sec|] eqn:H; [|done].
      by destruct (Hsec sec eq_refl) as [d0 ->].
    + by rewrite dict_get_set_ne, Hother.
Qed.

Lemma config_set_then_get_witness :
  (∀ sec, dict_get DEFAULT_CONFIG "scan" = Some sec → ∃ d, sec = VDict d) ∧
  ∃ config', set DEFAULT_CONFIG "scan" "max_file_size_mb" (VInt 2) = Ok config' ∧
    get config' "scan" "max_file_size_mb" VNull = Ok (VInt 2) ∧
    get config' "scan" "timeout_seconds" VNull = Ok (VInt 60).
Proof.
  assert (∀ sec, dict_get DEFAULT_CONFIG "scan" = Some sec → ∃ d, sec = VDict d) as H.
  { intros sec [= <-]. eauto. }
  split; [exact H|].
  destruct (config_set_then_get DEFAULT_CONFIG "scan" "max_file_size_mb" (VInt 2) H)
    as (config' & Hset & Hget & Hother).
  exists config'. split; [exact Hset|]. split; [apply Hget|].
  rewrite Hother; [reflexivity|right; discriminate].
Defined.

Lemma fill_keys_mapping d values :
  ∃ d', fill_keys (VDict d) values = Ok (VDict d') ∧
    ∀ k, dict_get d' k = match dict_get d k with
                         | Some v => Some v
                         | None => dict_get values k
                         end.
Proof.
  revert d. induction values as [|[key v] rest IH]; intros d; cbn [fill_keys].
  - exists d. split; [done|]. intros k. by destruct (dict_get d k).
  - cbn [value_has]. rewrite bind_Ok. unfold dict_has.
    destruct (dict_get d key) as [x|] eqn:Hkey.
    + rewrite bind_Ok. destruct (IH d) as (d' & -> & Hd'). exists d'.
      split; [done|]. intros k. rewrite Hd'. cbn [dict_get].
      destruct (dict_get d k) eqn:Hk; [done|].
      destruct (String.eqb_spec key k) as [->|Hne]; [congruence|done].
    + cbn [value_set_item]. rewrite bind_Ok.
      destruct (IH (dict_set d key v)) as (d' & -> & Hd'). exists d'.
      split; [done|]. intros k. rewrite Hd', dict_get_set. cbn [dict_get].
      destruct (String.eqb_spec key k) as [->|Hne].
      * by rewrite Hkey.
      * by destruct (dict_get d k).
Qed.

Lemma doc_value_get config section key dflt :
  sections_are_mappings config →
  get config section key dflt
  = Ok (from_option id dflt (doc_value config section key)).
Proof.
  intros Hmap. unfold get, doc_value.
  destruct (dict_get config section) as [sec|] eqn:H; [|done].
  by destruct (Hmap _ _ H) as [d ->].
Qed.

Lemma doc_value_cons section values (rest : Config.dict) s k :
  doc_value ((section, VDict values) :: rest) s k
  = if String.eqb section s then dict_get values k else doc_value rest s k.
Proof. unfold doc_value. cbn [dict_get]. by destruct (String.eqb section s). Qed.

Lemma dict_get_absent {A} (d : list (string * A)) k : k ∉ d.*1 → dict_get d k = None.
Proof.
  induction d as [|[k0 x] d IH]; [done|]. cbn [fmap list_fmap fst dict_get].
  intros [Hne Hd]%not_elem_of_cons.
  rewrite (proj2 (String.eqb_neq k0 k)) by congruence. by apply IH.
Qed.

Lemma fill_sections_mapping config defaults :
  sections_are_mappings config → NoDup defaults.*1 →
  (∀ section sec, (section, sec) ∈ defaults → ∃ values, sec = VDict values) →
  ∃ config', fill_sections config defaults = Ok config' ∧
    sections_are_mappings config' ∧
    ∀ section key,
      doc_value config' section key
      = match doc_value config section key with
        | Some v => Some v
        | None => doc_value defaults section key
        end.
Proof.
  revert config.
  induction defaults as [|[section sec] rest IH]; intros config Hmap Hnd Hdefs.
  - exists config. split; [done|]. split; [done|].
    intros s k. by destruct (doc_value config s k).
  - destruct (Hdefs section sec) as [values ->]; [apply list_elem_of_here|].
    cbn [fill_sections].
    destruct (ensure_section config section) as [Hnew Hother]. rewrite Hnew.
    assert (∃ d, from_option id (VDict []) (dict_get config section) = VDict d
                 ∧ ∀ k, dict_get d k = doc_value config section k)
      as (d & -> & Hd).
    { unfold doc_value. destruct (dict_get config section) as [x|] eqn:H; simpl.
      - destruct (Hmap _ _ H) as [d ->]. by exists d.
      - by exists []. }
    destruct (fill_keys_mapping d values) as (d' & -> & Hd'). rewrite bind_Ok.
    set (config1 := dict_set _ section (VDict d')).
    assert (sections_are_mappings config1 ∧
            ∀ s k, doc_value config1 s k
                   = if String.eqb section s then dict_get d' k
                     else doc_value config s k) as [Hmap1 Hval1].
    { split.
      - intros s x. unfold config1. rewrite dict_get_set.
        destruct (String.eqb_spec section s) as [->|Hne].
        + intros [= <-]. eauto.
        + rewrite Hother by done. apply Hmap.
      - intros s k. unfold doc_value, config1. rewrite dict_get_set.
        destruct (String.eqb_spec section s) as [->|Hne]; [done|].
        by rewrite Hother. }
    cbn [fmap list_fmap fst] in Hnd. apply NoDup_cons in Hnd as [Hfresh Hnd].
    destruct (IH config1 Hmap1 Hnd) as (config' & -> & Hmap' & Hval').
    { intros s x Hin. apply (Hdefs s x). by apply list_elem_of_further. }
    exists config'. split; [done|]. split; [done|].
    intros s k. rewrite Hval', Hval1, doc_value_cons.
    destruct (String.eqb_spec section s) as [->|Hne]; [|done].
    rewrite Hd', Hd. unfold doc_value at 2. rewrite (dict_get_absent rest s Hfresh).
    by destruct (doc_value config s k), (dict_get values k).
Qed.

(** X8. When the configuration file is a mapping whose sections are
    mappings, loading it keeps every value of the file and adds every
    default that the file lacks: a [get] returns the value of the file, else
    the value of [DEFAULT_CONFIG], else the default passed, and it never
    raises. *)
Theorem load_config_fills_defaults doc section key dflt :
  sections_are_mappings doc →
  get (_load_config (Ok (VDict doc))) section key dflt
  = Ok (from_option id dflt
          (match doc_value doc section key with
           | Some v => Some v
           | None => doc_value DEFAULT_CONFIG section key
           end)).
Proof.
  intros Hmap. unfold _load_config.
  destruct (fill_sections_mapping doc DEFAULT_CONFIG Hmap)
    as (config' & -> & Hmap' & Hval).
  { apply (bool_decide_unpack _). vm_compute. exact I. }
  { intros s x Hin. unfold DEFAULT_CONFIG in Hin.
    repeat (apply elem_of_cons in Hin as [[= _ ->]|Hin]; [eauto|]).
    by apply elem_of_nil in Hin. }
  by rewrite doc_value_get, Hval.
Qed.

Lemma load_config_fills_defaults_witness :
  sections_are_mappings partial_config ∧
  get (_load_config (Ok (VDict partial_config))) "scan" "max_file_size_mb" VNull
    = Ok (VInt 2) ∧
  get (_load_config (Ok (VDict partial_config))) "scan" "timeout_seconds" VNull
    = Ok (VInt 60) ∧
  get (_load_config (Ok (VDict partial_config))) "scan" "threads" (VInt 5)
    = Ok (VInt 5).
Proof.
  assert (sections_are_mappings partial_config) as H.
  { intros s x. unfold partial_config. cbn [dict_get].
    destruct (String.eqb "scan" s); [intros [= <-]; eauto|].
    destruct (String.eqb "models" s); [intros [= <-]; eauto|done]. }
  split; [exact H|]. split; [|split].
  - exact (load_config_fills_defaults partial_config "scan" "max_file_size_mb" VNull H).
  - exact (load_config_fills_defaults partial_config "scan" "timeout_seconds" VNull H).
  - exact (load_config_fills_defaults partial_config "scan" "threads" (VInt 5) H).
Defined.

(** X9. Where the models of a configuration are missing or are a mapping,
    [add_model_config] succeeds and [get_model_config] then returns the
    added configuration under its name; a name that the models do not hold
    gets the configuration of the model [default]. *)
Theorem add_model_config_then_get config name provider model api_key max_tokens :
  (∀ models, dict_get config "models" = Some models → ∃ d, models = VDict d) →
  (∃ config',
     add_model_config config name provider model api_key max_tokens = Ok config' ∧
     get_model_config config' name
       = Ok (VDict [("provider", VStr provider); ("model", VStr model);
                    ("api_key", VStr api_key); ("max_tokens", VInt max_tokens)])) ∧
  (∀ other, doc_value config "models" other = None →
     get_model_config config other = get_model_config config "default").
Proof.
  intros Hmodels. split.
  - unfold add_model_config.
    destruct (ensure_section config "models") as [Hnew _]. rewrite Hnew.
    assert (∃ d, from_option id (VDict []) (dict_get config "models") = VDict d)
      as [d ->].
    { destruct (dict_get config "models") as [x|] eqn:H; simpl; [|by exists []].
      destruct (Hmodels x eq_refl) as [d ->]. by exists d. }
    simpl. eexists. split; [done|].
    unfold get_model_config. rewrite dict_get_set_eq. simpl.
    by rewrite dict_get_set_eq.
  - intros other Hother. unfold get_model_config, doc_value in *.
    destruct (dict_get config "models") as [x|] eqn:H; simpl; [|done].
    destruct (Hmodels x eq_refl) as [d ->]. simpl in *. rewrite Hother. simpl.
    by destruct (dict_get d "default").
Qed.

Lemma add_model_config_then_get_witness :
  (∀ models, dict_get DEFAULT_CONFIG "models" = Some models → ∃ d, models = VDict d) ∧
  (∃ config',
     add_model_config DEFAULT_CONFIG "qwen" "openai" "qwen-max" "sk-1" 4096 = Ok config' ∧
     get_model_config config' "qwen"
       = Ok (VDict [("provider", VStr "openai"); ("model", VStr "qwen-max");
                    ("api_key", VStr "sk-1"); ("max_tokens", VInt 4096)])) ∧
  get_model_config DEFAULT_CONFIG "qwen" = get_model_config DEFAULT_CONFIG "default".
Proof.
  assert (∀ models, dict_get DEFAULT_CONFIG "models" = Some models →
                    ∃ d, models = VDict d) as H.
  { intros models [= <-]. eauto. }
  destruct (add_model_config_then_get DEFAULT_CONFIG "qwen" "openai" "qwen-max" "sk-1"
              4096 H) as [Hadd Hfall].
  split; [exact H|]. split; [exact Hadd|]. apply Hfall. reflexivity.
Defined.

End Config_facts.

(** ** More on the analysis of one file *)

Section Analyzer_findings.
Import Scanner.

Implicit Types (i : VulnerabilityIssue) (l : list VulnerabilityIssue).








Lemma first_line_spec (matches : string → bool) lines :
  match first_line matches lines with
  | Some n =>
      (∃ line, lines !! n = Some line ∧ matches line = true) ∧
      ∀ m line, m < n → lines !! m = Some line → matches line = false
  | None => ∀ line, line ∈ lines → matches line = false
  end.
Proof.
  induction lines as [|line rest IH]; cbn [first_line].
  - intros line Hin. by apply elem_of_nil in Hin.
  - destruct (matches line) eqn:Hline.
    + split; [by exists line|]. intros m l Hm. lia.
    + destruct (first_line matches rest) as [n|]; simpl.
      * destruct IH as [Hn Hbefore]. split; [done|].
        intros [|m] l Hm; simpl; [by intros [= <-]|].
        apply Hbefore. lia.
      * intros l [->|Hin]%elem_of_cons; [done|by apply IH].
Qed.

(** X11. The finding of a rule points at the first line that the pattern
    matches: its line number is the 1-based number of that line, no earlier
    line matches, and its snippet joins the consecutive lines from two lines
    before that line (or from the first line) to two lines after it (or to
    the last line), at most five lines.  When the pattern matches the
    content but no single line of it, the finding has no line number and no
    snippet. *)
Theorem rule_issue_first_match file_path content (matches : string → bool) pattern :
  let lines := split_char "010" content in
  let issue := rule_issue file_path content matches pattern in
  (∀ n, line_number issue = Some n →
     ∃ index line before window after,
       n = (Z.of_nat index + 1)%Z ∧ lines !! index = Some line ∧
       matches line = true ∧
       (∀ m earlier, m < index → lines !! m = Some earlier → matches earlier = false) ∧
       code_snippet issue = Some (join (String "010" "") window) ∧
       lines = before ++ window ++ after ∧
       length before = index - 2 ∧
       length (before ++ window) = Nat.min (length lines) (index + 3) ∧
       length window ≤ 5 ∧
       window !! (index - length before) = Some line) ∧
  (line_number issue = None →
     code_snippet issue = None ∧ ∀ line, line ∈ lines → matches line = false).
Proof.
  intros lines issue. unfold issue, rule_issue. fold lines. cbn [line_number code_snippet].
  pose proof (first_line_spec matches lines) as Hspec.
  destruct (first_line matches lines) as [index|]; simpl; split; try done.
  intros n [= <-]. destruct Hspec as [[line [Hline Hmatch]] Hbefore].
  pose proof (lookup_lt_Some _ _ _ Hline) as Hlt.
  set (first := index - 2). set (stop := length lines `min` (index + 3)).
  exists index, line, (take first lines), (take (stop - first) (drop first lines)),
    (drop stop lines).
  assert (length (take first lines) = first) as Hfirst
    by (rewrite length_take; unfold first; lia).
  assert (length (take (stop - first) (drop first lines)) = stop - first) as Hwindow
    by (rewrite length_take, length_drop; unfold first, stop; lia).
  split; [lia|]. split; [done|]. split; [done|]. split; [done|]. split; [done|].
  split; [|split; [done|split; [|split]]].
  - rewrite <- (take_drop first lines) at 1. f_equal.
    rewrite <- (take_drop (stop - first) (drop first lines)) at 1. f_equal.
    rewrite drop_drop. f_equal. unfold first, stop. lia.
  - rewrite length_app, Hfirst, Hwindow. unfold first, stop. lia.
  - rewrite Hwindow. unfold first, stop. lia.
  - rewrite Hfirst. rewrite lookup_take_lt by (unfold first, stop; lia).
    rewrite lookup_drop. rewrite <- Hline. f_equal. unfold first. lia.
Qed.

(** X12. A rule of the store whose pattern is not a valid regular
    expression hides every other finding for the files of its language: the
    analysis ends in its [except] branch and returns one finding that
    reports an API connection error. *)
Theorem invalid_rule_pattern_hides_findings env vulndb file_path content pattern e :
  pattern ∈ VulnDB.get_patterns_for_language vulndb (get_file_language env file_path) →
  re_compile env (default "" (VulnDB.rule_pattern pattern)) = Raise e →
  _analyze_file_content env vulndb file_path content = Unmodelled ∨
  ∃ e', _analyze_file_content env vulndb file_path content
        = Ok [api_error_issue file_path e'].
Proof.
  intros Hin Hbad. unfold _analyze_file_content, analyze_try.
  assert (∀ l, rule_issues env file_path content
                 (VulnDB.get_patterns_for_language vulndb
                    (get_file_language env file_path)) ≠ Ok l) as Hrules.
  { revert Hin. generalize (VulnDB.get_patterns_for_language vulndb
                              (get_file_language env file_path)).
    intros patterns. induction patterns as [|p rest IH]; intros Hin l.
    - by apply elem_of_nil in Hin.
    - cbn [rule_issues]. apply elem_of_cons in Hin as [<-|Hin].
      + by rewrite Hbad.
      + destruct (re_compile env (default "" (VulnDB.rule_pattern p)));
          [rewrite bind_Ok|done..].
        destruct (rule_issues env file_path content rest) as [l0| |] eqn:Hrest;
          [|done..].
        by destruct (IH Hin l0). }
  destruct (analyze_code env _); [rewrite bind_Ok|right; eauto|by left].
  destruct (match json_loads_text env _ with
            | Some issues_data => issues_of_data file_path issues_data
            | None => Ok [unparsed_issue file_path]
            end); [rewrite bind_Ok|right; eauto|by left].
  destruct (rule_issues env file_path content _) as [l| |] eqn:Hl;
    [by destruct (Hrules l)|right; eauto|by left].
Qed.

Lemma invalid_rule_pattern_hides_findings_witness :
  VulnDB.mk_rule "user-1" (Some "eval(")
    ∈ VulnDB.get_patterns_for_language Samples.broken_store
        (get_file_language Samples.quiet_env "/proj/a.py") ∧
  _analyze_file_content Samples.quiet_env Samples.broken_store "/proj/a.py"
    Samples.pickle_source
  = Ok [api_error_issue "/proj/a.py" "missing ), unterminated subpattern"].
Proof.
  assert (VulnDB.mk_rule "user-1" (Some "eval(")
            ∈ VulnDB.get_patterns_for_language Samples.broken_store
                (get_file_language Samples.quiet_env "/proj/a.py")) as Hin.
  { vm_compute. apply list_elem_of_further, list_elem_of_here. }
  split; [exact Hin|].
  destruct (invalid_rule_pattern_hides_findings Samples.quiet_env Samples.broken_store
              "/proj/a.py" Samples.pickle_source _ _ Hin eq_refl) as [H|[e' H]].
  - vm_compute in H. discriminate H.
  - rewrite H. vm_compute in H. injection H as H. by rewrite <- H.
Defined.

End Analyzer_findings.

(** ** The scan of one file *)

Section FileScan_facts.
Import Scanner FileScan.

Implicit Types (stats result : Scanner.dict) (env : file_env).

Lemma generate_file_info_spec ienv file_path content stats :
  (∀ e, _generate_file_info ienv file_path content stats ≠ Raise e) ∧
  ∀ result, _generate_file_info ienv file_path content stats = Ok result →
    dict_get result "stats" = Some (VDict stats) ∧
    dict_get result "use_cases" = Some (VList []) ∧
    Forall (λ k, dict_has result k = true) project_keys.
Proof.
  unfold _generate_file_info.
  destruct (language_of stats) as [language| |] eqn:Hlang;
    [rewrite bind_Ok| |split; [done|done]].
  2: { unfold language_of in Hlang. by repeat case_match. }
  assert (∀ d, d = file_info_unavailable language (basename file_path) stats →
            dict_get d "stats" = Some (VDict stats) ∧
            dict_get d "use_cases" = Some (VList []) ∧
            Forall (λ k, dict_has d k = true) project_keys) as Hmin.
  { intros d ->. split; [done|]. split; [done|]. by repeat constructor. }
  destruct (analyze ienv _) as [analysis_result|e|]; [|split; [done|]..].
  - destruct (parse_answer ienv analysis_result) as [file_info| |].
    + destruct (file_info_result language stats file_info) as [result|e|] eqn:Hres;
        [|split; [done|]..].
      * split; [done|]. intros ? [= <-]. unfold file_info_result in Hres.
        repeat match type of Hres with
               | (?m ≫= _) = Ok _ => destruct m; [rewrite bind_Ok in Hres|done..]
               end.
        injection Hres as <-. split; [done|]. split; [done|]. by repeat constructor.
      * intros ? [= <-]. by apply Hmin.
      * done.
    + split; [done|]. intros ? [= <-]. split; [done|]. split; [done|].
      by repeat constructor.
    + split; [done|]. intros ? [= <-]. by apply Hmin.
  - intros ? [= <-]. by apply Hmin.
  - done.
Qed.

(** X13. [_generate_file_info] never raises, and whatever the model
    answers (a JSON object, a JSON value of another kind, a text, an error),
    the dictionary it returns holds the five keys that the reports read and
    the statistics it was given. *)
Theorem generate_file_info_keys ienv file_path content stats :
  (∀ e, _generate_file_info ienv file_path content stats ≠ Raise e) ∧
  ∀ result, _generate_file_info ienv file_path content stats = Ok result →
    dict_get result "stats" = Some (VDict stats) ∧
    dict_get result "use_cases" = Some (VList []) ∧
    Forall (λ k, dict_has result k = true) project_keys.
Proof. apply generate_file_info_spec. Qed.

Lemma dict_get_set_other (d : Scanner.dict) k v k' :
  k ≠ k' → dict_get (Config.dict_set d k v) k' = dict_get d k'.
Proof. apply dict_get_set_ne. Qed.



Lemma dict_has_set (d : Scanner.dict) k v k' :
  dict_has d k' = true → dict_has (Config.dict_set d k v) k' = true.
Proof.
  unfold dict_has. rewrite dict_get_set.
  by destruct (String.eqb k k'), (dict_get d k').
Qed.

(** X15. [_generate_project_info] never raises on the statistics of a
    directory scan, and the dictionary it returns always holds the
    statistics it was given; it is either nothing but the statistics (the
    model call failed or its answer could not be used) or it holds the five
    keys that the reports read. *)
Theorem generate_project_info_stats ienv cfg fs children dir_path stats counts :
  counts_of stats = Ok counts →
  (∀ e, _generate_project_info ienv cfg fs children dir_path stats ≠ Raise e) ∧
  ∀ result, _generate_project_info ienv cfg fs children dir_path stats = Ok result →
    dict_get result "stats" = Some (VDict stats) ∧
    (result = [("stats", VDict stats)] ∨
     Forall (λ k, dict_has result k = true) project_keys).
Proof.
  intros Hcounts. unfold _generate_project_info. rewrite Hcounts, bind_Ok.
  destruct (analyze ienv _) as [analysis_result|e|]; [|split; [done|]..].
  - destruct (parse_answer ienv analysis_result) as [document| |].
    + destruct (project_info_result stats document) as [result|e|] eqn:Hres;
        [|split; [done|]..].
      * split; [done|]. intros ? [= <-]. unfold project_info_result in Hres.
        destruct (Config.fill_keys document project_info_fields) as [filled| |] eqn:Hfill;
          [rewrite bind_Ok in Hres|done..].
        destruct filled as [| | | | | |d]; try discriminate Hres.
        cbn [Config.value_set_item] in Hres. rewrite bind_Ok in Hres.
        injection Hres as <-. split; [apply dict_get_set_eq|]. right.
        destruct document as [| | | |s|l|d0].
        1-4: by (cbn in Hfill).
        { exfalso. revert Hfill. generalize project_info_fields.
          intros values. induction values as [|[k v] rest IH]; [done|].
          cbn [Config.fill_keys Config.value_has]. rewrite bind_Ok.
          by destruct (contains s k). }
        { exfalso. revert Hfill. generalize project_info_fields.
          intros values. induction values as [|[k v] rest IH]; [done|].
          cbn [Config.fill_keys Config.value_has]. rewrite bind_Ok.
          by destruct (existsb _ l). }
        destruct (fill_keys_mapping d0 project_info_fields) as (d' & Hd' & Hkeys).
        rewrite Hd' in Hfill. injection Hfill as <-.
        unfold project_keys. repeat apply Forall_cons_2; [..|apply Forall_nil_2];
          apply dict_has_set; unfold dict_has; rewrite Hkeys;
          by destruct (dict_get d0 _).
      * by intros ? [= <-]; split; [|left].
      * done.
    + split; [done|]. intros ? [= <-]. unfold project_info_text.
      repeat match goal with
             | |- context [match ?o with Some _ => _ | None => _ end] =>
                 destruct o
             end;
        (split; [by rewrite ?dict_get_set_other|]); right;
        unfold project_keys; repeat apply Forall_cons_2; try apply Forall_nil_2;
        repeat apply dict_has_set; done.
    + split; [done|]. by intros ? [= <-]; split; [|left].
  - by intros ? [= <-]; split; [|left].
  - done.
Qed.

Lemma generate_project_info_stats_witness :
  counts_of (stats sample_result) = Ok [("python", 1%Z)] ∧
  ∃ result,
    _generate_project_info Samples.prose_info project_config plain_files []
      "/proj" (stats sample_result) = Ok result ∧
    dict_get result "stats" = Some (VDict (stats sample_result)) ∧
    dict_get result "project_type" = Some (VStr "命令行工具").
Proof.
  assert (counts_of (stats sample_result) = Ok [("python", 1%Z)]) as H by reflexivity.
  split; [exact H|]. eexists. split; [vm_compute; reflexivity|].
  split; [|reflexivity].
  refine (proj1 (proj2 (generate_project_info_stats Samples.prose_info project_config
                          plain_files [] "/proj" (stats sample_result) _ H) _ _)).
  vm_compute. reflexivity.
Defined.

Lemma total_count_count_key (d : list (string * Z)) k :
  total_count (count_key d k) = (total_count d + 1)%Z.
Proof.
  induction d as [|[k0 n] d IH]; simpl; [done|].
  destruct (String.eqb k0 k); simpl; [lia|]. rewrite IH. lia.
Qed.

Lemma merge_stats_counts env base_path t diff_files :
  let t' := foldl (merge_stats env base_path) t diff_files in
  let existing :=
    Z.of_nat (length (filter (λ f, isfile (fs env) (os_path_join base_path f) = true)
                             diff_files)) in
  total_count (languages t') = (total_count (languages t) + existing)%Z ∧
  total_count (file_counts t') = (total_count (file_counts t) + existing)%Z.
Proof.
  revert t. induction diff_files as [|f rest IH]; intros t; cbn [foldl].
  - rewrite filter_nil. simpl. lia.
  - destruct (IH (merge_stats env base_path t f)) as [Hl He].
    cbv zeta in *. rewrite Hl, He, filter_cons. unfold merge_stats.
    destruct (isfile (fs env) (os_path_join base_path f)) eqn:Hf.
    + rewrite decide_True by done. cbn [languages file_counts add_extension
        add_language add_lines length].
      rewrite !total_count_count_key. lia.
    + rewrite decide_False by done. lia.
Qed.

(** X16. The result of a merge scan keeps the findings it is given and
    counts every file of the difference in [total_files], also a file that no
    longer exists, while its language counts and its extension counts both
    add up to the number of files of the difference that exist. *)
Theorem create_merge_scan_result_counts env base_path scan_id found diff_files :
  let r := create_merge_scan_result env base_path scan_id found diff_files in
  issues r = found ∧ scan_type r = "git-merge" ∧
  dict_get (stats r) "total_files" = Some (VInt (Z.of_nat (length diff_files))) ∧
  ∃ languages extensions,
    dict_get (stats r) "languages" = Some (counts_value languages) ∧
    dict_get (stats r) "file_extensions" = Some (counts_value extensions) ∧
    total_count languages = total_count extensions ∧
    total_count extensions
    = Z.of_nat (length (filter (λ f, isfile (fs env) (os_path_join base_path f) = true)
                               diff_files)).
Proof.
  intros r. split; [done|]. split; [done|]. split; [done|].
  eexists _, _. split; [reflexivity|]. split; [reflexivity|].
  destruct (merge_stats_counts env base_path
              {| Scanner.found := []; total_lines := 0; languages := [];
                 file_counts := []; typed := true |} diff_files) as [Hl He].
  cbv zeta in *. rewrite Hl, He. simpl. lia.
Qed.

(** *** The directory structure *)

Lemma nesting_bound (d : Scanner.dict) b :
  Forall (λ kv, nesting kv.2 ≤ b) d → nesting (VDict d) ≤ S b.
Proof.
  intros H. cbn [nesting]. apply le_n_S.
  induction H as [|[k v] d Hv _ IH]; simpl in *; lia.
Qed.

Lemma Forall_dict_set (P : value → Prop) (d : Scanner.dict) k v :
  Forall (λ kv, P kv.2) d → P v → Forall (λ kv, P kv.2) (Config.dict_set d k v).
Proof.
  intros Hd Hv. induction Hd as [|[k0 x] d Hx Hd IH]; simpl.
  - by constructor.
  - by destruct (String.eqb k0 k); constructor.
Qed.

Lemma structure_nesting cfg fs max_depth dir_path children :
  nesting (VDict (_get_directory_structure cfg fs max_depth dir_path children))
  ≤ max_depth + 1.
Proof.
  revert dir_path children.
  induction max_depth as [|depth IH]; intros dir_path children.
  - simpl. lia.
  - cbn [_get_directory_structure].
    replace (S depth + 1) with (S (depth + 1)) by lia. apply nesting_bound.
    match goal with
    | |- Forall ?P (foldl ?F _ _) =>
        enough (∀ result, Forall P result → Forall P (foldl F result children))
          as Hall by apply Hall, Forall_nil_2
    end.
    induction children as [|item rest IHc]; intros result Hres; cbn [foldl]; [done|].
    apply IHc. destruct (_should_exclude_path cfg fs _); [done|].
    destruct item as [name|name sub];
      apply (Forall_dict_set (λ v, nesting v ≤ depth + 1)); try done; simpl; lia.
Qed.

Lemma keys_within_set (d : Scanner.dict) k v x :
  x ∈ keys_within (VDict (Config.dict_set d k v)) →
  x ∈ keys_within (VDict d) ∨ x = k ∨ x ∈ keys_within v.
Proof.
  induction d as [|[k0 y] d IH]; cbn [Config.dict_set].
  - cbn [keys_within flat_map fst snd]. rewrite app_nil_r.
    intros [->|Hx]%elem_of_cons; auto.
  - destruct (String.eqb_spec k0 k) as [->|Hne].
    + change (keys_within (VDict ((k, v) :: d)))
        with ((k :: keys_within v) ++ keys_within (VDict d)).
      change (keys_within (VDict ((k, y) :: d)))
        with ((k :: keys_within y) ++ keys_within (VDict d)).
      rewrite !elem_of_app, !elem_of_cons. tauto.
    + change (keys_within (VDict ((k0, y) :: Config.dict_set d k v)))
        with ((k0 :: keys_within y) ++ keys_within (VDict (Config.dict_set d k v))).
      change (keys_within (VDict ((k0, y) :: d)))
        with ((k0 :: keys_within y) ++ keys_within (VDict d)).
      rewrite !elem_of_app. intros [Hx|Hx]; [tauto|].
      destruct (IH Hx) as [?|[?|?]]; tauto.
Qed.

Lemma structure_keys cfg fs max_depth name :
  name ∈ excluded_dirs cfg → name ∉ ["..."; "type"; "size"] →
  ∀ dir_path children,
    valid_names (Dir "" children) = true →
    name ∉ keys_within
             (VDict (_get_directory_structure cfg fs max_depth dir_path children)).
Proof.
  intros Hex Hname.
  induction max_depth as [|depth IH]; intros dir_path children Hvalid.
  - cbn. intros [->|H]%elem_of_cons; [|by apply elem_of_nil in H].
    apply Hname, list_elem_of_here.
  - cbn [_get_directory_structure].
    match goal with
    | |- _ ∉ keys_within (VDict (foldl ?F _ _)) =>
        enough (∀ result, name ∉ keys_within (VDict result) →
                          name ∉ keys_within (VDict (foldl F result children)))
          as Hall by (apply Hall; cbn; apply not_elem_of_nil)
    end.
    cbn [valid_names] in Hvalid.
    induction children as [|item rest IHc]; intros result Hres; cbn [foldl]; [done|].
    cbn [forallb] in Hvalid. apply andb_true_iff in Hvalid as [Hitem Hrest].
    apply IHc; [done|].
    destruct (_should_exclude_path cfg fs _) eqn:Hpath; [done|].
    assert (valid_name (entry_name item) = true) as Hvn.
    { destruct item; [done|]. by apply andb_true_iff in Hitem as [? _]. }
    assert (entry_name item ≠ name) as Hne.
    { intros <-. rewrite (excluded_part_excludes cfg fs _ (entry_name item)) in Hpath;
        [done|done|].
      rewrite path_parts_join by done. apply elem_of_app. right. apply list_elem_of_here. }
    destruct item as [f|d sub]; intros Hin%keys_within_set;
      destruct Hin as [Hin|[Hin|Hin]]; try done; try (by apply Hne).
    + cbn in Hin. apply Hname. by apply list_elem_of_further.
    + apply andb_true_iff in Hitem as [_ Hsub].
      by apply (IH (os_path_join dir_path d) sub).
Qed.

(** X17. The directory structure computed for the project information is
    cut off at the depth asked for: its mappings are nested at most
    [max_depth + 1] deep.  When the names of the listed files and
    directories are valid (not empty, not [.], without a slash), no name of
    [excluded_dirs] is a key of it at any level, the three keys apart that
    the structure writes itself: [...], [type] and [size]. *)
Theorem directory_structure_bounded cfg fs max_depth dir_path children :
  nesting (VDict (_get_directory_structure cfg fs max_depth dir_path children))
    ≤ max_depth + 1 ∧
  ∀ name,
    valid_names (Dir "" children) = true →
    name ∈ excluded_dirs cfg → name ∉ ["..."; "type"; "size"] →
    name ∉ keys_within
             (VDict (_get_directory_structure cfg fs max_depth dir_path children)).
Proof.
  split; [apply structure_nesting|].
  intros name Hvalid Hex Hname. by apply structure_keys.
Qed.

Lemma directory_structure_bounded_witness :
  nesting (VDict (_get_directory_structure project_config plain_files 2 "/proj"
                    [File "a.py";
                     Dir "node_modules" [File "x.js"; Dir "lib" [File "y.js"]];
                     Dir "src" [File "b.py"; File "logo.png"]]))
    ≤ 3 ∧
  "node_modules"
    ∉ keys_within
        (VDict (_get_directory_structure project_config plain_files 2 "/proj"
                  [File "a.py";
                   Dir "node_modules" [File "x.js"; Dir "lib" [File "y.js"]];
                   Dir "src" [File "b.py"; File "logo.png"]])).
Proof.
  destruct (directory_structure_bounded project_config plain_files 2 "/proj"
              [File "a.py";
               Dir "node_modules" [File "x.js"; Dir "lib" [File "y.js"]];
               Dir "src" [File "b.py"; File "logo.png"]])
    as [Hdepth Hkeys].
  split; [exact Hdepth|]. apply Hkeys.
  - reflexivity.
  - apply elem_of_union_l, elem_of_singleton_2. reflexivity.
  - intros H. repeat (apply elem_of_cons in H as [H|H]; [discriminate H|]).
    by apply elem_of_nil in H.
Defined.

End FileScan_facts.

(** ** The statistics of a directory scan *)

Section Directory_statistics.
Import Scanner FileScan.

Implicit Types (t : tally) (env : scan_env).












Lemma dict_get_None_keys {A} (d : list (string * A)) k :
  dict_get d k = None ↔ k ∉ d.*1.
Proof.
  induction d as [|[k0 v] d IH]; cbn.
  - split; [intros _; apply not_elem_of_nil|done].
  - destruct (String.eqb_spec k0 k) as [->|Hne].
    + split; [done|]. intros H. exfalso. apply H, list_elem_of_here.
    + rewrite IH, not_elem_of_cons. split; [by split|by intros [_ ?]].
Qed.








End Directory_statistics.

(** ** The signals of a scan thread *)

Section Signal_facts.
Import Scanner Gui Signals.

Variable flag : nat → bool.
Variable env : run_env.

Implicit Types (st : thread).

Lemma no_terminal_progress_update message percentage st :
  no_terminal (trace st) = true →
  no_terminal (trace (progress_update flag message percentage st)) = true.
Proof. unfold progress_update, isInterruptionRequested. by destruct (flag _). Qed.

Lemma no_terminal_progress_update_adjusted message percentage st :
  no_terminal (trace st) = true →
  no_terminal (trace (progress_update_adjusted flag env message percentage st)) = true.
Proof. unfold progress_update_adjusted, isInterruptionRequested. by destruct (flag _). Qed.

Lemma no_terminal_run_scan_directory callback path st :
  (∀ message percentage st,
     no_terminal (trace st) = true →
     no_terminal (trace (callback message percentage st)) = true) →
  no_terminal (trace st) = true →
  no_terminal (trace (run_scan_directory env callback path st).2) = true.
Proof.
  intros Hcb H. unfold run_scan_directory.
  apply (scan_directory_invariant _ _ _ (λ st, no_terminal (trace st) = true));
    [| |done].
  - intros message percent w Hw. cbn [notify]. by apply Hcb.
  - done.
Qed.

Lemma result_run_scan_directory callback path st :
  (∀ message percentage st, result (callback message percentage st) = result st) →
  result (run_scan_directory env callback path st).2 = result st.
Proof.
  intros Hcb. unfold run_scan_directory.
  apply (scan_directory_invariant _ _ _ (λ st', result st' = result st)); [| |done].
  - intros message percent w Hw. cbn [notify]. by rewrite Hcb.
  - done.
Qed.

(** The end of a run only adds actions to the trace. *)
Lemma on_error_extends e st : ∃ more, trace (on_error flag e st) = more ++ trace st.
Proof.
  unfold on_error, isInterruptionRequested. destruct (flag _).
  - by exists [Check true].
  - by exists [Emit (scan_error e); Check false].
Qed.

Lemma finish_extends st : ∃ more, trace (finish flag st) = more ++ trace st.
Proof.
  unfold finish, isInterruptionRequested. destruct (flag _).
  - by exists [Check true].
  - cbn [result act]. destruct (result st) as [r|].
    + by eexists [_; _; _].
    + destruct (on_error_extends "扫描没有返回有效结果" (act (Check false) st))
        as [more ->]. exists (more ++ [Check false]). by rewrite <- app_assoc.
Qed.

Lemma guarded_app_false a h1 h2 :
  guarded a h1 = false → guarded a (h1 ++ h2) = false.
Proof.
  revert a. induction h1 as [|x h1 IH]; intros a; [done|].
  destruct x; cbn [guarded app]; try apply IH.
  destruct a; cbn [andb]; [apply IH|done].
Qed.

(** The file branch emits its second progress signal right after the call of
    the scanner, without a reading of the flag in between. *)
Lemma file_branch_unguarded path st r :
  file_scan env = r → (∀ e, r ≠ Raise e) →
  ∃ more, trace (file_branch flag env path st)
          = more ++ [Emit (scan_progress "文件扫描完成" 90); Work "scan_file";
                     Emit (scan_progress ("正在扫描文件: " +:+ path) 0)] ++ trace st.
Proof.
  intros Hr Hok. unfold file_branch. rewrite Hr.
  destruct r as [res|e|]; [|by destruct (Hok e)|].
  - destruct (finish_extends
                (emit (scan_progress "文件扫描完成" 90)
                   (set_result (Ok res)
                      (act (Work "scan_file")
                         (emit (scan_progress ("正在扫描文件: " +:+ path) 0) st)))))
      as [more ->]. by exists more.
  - destruct (finish_extends
                (emit (scan_progress "文件扫描完成" 90)
                   (set_result Unmodelled
                      (act (Work "scan_file")
                         (emit (scan_progress ("正在扫描文件: " +:+ path) 0) st)))))
      as [more ->]. by exists more.
Qed.

(** The repository branch removes the clone on every path. *)
Lemma github_branch_cleans path st :
  Work "rmtree" ∈ trace (github_branch flag env path st).
Proof.
  assert (∀ e st, Work "rmtree" ∈ trace st →
                  Work "rmtree" ∈ trace (on_error flag e st)) as Herr.
  { intros e st' H. destruct (on_error_extends e st') as [more ->].
    apply elem_of_app. by right. }
  assert (∀ st, Work "rmtree" ∈ trace st → Work "rmtree" ∈ trace (finish flag st))
    as Hfin.
  { intros st' H. destruct (finish_extends st') as [more ->].
    apply elem_of_app. by right. }
  unfold github_branch.
  set (st1 := act (Work "clone_from") (emit _ st)).
  assert (Work "rmtree" ∈ trace
            (let '(interrupted, st) := isInterruptionRequested flag st1 in
             if interrupted then act (Work "rmtree") st else
             let st := emit (scan_progress "正在扫描仓库内容" 30) st in
             let '(r, st) := run_scan_directory env (progress_update_adjusted flag env)
                               "temp_dir" st in
             let st := act (Work "rmtree") st in
             match r with
             | Raise e => on_error flag e st
             | r => finish flag (set_result r st)
             end)) as Hgo.
  { unfold isInterruptionRequested. destruct (flag _); [apply list_elem_of_here|].
    destruct (run_scan_directory _ _ _ _) as [r st3].
    destruct r; [apply Hfin|apply Herr|apply Hfin]; apply list_elem_of_here. }
  destruct (clone env); [exact Hgo|apply Herr, list_elem_of_here|exact Hgo].
Qed.

Hypothesis never_set : ∀ n, flag n = false.

Lemma on_error_ended e st :
  no_terminal (trace st) = true → ended (on_error flag e st).
Proof.
  intros H. unfold on_error, isInterruptionRequested. rewrite never_set.
  eexists _, _. split; [reflexivity|]. split; [done|]. split; [done|]. done.
Qed.

Lemma finish_ended st :
  no_terminal (trace st) = true → ended (finish flag st).
Proof.
  intros H. unfold finish, isInterruptionRequested. rewrite never_set.
  cbn [result act]. destruct (result st) as [r|] eqn:Hr.
  - eexists _, _. split; [reflexivity|]. split; [done|]. split; [done|].
    by intros ? [= <-].
  - by apply on_error_ended.
Qed.

Lemma file_branch_ended path st :
  no_terminal (trace st) = true → ended (file_branch flag env path st).
Proof.
  intros H. unfold file_branch.
  destruct (file_scan env); [by apply finish_ended|by apply on_error_ended|
                             by apply finish_ended].
Qed.

Lemma dir_branch_ended path st :
  no_terminal (trace st) = true → ended (dir_branch flag env path st).
Proof.
  intros H. unfold dir_branch.
  set (st1 := emit (scan_progress ("正在准备扫描目录: " +:+ path) 0) st).
  pose proof (no_terminal_run_scan_directory (progress_update flag) path st1
                (λ m p st, no_terminal_progress_update m p st) H) as H2.
  destruct (run_scan_directory _ _ _ _) as [r st2]. cbn [snd] in H2.
  assert (ended (let st := set_result r st2 in
                 let '(interrupted, st) := isInterruptionRequested flag st in
                 if interrupted then st else finish flag st)) as Hgo.
  { cbv zeta. unfold isInterruptionRequested. rewrite never_set.
    by apply finish_ended. }
  destruct r; [exact Hgo|by apply on_error_ended|exact Hgo].
Qed.

Lemma github_branch_ended path st :
  no_terminal (trace st) = true → ended (github_branch flag env path st).
Proof.
  intros H. unfold github_branch.
  set (st1 := act (Work "clone_from") (emit _ st)).
  assert (ended (let '(interrupted, st) := isInterruptionRequested flag st1 in
            if interrupted then act (Work "rmtree") st else
            let st := emit (scan_progress "正在扫描仓库内容" 30) st in
            let '(r, st) := run_scan_directory env (progress_update_adjusted flag env)
                              "temp_dir" st in
            let st := act (Work "rmtree") st in
            match r with
            | Raise e => on_error flag e st
            | r => finish flag (set_result r st)
            end)) as Hgo.
  { unfold isInterruptionRequested. rewrite never_set.
    set (st2 := emit _ (act (Check false) st1)).
    pose proof (no_terminal_run_scan_directory (progress_update_adjusted flag env)
                  "temp_dir" st2
                  (λ m p st, no_terminal_progress_update_adjusted m p st) H) as H3.
    destruct (run_scan_directory _ _ _ _) as [r st3]. cbn [snd] in H3.
    destruct r; [by apply finish_ended|by apply on_error_ended|by apply finish_ended]. }
  destruct (clone env); [exact Hgo|by apply on_error_ended|exact Hgo].
Qed.

Lemma run_ended scan_type path : ended (run flag env scan_type path).
Proof.
  unfold run.
  set (st0 := {| trace := [Work "CodeScanner"]; result := None |}).
  assert (ended (let '(interrupted, st) := isInterruptionRequested flag st0 in
            if interrupted then st
            else if is_file_scan (lower scan_type) then file_branch flag env path st
            else if is_dir_scan (lower scan_type) then dir_branch flag env path st
            else if contains (lower scan_type) "github" then github_branch flag env path st
            else on_error flag ("不支持的扫描类型: " +:+ scan_type) st)) as Hgo.
  { unfold isInterruptionRequested. rewrite never_set.
    destruct (is_file_scan _); [by apply file_branch_ended|].
    destruct (is_dir_scan _); [by apply dir_branch_ended|].
    destruct (contains _ "github"); [by apply github_branch_ended|
                                     by apply on_error_ended]. }
  destruct (scanner_init env); [exact Hgo|by apply on_error_ended|exact Hgo].
Qed.

End Signal_facts.

Section Signal_claims.
Import Scanner Gui Signals.

(** X20. A scan thread that is never asked to stop ends, whatever the scan
    type and whatever fails on the way, by emitting exactly one terminal
    signal, completion or error, as its last action, and a completion signal
    carries the result it stored.  A thread that is asked to stop before it
    starts emits no signal and hands no file to the thread pool. *)
Theorem scan_thread_terminal_signal flag env scan_type path :
  ((∀ n, flag n = false) → ended (run flag env scan_type path)) ∧
  ((∀ n, flag n = true) → silent (run flag env scan_type path)).
Proof.
  split.
  - intros Hnever. by apply run_ended.
  - intros Halways. unfold run, silent, on_error, isInterruptionRequested.
    rewrite !Halways. destruct (scanner_init env); cbn; by repeat constructor.
Qed.

Lemma scan_thread_terminal_signal_witness :
  never 0 = false ∧ always 0 = true ∧
  ended (run never sound_run "Directory" "/proj") ∧
  silent (run always sound_run "Directory" "/proj").
Proof.
  split; [reflexivity|]. split; [reflexivity|]. split.
  - by apply (proj1 (scan_thread_terminal_signal never sound_run "Directory" "/proj")).
  - by apply (proj2 (scan_thread_terminal_signal always sound_run "Directory" "/proj")).
Defined.

(** X21. The flag guards the signals of every scan that is not a
    single-file scan (directory, repository, unsupported type): each signal
    follows a reading that found the flag unset, and none is emitted once a
    reading found it set.  A single-file scan that reaches the scanner is
    not guarded: after the one reading of the flag at its start it emits the
    0% signal, runs the scan, and emits the 90% signal for the finished file
    straight after the scan, without reading the flag again. *)
Theorem scan_thread_flag_guard flag env scan_type path :
  (is_file_scan (lower scan_type) = false →
   guarded false (history (run flag env scan_type path)) = true ∧
   (sticky flag → quiet_after_flag (history (run flag env scan_type path)))) ∧
  (is_file_scan (lower scan_type) = true → flag 1 = false →
   (∀ e, scanner_init env ≠ Raise e) → (∀ e, file_scan env ≠ Raise e) →
   (∃ after,
      history (run flag env scan_type path)
      = [Work "CodeScanner"; Check false;
         Emit (scan_progress ("正在扫描文件: " +:+ path) 0);
         Work "scan_file";
         Emit (scan_progress "文件扫描完成" 90)] ++ after) ∧
   guarded false (history (run flag env scan_type path)) = false).
Proof.
  split.
  - intros Hfile. pose proof (wf_run flag env scan_type path Hfile) as Hwf.
    split; [by apply (wf_guarded flag)|].
    intros Hsticky. by apply (wf_quiet flag).
  - intros Hfile Hflag Hinit Hscan.
    assert (∃ more, trace (run flag env scan_type path)
                    = more ++ [Emit (scan_progress "文件扫描完成" 90); Work "scan_file";
                               Emit (scan_progress ("正在扫描文件: " +:+ path) 0);
                               Check false; Work "CodeScanner"]) as [more Hmore].
    { unfold run, isInterruptionRequested. cbn [trace length]. rewrite Hflag, Hfile.
      destruct (scanner_init env) as [[]|e|] eqn:Hi; [|by destruct (Hinit e)|].
      - destruct (file_branch_unguarded flag env path
                    (act (Check false)
                       {| trace := [Work "CodeScanner"]; result := None |})
                    (file_scan env) eq_refl Hscan) as [more ->].
        by exists more.
      - destruct (file_branch_unguarded flag env path
                    (act (Check false)
                       {| trace := [Work "CodeScanner"]; result := None |})
                    (file_scan env) eq_refl Hscan) as [more ->].
        by exists more. }
    unfold history. rewrite Hmore, reverse_app. split.
    + by exists (reverse more).
    + apply guarded_app_false. reflexivity.
Qed.

Lemma scan_thread_flag_guard_witness :
  is_file_scan (lower "File") = true ∧ never 1 = false ∧
  (∀ e, scanner_init sound_run ≠ Raise e) ∧ (∀ e, file_scan sound_run ≠ Raise e) ∧
  guarded false (history (run never sound_run "File" "/proj/a.py")) = false ∧
  guarded false (history (run never sound_run "GitHub" "https://example.com/r.git"))
    = true.
Proof.
  assert (is_file_scan (lower "File") = true) as H1 by reflexivity.
  assert (never 1 = false) as H2 by reflexivity.
  assert (∀ e, scanner_init sound_run ≠ Raise e) as H3 by discriminate.
  assert (∀ e, file_scan sound_run ≠ Raise e) as H4 by discriminate.
  split; [exact H1|]. split; [exact H2|]. split; [exact H3|]. split; [exact H4|].
  split.
  - exact (proj2 (proj2 (scan_thread_flag_guard never sound_run "File" "/proj/a.py")
                    H1 H2 H3 H4)).
  - exact (proj1 (proj1 (scan_thread_flag_guard never sound_run "GitHub"
                           "https://example.com/r.git") eq_refl)).
Defined.

(** X22. A repository scan removes the directory it cloned into on every
    path through the thread: when the clone fails, when the thread is asked
    to stop after the clone, and when the scan of the clone returns or
    raises. *)
Theorem scan_thread_removes_clone flag env scan_type path :
  is_file_scan (lower scan_type) = false →
  is_dir_scan (lower scan_type) = false →
  contains (lower scan_type) "github" = true →
  flag 1 = false → (∀ e, scanner_init env ≠ Raise e) →
  ∃ before after,
    history (run flag env scan_type path)
    = before ++ Work "clone_from" :: after ∧ Work "rmtree" ∈ after.
Proof.
  intros Hfile Hdir Hgit Hflag Hinit. unfold history.
  assert (trace (run flag env scan_type path)
          = trace (github_branch flag env path
                     (act (Check false)
                        {| trace := [Work "CodeScanner"]; result := None |}))) as ->.
  { unfold run, isInterruptionRequested. cbn [trace length].
    rewrite Hflag, Hfile, Hdir, Hgit.
    by destruct (scanner_init env) as [[]|e|]; [|destruct (Hinit e)|]. }
  pose proof (github_branch_cleans flag env path
                (act (Check false) {| trace := [Work "CodeScanner"]; result := None |}))
    as Hclean.
  assert (∃ more, trace (github_branch flag env path
                           (act (Check false)
                              {| trace := [Work "CodeScanner"]; result := None |}))
                  = more ++ [Work "clone_from";
                             Emit (scan_progress ("正在克隆仓库: " +:+ path) 10);
                             Check false; Work "CodeScanner"]) as [more Hmore].
  { clear Hflag Hclean. unfold github_branch.
    set (st1 := act (Work "clone_from") (emit _ _)).
    set (ext := λ st : thread, ∃ m, trace st = m ++ trace st1).
    assert (ext st1) as H1 by (by exists []).
    assert (∀ a st, ext st → ext (act a st)) as Hact.
    { intros a st' [m Hm]. exists (a :: m). cbn [trace act]. by rewrite Hm. }
    assert (∀ e st, ext st → ext (on_error flag e st)) as Herr.
    { intros e st' [m Hm]. destruct (on_error_extends flag e st') as [m' Hm'].
      exists (m' ++ m). by rewrite Hm', Hm, app_assoc. }
    assert (∀ st, ext st → ext (finish flag st)) as Hfin.
    { intros st' [m Hm]. destruct (finish_extends flag st') as [m' Hm'].
      exists (m' ++ m). by rewrite Hm', Hm, app_assoc. }
    assert (ext (let '(interrupted, st) := isInterruptionRequested flag st1 in
                 if interrupted then act (Work "rmtree") st else
                 let st := emit (scan_progress "正在扫描仓库内容" 30) st in
                 let '(r, st) := run_scan_directory env
                                   (progress_update_adjusted flag env) "temp_dir" st in
                 let st := act (Work "rmtree") st in
                 match r with
                 | Raise e => on_error flag e st
                 | r => finish flag (set_result r st)
                 end)) as Hgo.
    { unfold isInterruptionRequested. destruct (flag _); [by do 2 apply Hact|].
      set (st2 := emit _ (act (Check false) st1)).
      assert (ext (run_scan_directory env (progress_update_adjusted flag env)
                     "temp_dir" st2).2) as Hscan.
      { unfold run_scan_directory. apply (scan_directory_invariant _ _ _ ext).
        - intros message percent w Hw. cbn [notify].
          unfold progress_update_adjusted, isInterruptionRequested.
          destruct (flag _); unfold emit; by repeat apply Hact.
        - intros f w Hw. by apply Hact.
        - unfold st2, emit. by do 2 apply Hact. }
      destruct (run_scan_directory _ _ _ _) as [r st3]. cbn [snd] in Hscan.
      destruct r; [apply Hfin|apply Herr|apply Hfin];
        try (change (trace (set_result ?r ?st)) with (trace st));
        by apply (Hact (Work "rmtree")) in Hscan. }
    destruct (clone env); [exact Hgo| |exact Hgo].
    by apply Herr, Hact. }
  rewrite Hmore in Hclean |- *.
  exists [Work "CodeScanner"; Check false;
          Emit (scan_progress ("正在克隆仓库: " +:+ path) 10)], (reverse more).
  split.
  - by rewrite reverse_app.
  - apply elem_of_reverse. apply elem_of_app in Hclean as [?|Hin]; [done|].
    repeat (apply elem_of_cons in Hin as [Hin|Hin]; [discriminate Hin|]).
    by apply elem_of_nil in Hin.
Qed.

Lemma scan_thread_removes_clone_witness :
  is_file_scan (lower "GitHub") = false ∧ is_dir_scan (lower "GitHub") = false ∧
  contains (lower "GitHub") "github" = true ∧ never 1 = false ∧
  (∀ e, scanner_init sound_run ≠ Raise e) ∧
  ∃ before after,
    history (run never sound_run "GitHub" "https://example.com/r.git")
    = before ++ Work "clone_from" :: after ∧ Work "rmtree" ∈ after.
Proof.
  assert (∀ e, scanner_init sound_run ≠ Raise e) as H by discriminate.
  repeat (split; [first [reflexivity|exact H]|]).
  exact (scan_thread_removes_clone never sound_run "GitHub" "https://example.com/r.git"
           eq_refl eq_refl eq_refl eq_refl H).
Defined.

End Signal_claims.

(** ** More on the importer *)

Section Importer_facts.
Import VulnDB Semgrep Importer.

Implicit Types (result : buckets) (r : rule).

Lemma lower_char_idemp c : lower_char (lower_char c) = lower_char c.
Proof. destruct c as [[] [] [] [] [] [] [] []]; vm_compute; done. Qed.

Lemma lower_idemp s : lower (lower s) = lower s.
Proof. induction s as [|c s IH]; simpl; [done|]. by rewrite lower_char_idemp, IH. Qed.

(** X23. Whatever Semgrep rule is converted, the pattern that is stored is
    an escaped text: on ASCII text and ASCII content, as a case-insensitive
    regular expression it matches that text literally and nothing else, so
    no alternation, wildcard or look-ahead of the source pattern survives.
    The severity is stored in lower case, the id is the id of the Semgrep
    rule and the source is [semgrep]. *)
Theorem convert_semgrep_rule_literal (rule : Semgrep.dict) r :
  convert_semgrep_rule rule = Ok r →
  (∃ text, rule_pattern r = Some (Re.escape text) ∧
     ∀ content, Text.isascii text = true → Text.isascii content = true →
       Re.search_ignorecase (Re.escape text) content
       = Some (contains (lower content) (lower text))) ∧
  (∃ sev, rule_severity r = Some sev ∧ lower sev = sev) ∧
  get_str rule "id" "" = Ok (rule_id r) ∧
  rule_source r = Some "semgrep".
Proof.
  unfold convert_semgrep_rule. intros H.
  destruct (get_str rule "id" "") as [i| |]; [rewrite bind_Ok in H|done..].
  match type of H with
  | (?m ≫= _) = _ => destruct m as [langs| |]; [rewrite bind_Ok in H|done..]
  end.
  match type of H with
  | (?m ≫= _) = _ => destruct m as [sev| |] eqn:Hsev; [rewrite bind_Ok in H|done..]
  end.
  do 2 match type of H with
       | (?m ≫= _) = _ => destruct m; [rewrite bind_Ok in H|done..]
       end.
  match type of H with
  | (?m ≫= _) = _ => destruct m as [pattern| |]; [rewrite bind_Ok in H|done..]
  end.
  match type of H with
  | (?m ≫= _) = _ => destruct m as [text| |]; [rewrite bind_Ok in H|done..]
  end.
  injection H as <-. cbn [rule_pattern rule_severity rule_id rule_source].
  split; [|split; [|done]].
  - eexists. split; [reflexivity|]. intros content _ _. apply search_escaped.
  - exists sev. split; [done|].
    destruct (dict_get rule "severity") as [[| | | |s| |]|]; try discriminate Hsev.
    + injection Hsev as <-. apply lower_idemp.
    + by injection Hsev as <-.
Qed.

Lemma convert_semgrep_rule_literal_witness :
  convert_semgrep_rule (either_rule []) = Ok (either_converted []) ∧
  ∃ text, rule_pattern (either_converted []) = Some (Re.escape text) ∧
    ∀ content, Text.isascii text = true → Text.isascii content = true →
      Re.search_ignorecase (Re.escape text) content
      = Some (contains (lower content) (lower text)).
Proof.
  assert (convert_semgrep_rule (either_rule []) = Ok (either_converted [])) as H
    by reflexivity.
  split; [exact H|].
  exact (proj1 (convert_semgrep_rule_literal (either_rule []) (either_converted []) H)).
Defined.

(** *** The buckets of an import *)

Lemma extend_bucket_keys result k rules :
  ∃ more, (extend_bucket result k rules).*1 = result.*1 ++ more ∧
          (more = [] ∧ k ∈ result.*1 ∨ more = [k] ∧ k ∉ result.*1).
Proof.
  induction result as [|[k0 b] result IH]; cbn [extend_bucket].
  - exists [k]. split; [done|]. right. split; [done|apply not_elem_of_nil].
  - destruct (String.eqb_spec k0 k) as [->|Hne].
    + exists []. cbn. rewrite app_nil_r. split; [done|]. left.
      split; [done|apply list_elem_of_here].
    + destruct IH as (more & Hkeys & Hmore). exists more. cbn [fmap list_fmap fst].
      fold (fmap (M:=list) (@fst string (list rule))). rewrite Hkeys.
      split; [done|].
      destruct Hmore as [[-> ?]|[-> ?]]; [left|right]; (split; [done|]).
      * by apply list_elem_of_further.
      * apply not_elem_of_cons. split; [by intros ->|done].
Qed.

Lemma extend_bucket_elem result k rules k' rules' :
  (k', rules') ∈ extend_bucket result k rules →
  (k', rules') ∈ result ∨
  k' = k ∧ (rules' = rules ∨ ∃ b, (k, b) ∈ result ∧ rules' = b ++ rules).
Proof.
  induction result as [|[k0 b] result IH]; cbn [extend_bucket].
  - intros [= -> ->]%list_elem_of_singleton. right. auto.
  - destruct (String.eqb_spec k0 k) as [->|Hne].
    + intros [[= -> ->]|Hin]%elem_of_cons.
      * right. split; [done|]. right. exists b. split; [apply list_elem_of_here|done].
      * left. by apply list_elem_of_further.
    + intros [[= -> ->]|Hin]%elem_of_cons.
      * left. apply list_elem_of_here.
      * destruct (IH Hin) as [?|[-> [->|(b' & Hb' & ->)]]].
        -- left. by apply list_elem_of_further.
        -- right. auto.
        -- right. split; [done|]. right. exists b'.
           split; [by apply list_elem_of_further|done].
Qed.

Lemma filed_extend keys result k rules :
  filed keys result → (∀ r, r ∈ rules → k ∈ rule_buckets r) →
  filed keys (extend_bucket result k rules).
Proof.
  intros (Hnd & Hpre & Hown) Hrules.
  destruct (extend_bucket_keys result k rules) as (more & Hkeys & Hmore).
  split; [|split].
  - rewrite Hkeys. destruct Hmore as [[-> _]|[-> Hk]]; [by rewrite app_nil_r|].
    apply NoDup_app. split; [done|]. split; [|apply NoDup_singleton].
    intros x Hx ->%list_elem_of_singleton. done.
  - rewrite Hkeys. by apply prefix_app_r.
  - intros k' rules' r Hin Hr.
    destruct (extend_bucket_elem _ _ _ _ _ Hin) as [Hold|[-> [->|(b & Hb & ->)]]].
    + by apply (Hown k' rules').
    + by apply Hrules.
    + apply elem_of_app in Hr as [Hr|Hr]; [by apply (Hown k b)|by apply Hrules].
Qed.

Lemma filed_convert_rules keys result rules result' :
  filed keys result → convert_rules result rules = Ok result' → filed keys result'.
Proof.
  revert result. induction rules as [|v rest IH]; intros result Hres; cbn [convert_rules].
  - by intros [= <-].
  - destruct v as [| | | | | |rule]; try by apply IH.
    destruct (convert_semgrep_rule rule) as [converted|e|]; [|by apply IH|done].
    apply IH.
    assert (∀ langs, (∀ lang, lang ∈ langs → lang ∈ rule_buckets converted) →
              filed keys (foldl (λ res lang, extend_bucket res lang [converted])
                                result langs)) as Hfold; [|by apply Hfold].
    intros langs. revert result Hres.
    induction langs as [|lang langs IHl]; intros result Hres Hlangs; [done|].
    cbn [foldl]. apply IHl.
    + apply filed_extend; [done|]. intros r ->%list_elem_of_singleton.
      apply Hlangs, list_elem_of_here.
    + intros l Hl. by apply Hlangs, list_elem_of_further.
Qed.

Lemma filed_convert_files keys result files result' :
  filed keys result → convert_files result files = Ok result' → filed keys result'.
Proof.
  revert result. induction files as [|f rest IH]; intros result Hres; cbn [convert_files].
  - by intros [= <-].
  - destruct (convert_semgrep_rules_file f) as [file_rules| |] eqn:Hf; [|done..].
    rewrite bind_Ok. apply IH.
    assert (own_buckets file_rules) as Hown.
    { unfold convert_semgrep_rules_file in Hf. destruct f as [content|e|].
      - refine (proj2 (proj2 (filed_convert_rules [] [] _ _ _ Hf))).
        split; [apply NoDup_nil_2|]. split; [done|].
        intros k rules r Hin. by apply elem_of_nil in Hin.
      - injection Hf as <-. intros k rules r Hin. by apply elem_of_nil in Hin.
      - done. }
    clear Hf. revert result Hres.
    induction file_rules as [|[k rules] file_rules IHf]; intros result Hres; [done|].
    cbn [foldl]. apply IHf.
    + intros k' rules' r Hin. apply (Hown k' rules'). by apply list_elem_of_further.
    + apply filed_extend; [done|]. intros r Hr.
      apply (Hown k rules); [apply list_elem_of_here|done].
Qed.

(** X24. The result of importing a directory of Semgrep rules is a
    dictionary with distinct keys that starts with the nine default
    languages, and every rule in it sits in a bucket named after one of its
    own languages, in lower case, or in [common] when it has none. *)
Theorem convert_semgrep_rules_dir_buckets directory result :
  convert_semgrep_rules_dir directory = Ok result →
  NoDup result.*1 ∧
  ["common"; "python"; "javascript"; "java"; "go"; "ruby"; "php"; "c"; "cpp"]
    `prefix_of` result.*1 ∧
  ∀ k rules r, (k, rules) ∈ result → r ∈ rules →
    k ∈ rule_buckets r ∧ lower k = k.
Proof.
  unfold convert_semgrep_rules_dir. intros H.
  apply (filed_convert_files (initial_buckets.*1)) in H as (Hnd & Hpre & Hown).
  - split; [done|]. split; [done|]. intros k rules r Hin Hr.
    pose proof (Hown k rules r Hin Hr) as Hk. split; [done|].
    unfold rule_buckets in Hk. destruct (rule_languages r) as [|l langs].
    + by apply list_elem_of_singleton in Hk as ->.
    + apply list_elem_of_fmap in Hk as (x & -> & _). apply lower_idemp.
  - split; [|split; [done|]].
    + apply (bool_decide_unpack _). vm_compute. exact I.
    + intros k rules r Hin Hr. unfold initial_buckets in Hin.
      repeat (apply elem_of_cons in Hin as [[= _ ->]|Hin];
              [by apply elem_of_nil in Hr|]).
      by apply elem_of_nil in Hin.
Qed.

Lemma convert_semgrep_rules_dir_buckets_witness :
  ∃ result,
    convert_semgrep_rules_dir (either_directory [VStr "Python"; VStr "java"])
      = Ok result ∧
    NoDup result.*1 ∧
    ∀ k rules r, (k, rules) ∈ result → r ∈ rules →
      k ∈ rule_buckets r ∧ lower k = k.
Proof.
  eexists. split; [reflexivity|].
  destruct (convert_semgrep_rules_dir_buckets
              (either_directory [VStr "Python"; VStr "java"]) _ eq_refl)
    as (Hnd & _ & Hown).
  split; [exact Hnd|exact Hown].
Defined.

End Importer_facts.

(** ** The import from a repository *)

Section Github_facts.
Import VulnDB Semgrep Cli Github.

Implicit Types (repo : repository) (result : buckets) (pats : patterns).

Lemma count_rules_from result n :
  foldl (λ total_rules kv, total_rules + length kv.2) n result
  = n + length (mjoin result.*2).
Proof.
  revert n. induction result as [|[k rules] result IH]; intros n; cbn [foldl].
  - cbn. lia.
  - rewrite IH.
    change (mjoin (((k, rules) :: result).*2)) with (rules ++ mjoin result.*2).
    rewrite length_app. cbn [snd]. lia.
Qed.

Lemma count_rules_length result : count_rules result = length (mjoin result.*2).
Proof. unfold count_rules. by rewrite count_rules_from. Qed.

(** X25. The clone is tried at most three times, the first attempt that
    returns ends the loop, the import sleeps 2 seconds after the first failed
    attempt and 4 seconds after the second and not at all after the third,
    and the temporary directory is removed last, whatever happened.  When
    the three attempts fail the answer is the empty dictionary and 0. *)
Theorem import_from_github_retries repo languages :
  let '(answer, log) := import_from_github repo languages in
  (clone_ok repo 1 = true ∧ log = [Clone 1; Rmtree]) ∨
  (clone_ok repo 1 = false ∧ clone_ok repo 2 = true ∧
   log = [Clone 1; Sleep 2; Clone 2; Rmtree]) ∨
  (clone_ok repo 1 = false ∧ clone_ok repo 2 = false ∧
   log = [Clone 1; Sleep 2; Clone 2; Sleep 4; Clone 3; Rmtree] ∧
   (clone_ok repo 3 = false → answer = Ok ([], 0))).
Proof.
  unfold import_from_github, retry_times. cbn [clone_loop Nat.ltb Nat.leb Nat.add Nat.mul app].
  destruct (clone_ok repo 1) eqn:H1; [by left|].
  destruct (clone_ok repo 2) eqn:H2; [right; by left|].
  destruct (clone_ok repo 3) eqn:H3; right; right; repeat split; done.
Qed.

Lemma import_from_github_answer repo languages :
  match (import_from_github repo languages).1 with
  | Ok (new_rules, rule_count) => rule_count = length (mjoin new_rules.*2)
  | Raise _ => False
  | Unmodelled => True
  end.
Proof.
  unfold import_from_github. destruct (clone_loop _ _ _ _) as [[[] log]|]; cbn [fst].
  - destruct (match languages with [] => _ | _ => _ end) as [result|e|]; [| |done].
    + apply count_rules_length.
    + done.
  - done.
  - done.
Qed.

(** X26. [import_github_rules] reports success exactly when the import
    converted at least one rule.  The count it returns is then the growth of
    the store, which can be anything from 0 to the number of converted rules;
    on failure the count is 0 and the store is the one it was. *)
Theorem import_github_rules_growth repo pats languages ok n pats' :
  (import_github_rules repo pats languages).1 = Ok (ok, n, pats') →
  total_rules pats' = total_rules pats + n ∧
  (ok = false → n = 0 ∧ pats' = pats) ∧
  ∃ new_rules rule_count,
    (import_from_github repo languages).1 = Ok (new_rules, rule_count) ∧
    rule_count = length (mjoin new_rules.*2) ∧
    ok = bool_decide (0 < rule_count) ∧ n ≤ rule_count.
Proof.
  unfold import_github_rules.
  pose proof (import_from_github_answer repo languages) as Hanswer.
  destruct (import_from_github repo languages) as [[[new_rules rule_count]|e|] log];
    cbn [fst] in *; [|done..].
  destruct (Nat.ltb_spec 0 rule_count) as [Hpos|Hzero].
  - destruct (merge_langs_steps pats 0 new_rules)
      as (pats1 & n1 & Hmerge & Htot & Hle & _).
    unfold _merge_rules. rewrite Hmerge. intros [= <- <- <-].
    split; [lia|]. split; [done|]. exists new_rules, rule_count.
    split; [done|]. split; [done|]. split; [by rewrite bool_decide_eq_true_2|lia].
  - intros [= <- <- <-]. split; [lia|]. split; [done|].
    exists new_rules, rule_count. split; [done|]. split; [done|].
    split; [rewrite bool_decide_eq_false_2; [done|lia]|lia].
Qed.

Lemma import_github_rules_growth_witness :
  ∃ n pats',
    (import_github_rules python_repo ∅ []).1 = Ok (true, n, pats') ∧
    total_rules pats' = total_rules ∅ + n.
Proof.
  assert (∃ n pats', (import_github_rules python_repo ∅ []).1 = Ok (true, n, pats'))
    as (n & pats' & H).
  { unfold import_github_rules.
    destruct (import_from_github python_repo []) as [answer log] eqn:Himp.
    vm_compute in Himp. injection Himp as <- <-.
    cbn [Nat.ltb Nat.leb fst]. unfold _merge_rules.
    match goal with
    | |- context [merge_langs (∅, 0) ?new_rules] =>
        destruct (merge_langs_steps ∅ 0 new_rules) as (pats1 & n1 & -> & _)
    end.
    by exists n1, pats1. }
  exists n, pats'. split; [exact H|].
  exact (proj1 (import_github_rules_growth _ _ _ _ _ _ H)).
Defined.

End Github_facts.

(** ** The rule manager *)

Section RuleManager_facts.
Import VulnDB Cli RuleManager.

Implicit Types (pats : patterns) (bucket : list rule) (r : rule) (f : form).

Lemma total_rules_set pats lang bucket :
  total_rules (<[lang := bucket]> pats) + length (bucket_of pats lang)
  = total_rules pats + length bucket.
Proof.
  rewrite (total_rules_delete pats lang).
  rewrite <- insert_delete_eq, total_rules_insert by apply lookup_delete_eq. lia.
Qed.

(** The search returns the first rule that carries the id. *)
Lemma find_rule_spec rules rule_id k :
  match find_rule k rules rule_id with
  | Ok (Some (i, r)) =>
      ∃ before after, rules = before ++ r :: after ∧ i = k + length before ∧
        VulnDB.rule_id r = rule_id ∧ rule_id ≠ "" ∧
        rule_id ∉ VulnDB.rule_id <$> before
  | Ok None => rule_id ∉ VulnDB.rule_id <$> rules
  | Raise _ => False
  | Unmodelled => rule_id = ""
  end.
Proof.
  revert k. induction rules as [|r rest IH]; intros k; cbn [find_rule].
  - apply not_elem_of_nil.
  - destruct (String.eqb_spec (VulnDB.rule_id r) rule_id) as [Heq|Hne].
    + destruct (String.eqb_spec rule_id "") as [Hempty|Hfull]; [done|].
      exists [], rest. cbn. split; [done|]. split; [lia|]. split; [done|].
      split; [done|apply not_elem_of_nil].
    + specialize (IH (S k)). destruct (find_rule (S k) rest rule_id) as [[[i r']|]| |].
      * destruct IH as (before & after & -> & -> & Hid & Hfull & Hnot).
        exists (r :: before), after. cbn. split; [done|]. split; [lia|].
        split; [done|]. split; [done|].
        apply not_elem_of_cons. split; [by intros ->|done].
      * cbn. apply not_elem_of_cons. split; [by intros ->|done].
      * done.
      * done.
Qed.

Lemma find_rule_first rules rule_id before r after :
  rule_id ≠ "" → rules = before ++ r :: after → VulnDB.rule_id r = rule_id →
  rule_id ∉ VulnDB.rule_id <$> before →
  find_rule 0 rules rule_id = Ok (Some (length before, r)).
Proof.
  intros Hfull -> Hid Hnot. pose proof (find_rule_spec (before ++ r :: after) rule_id 0) as H.
  destruct (find_rule 0 _ rule_id) as [[[i r']|]| |].
  - destruct H as (before' & after' & Heq & -> & Hid' & _ & Hnot').
    assert (before' = before) as ->.
    { clear -Heq Hid Hid' Hnot Hnot'. revert before' Heq Hnot'.
      induction before as [|x before IH]; intros [|y before'] Heq Hnot'; cbn in *.
      - done.
      - injection Heq as <- _. exfalso. apply Hnot'. rewrite Hid. apply list_elem_of_here.
      - injection Heq as -> _. exfalso. apply Hnot. rewrite Hid'. apply list_elem_of_here.
      - injection Heq as <- Heq. f_equal. apply IH; [|done|].
        + intros Hin. apply Hnot. by apply list_elem_of_further.
        + intros Hin. apply Hnot'. by apply list_elem_of_further. }
    apply app_inv_head in Heq. injection Heq as <- _. done.
  - exfalso. apply H. rewrite fmap_app, fmap_cons, Hid. apply elem_of_app. right.
    apply list_elem_of_here.
  - done.
  - done.
Qed.

Lemma delete_middle {A} (before : list A) x after :
  delete (length before) (before ++ x :: after) = before ++ after.
Proof. induction before as [|y before IH]; cbn; [done|]. by f_equal. Qed.

Lemma insert_middle {A} (before : list A) x y after :
  <[length before := y]> (before ++ x :: after) = before ++ y :: after.
Proof. induction before as [|z before IH]; cbn; [done|]. by f_equal. Qed.

Lemma bucket_of_Some pats lang bucket :
  bucket_of pats lang = bucket → bucket ≠ [] → pats !! lang = Some bucket.
Proof.
  unfold bucket_of. destruct (pats !! lang) as [b|]; cbn; [by intros ->|].
  by intros <-.
Qed.

(** X27. A confirmed delete removes exactly one rule: the first rule of the
    listed bucket that carries the selected id, whichever row was selected.
    The other buckets are untouched, the bucket stays in the store even when
    it is left empty, and a store without this id is not changed. *)
Theorem delete_rule_first_match pats current_language rule_id :
  rule_id ≠ "" →
  ∃ pats', delete_rule pats current_language (Some rule_id) true = Ok pats' ∧
    (∀ lang, lang ≠ current_language → pats' !! lang = pats !! lang) ∧
    (rule_id ∉ VulnDB.rule_id <$> bucket_of pats current_language → pats' = pats) ∧
    (∀ before r after,
       bucket_of pats current_language = before ++ r :: after →
       VulnDB.rule_id r = rule_id → rule_id ∉ VulnDB.rule_id <$> before →
       pats' !! current_language = Some (before ++ after)).
Proof.
  intros Hfull. unfold delete_rule.
  pose proof (find_rule_spec (bucket_of pats current_language) rule_id 0) as Hfind.
  destruct (find_rule 0 _ rule_id) as [[[i r]|]| |] eqn:Hsearch; [| |done..].
  - destruct Hfind as (before & after & Hbucket & -> & Hid & _ & Hnot).
    rewrite bind_Ok. unfold bucket_at.
    rewrite (bucket_of_Some pats current_language _ Hbucket) by by destruct before.
    rewrite bind_Ok. unfold list_pop.
    destruct (Nat.ltb_spec (0 + length before) (length (before ++ r :: after)))
      as [_|Hge]; [|rewrite length_app in Hge; cbn in Hge; lia].
    rewrite bind_Ok. eexists. split; [done|]. split; [|split].
    + intros lang Hne. by rewrite lookup_insert_ne.
    + intros Habsent. exfalso. apply Habsent. rewrite Hbucket, fmap_app, fmap_cons, Hid.
      apply elem_of_app. right. apply list_elem_of_here.
    + intros before' r' after' Hbucket' Hid' Hnot'. rewrite lookup_insert_eq.
      rewrite <- Hbucket, Hbucket'. rewrite Hbucket' in Hsearch.
      rewrite (find_rule_first _ rule_id before' r' after' Hfull eq_refl Hid' Hnot')
        in Hsearch.
      injection Hsearch as Hlen _. rewrite <- Hlen. cbn [Nat.add].
      by rewrite delete_middle.
  - rewrite bind_Ok. exists pats. split; [done|]. split; [done|]. split; [done|].
    intros before r after Hbucket Hid _. exfalso. apply Hfind.
    rewrite Hbucket, fmap_app, fmap_cons, Hid. apply elem_of_app. right.
    apply list_elem_of_here.
Qed.

Lemma delete_rule_first_match_witness :
  ∃ pats', delete_rule common_store "common" (Some "common-1") true = Ok pats' ∧
    pats' !! "common" = Some [].
Proof.
  destruct (delete_rule_first_match common_store "common" "common-1" ltac:(discriminate))
    as (pats' & H & _ & _ & Hfirst).
  exists pats'. split; [exact H|].
  apply (Hfirst [] hardcoded_secret []); [|done|apply not_elem_of_nil].
  unfold bucket_of, common_store. by rewrite lookup_singleton_eq.
Defined.

(** X28. Editing a rule that is filed under its own first language works as
    intended: with the language kept, the rule is replaced in place; with
    another language chosen, it leaves its bucket and becomes the last rule
    of the chosen one.  The number of stored rules is the same, the other
    buckets are untouched, and the stored rule is the seven-key dictionary
    of the dialog. *)
Theorem edit_rule_well_filed pats current_language rule_id f before r after more :
  rule_id ≠ "" →
  bucket_of pats current_language = before ++ r :: after →
  VulnDB.rule_id r = rule_id → rule_id ∉ VulnDB.rule_id <$> before →
  rule_languages r = current_language :: more →
  ∃ pats',
    edit_rule pats current_language (Some rule_id) (Some f) = Ok pats' ∧
    (∀ lang, lang ≠ current_language → lang ≠ lang_combo f →
       pats' !! lang = pats !! lang) ∧
    total_rules pats' = total_rules pats ∧
    if decide (lang_combo f = current_language)
    then pats' !! current_language = Some (before ++ get_rule_data r f :: after)
    else pats' !! current_language = Some (before ++ after) ∧
         pats' !! lang_combo f
         = Some (bucket_of pats (lang_combo f) ++ [get_rule_data r f]).
Proof.
  intros Hfull Hbucket Hid Hnot Hlang. unfold edit_rule.
  rewrite (find_rule_first _ rule_id before r after Hfull Hbucket Hid Hnot), bind_Ok.
  unfold first_language. rewrite Hlang, bind_Ok. unfold bucket_at.
  assert (pats !! current_language = Some (before ++ r :: after)) as Hcur
    by (apply bucket_of_Some; [done|by destruct before]).
  assert (length before < length (before ++ r :: after)) as Hlt
    by (rewrite length_app; cbn; lia).
  pose proof (total_rules_set pats current_language) as Htot.
  rewrite Hbucket in Htot.
  destruct (decide (lang_combo f = current_language)) as [Hsame|Hmove].
  - rewrite bool_decide_eq_false_2 by (intros H; by apply H).
    rewrite Hcur, bind_Ok. apply Nat.ltb_lt in Hlt as ->. eexists. split; [done|].
    split; [|split].
    + intros lang Hne _. by rewrite lookup_insert_ne.
    + specialize (Htot (<[length before := get_rule_data r f]> (before ++ r :: after))).
      rewrite length_insert in Htot. lia.
    + by rewrite lookup_insert_eq, insert_middle.
  - rewrite bool_decide_eq_true_2 by (intros H; by apply Hmove).
    rewrite Hcur, bind_Ok. unfold list_pop. apply Nat.ltb_lt in Hlt as ->.
    rewrite bind_Ok, delete_middle. cbn zeta.
    specialize (Htot (before ++ after)). rewrite !length_app in Htot. cbn in Htot.
    set (pats1 := <[current_language := before ++ after]> pats) in *.
    assert (pats1 !! lang_combo f = pats !! lang_combo f) as Hnew
      by (unfold pats1; by rewrite lookup_insert_ne).
    assert (bucket_of pats1 (lang_combo f) = bucket_of pats (lang_combo f)) as Hb
      by (unfold bucket_of; by rewrite Hnew).
    destruct (pats1 !! lang_combo f) as [b|] eqn:Hl.
    + eexists. split; [done|]. split; [|split; [|split]].
      * intros lang Hne1 Hne2. unfold pats1. by rewrite !lookup_insert_ne.
      * pose proof (total_rules_set pats1 (lang_combo f)
                      (bucket_of pats1 (lang_combo f) ++ [get_rule_data r f])) as Ht.
        rewrite length_app in Ht. cbn in Ht. clearbody pats1. lia.
      * rewrite lookup_insert_ne by done. unfold pats1. by rewrite lookup_insert_eq.
      * by rewrite lookup_insert_eq, Hb.
    + assert (bucket_of (<[lang_combo f := []]> pats1) (lang_combo f) = []) as ->
        by (unfold bucket_of; by rewrite lookup_insert_eq).
      rewrite insert_insert_eq. cbn [app].
      eexists. split; [done|]. split; [|split; [|split]].
      * intros lang Hne1 Hne2. unfold pats1. by rewrite !lookup_insert_ne.
      * pose proof (total_rules_set pats1 (lang_combo f) [get_rule_data r f]) as Ht.
        unfold bucket_of in Ht. rewrite Hl in Ht. cbn in Ht. clearbody pats1. lia.
      * rewrite lookup_insert_ne by done. unfold pats1. by rewrite lookup_insert_eq.
      * rewrite lookup_insert_eq. unfold bucket_of. by rewrite <- Hnew.
Qed.

Lemma edit_rule_well_filed_witness :
  ∃ pats',
    edit_rule Samples.pickle_store "python" (Some "python-1")
              (Some (retitle Samples.pickle_rule "go")) = Ok pats' ∧
    pats' !! "python" = Some [] ∧
    total_rules pats' = total_rules Samples.pickle_store.
Proof.
  destruct (edit_rule_well_filed Samples.pickle_store "python" "python-1"
              (retitle Samples.pickle_rule "go") [] Samples.pickle_rule [] [])
    as (pats' & H & _ & Htot & Hmoved).
  - discriminate.
  - unfold bucket_of, Samples.pickle_store. by rewrite lookup_singleton_eq.
  - reflexivity.
  - apply not_elem_of_nil.
  - reflexivity.
  - exists pats'. split; [exact H|].
    destruct (decide (lang_combo (retitle Samples.pickle_rule "go") = "python"))
      as [Heq|_]; [discriminate Heq|].
    split; [exact (proj1 Hmoved)|exact Htot].
Defined.

(** X29. Editing a rule that is listed in one bucket while its first
    language names another one never changes that rule.  The position found
    in the listed bucket is applied to the bucket of the first language: when
    there is no such bucket, or it is too short, the edit ends in an
    exception; otherwise the rule that happens to sit at this position there
    is overwritten or removed, and the edited rule stays where it was with
    its old content. *)
Theorem edit_rule_misfiled pats current_language rule_id f before r after old_lang more :
  rule_id ≠ "" →
  bucket_of pats current_language = before ++ r :: after →
  VulnDB.rule_id r = rule_id → rule_id ∉ VulnDB.rule_id <$> before →
  rule_languages r = old_lang :: more →
  old_lang ≠ current_language →
  match pats !! old_lang ≫= (λ bucket, bucket !! length before) with
  | None => ∃ e, edit_rule pats current_language (Some rule_id) (Some f) = Raise e
  | Some victim =>
      ∃ pats' bucket,
        edit_rule pats current_language (Some rule_id) (Some f) = Ok pats' ∧
        bucket_of pats' current_language !! length before = Some r ∧
        pats !! old_lang = Some bucket ∧
        pats' !! old_lang
        = Some (if decide (lang_combo f = old_lang)
                then <[length before := get_rule_data r f]> bucket
                else delete (length before) bucket)
  end.
Proof.
  intros Hfull Hbucket Hid Hnot Hlang Hne. unfold edit_rule.
  rewrite (find_rule_first _ rule_id before r after Hfull Hbucket Hid Hnot), bind_Ok.
  unfold first_language. rewrite Hlang, bind_Ok. unfold bucket_at, list_pop.
  assert (bucket_of pats current_language !! length before = Some r) as Hstays.
  { rewrite Hbucket. by rewrite lookup_app_r, Nat.sub_diag by lia. }
  destruct (pats !! old_lang) as [bucket|] eqn:Hold; cbn [mbind option_bind].
  2:{ destruct (bool_decide (old_lang ≠ lang_combo f)); by eexists. }
  rewrite !bind_Ok.
  destruct (bucket !! length before) as [victim|] eqn:Hvictim.
  2:{ apply lookup_ge_None in Hvictim. apply Nat.ltb_ge in Hvictim as ->.
      destruct (bool_decide (old_lang ≠ lang_combo f)); by eexists. }
  apply lookup_lt_Some in Hvictim. apply Nat.ltb_lt in Hvictim as ->.
  destruct (decide (lang_combo f = old_lang)) as [Hsame|Hmove].
  - rewrite bool_decide_eq_false_2 by (intros H; by apply H).
    eexists _, bucket. split; [done|]. split; [|split; [done|]].
    + unfold bucket_of. rewrite lookup_insert_ne by done. exact Hstays.
    + by rewrite lookup_insert_eq.
  - rewrite bool_decide_eq_true_2 by (intros H; by apply Hmove).
    rewrite bind_Ok. cbn zeta.
    set (pats1 := <[old_lang := delete (length before) bucket]> pats).
    assert (bucket_of pats1 current_language = bucket_of pats current_language) as Hcur1
      by (unfold bucket_of, pats1; by rewrite lookup_insert_ne).
    assert (pats1 !! old_lang = Some (delete (length before) bucket)) as Hold1
      by (unfold pats1; by rewrite lookup_insert_eq).
    destruct (pats1 !! lang_combo f) as [b|] eqn:Hl.
    + eexists _, bucket. split; [done|]. split; [|split; [done|]].
      * destruct (decide (lang_combo f = current_language)) as [Heq|Hother].
        -- rewrite Heq. unfold bucket_of at 1. rewrite lookup_insert_eq. cbn [default].
           rewrite Hcur1. apply lookup_app_l_Some, Hstays.
        -- unfold bucket_of at 1. rewrite lookup_insert_ne by done.
           fold (bucket_of pats1 current_language). by rewrite Hcur1.
      * by rewrite lookup_insert_ne.
    + eexists _, bucket. split; [done|]. split; [|split; [done|]].
      * destruct (decide (lang_combo f = current_language)) as [Heq|Hother].
        -- exfalso. rewrite Heq in Hl. unfold pats1 in Hl.
           rewrite lookup_insert_ne in Hl by done. unfold bucket_of in Hstays.
           by rewrite Hl in Hstays.
        -- unfold bucket_of at 1. rewrite !lookup_insert_ne by done.
           fold (bucket_of pats1 current_language). by rewrite Hcur1.
      * by rewrite !lookup_insert_ne.
Qed.

Lemma edit_rule_misfiled_witness :
  ∃ e, edit_rule common_store "common" (Some "common-1")
                 (Some (retitle hardcoded_secret "common")) = Raise e.
Proof.
  apply (edit_rule_misfiled common_store "common" "common-1"
           (retitle hardcoded_secret "common") [] hardcoded_secret [] "*" []).
  - discriminate.
  - unfold bucket_of, common_store. by rewrite lookup_singleton_eq.
  - reflexivity.
  - apply not_elem_of_nil.
  - reflexivity.
  - discriminate.
Defined.

End RuleManager_facts.
